(** * Google Photos Takeout helper: metadata resolution and de-duplication

    A shallow embedding of [google_photos_takeout_helper/__main__.py]:
    the content hasher ([get_hash]), the three-tier duplicate index
    ([find_duplicates]) and the removal loop ([remove_duplicates]), the
    collision-safe namer ([new_name_if_exists]), the GPS writer
    ([set_file_geo_data]) and the per-file fallback chain ([fix_metadata]).

    Python exceptions are values of [exn]; a function that may raise
    returns [exn + A], and a function that also mutates the enclosing
    scope of [main] threads the mutated part explicitly. *)

From Stdlib Require Import ZArith QArith Qround Lia.
From Stdlib Require Import Floats.SpecFloat.
From Stdlib Require Import Strings.Byte Strings.Ascii.
From stdpp Require Import base decidable option list gmap strings pretty.

Open Scope string_scope.
Open Scope nat_scope.
Open Scope list_scope.
Open Scope stdpp_scope.

(** ** Paths

    A [pathlib.Path] is the list of its components, root first. *)

Definition Path := list string.

Definition name (p : Path) : string := default "" (last p).
Definition parent (p : Path) : Path := removelast p.
Definition with_name (p : Path) (n : string) : Path := parent p ++ [n].
Definition joinpath (p : Path) (n : string) : Path := p ++ [n].

(** [str(path)]: the components joined with the separator. *)
Definition str (p : Path) : string := String.concat "/" p.

(** [Path.resolve()]: the paths of the model are already absolute. *)
Definition resolve (p : Path) : Path := p.

(** [d in p.parents]: [d] is a strict ancestor of [p]. *)
Definition is_under (d p : Path) : bool :=
  bool_decide (d `prefix_of` p) && negb (bool_decide (d = p)).

(** ** Exceptions *)

Inductive exn : Set :=
| OSError              (* IOError is the same class in Python 3 *)
| FileNotFoundError    (* subclass of OSError *)
| ValueError
| UnicodeDecodeError   (* subclass of ValueError *)
| KeyError
| TypeError
| AttributeError
| OverflowError.

#[global] Instance byte_eq_dec : EqDecision byte := Byte.byte_eq_dec.

#[global] Instance exn_eq_dec : EqDecision exn.
Proof. solve_decision. Defined.

(** [isinstance(e, c)] *)
Definition isinstance (e c : exn) : bool :=
  match c, e with
  | OSError, (OSError | FileNotFoundError) => true
  | ValueError, (ValueError | UnicodeDecodeError) => true
  | _, _ => bool_decide (e = c)
  end.

(** A computation that may raise: [x ← c; k] runs [k] unless [c] raised. *)
#[global] Instance exn_bind : MBind (sum exn) :=
  λ A B f m, match m with inl e => inl e | inr a => f a end.
#[global] Instance exn_ret : MRet (sum exn) := λ A a, inr a.

(** ** Multimaps: [defaultdict(list)]

    Keys are kept in insertion order, as a Python dict keeps them. *)

Section multimap.
Context {K V : Type} `{EqDecision K}.

Definition multimap := list (K * list V).

(** [m[k]] without creating the key *)
Fixpoint mm_get (k : K) (m : multimap) : list V :=
  match m with
  | [] => []
  | (k', vs) :: m' => if decide (k = k') then vs else mm_get k m'
  end.

(** [m[k].append(v)] *)
Fixpoint mm_append (k : K) (v : V) (m : multimap) : multimap :=
  match m with
  | [] => [(k, [v])]
  | (k', vs) :: m' =>
      if decide (k = k') then (k', vs ++ [v]) :: m'
      else (k', vs) :: mm_append k v m'
  end.

Definition mm_values (m : multimap) : list (list V) := m.*2.
Definition mm_items (m : multimap) : list (K * list V) := m.

(** Filing a value under the key it has, if it has one: the shape of the
    loop bodies that fill a multimap. *)
Definition group_step (key : V → option K) (acc : multimap) (v : V) : multimap :=
  match key v with Some k => mm_append k v acc | None => acc end.
End multimap.

Arguments multimap : clear implicits.

(** ** The file tree, as the duplicate index reads it

    [stat_ok] and [open_ok] say whether [stat()] and [open()] succeed on the
    file ([OSError] otherwise); [st_size] is the length of the content. *)

Record file := mkFile { stat_ok : bool; open_ok : bool; data : list byte }.

Inductive node := Dir | File (f : file).

(** The entries of the tree, in the order [rglob] yields them. *)
Abbreviation FS := (list (Path * node)).

Fixpoint fs_lookup (fs : FS) (p : Path) : option node :=
  match fs with
  | [] => None
  | (q, n) :: fs' => if decide (p = q) then Some n else fs_lookup fs' p
  end.

(** [path.rglob("*")] *)
Definition rglob (fs : FS) (path : Path) : list Path :=
  filter (λ p, is_under path p = true) fs.*1.

(** [path_item.is_file()] *)
Definition is_file (fs : FS) (p : Path) : bool :=
  match fs_lookup fs p with Some (File _) => true | _ => false end.

(** [path_item.stat().st_size] *)
Definition stat_size (fs : FS) (p : Path) : exn + nat :=
  match fs_lookup fs p with
  | None => inl FileNotFoundError
  | Some Dir => inr 4096
  | Some (File f) => if stat_ok f then inr (length (data f)) else inl OSError
  end.

(** [open(file, "rb")]: an open binary file is the list of the bytes not
    read yet. *)
Definition fobj := list byte.

Definition open_rb (fs : FS) (p : Path) : exn + fobj :=
  match fs_lookup fs p with
  | None => inl FileNotFoundError
  | Some Dir => inl OSError
  | Some (File f) => if open_ok f then inr (data f) else inl OSError
  end.

(** [fobj.read(n)] *)
Definition read (n : nat) (f : fobj) : list byte * fobj := (take n f, drop n f).

(** ** ContentHasher *)

(** [chunk_reader]: the chunks the generator yields.  The loop reads until
    an empty chunk comes back; [fuel] bounds the number of reads. *)
Fixpoint chunk_reader (fuel : nat) (f : fobj) (chunk_size : nat)
  : option (list (list byte)) :=
  match fuel with
  | O => None
  | S fuel' =>
      let '(chunk, f') := read chunk_size f in
      match chunk with
      | [] => Some []
      | _ => cs ← chunk_reader fuel' f' chunk_size; Some (chunk :: cs)
      end
  end.

Section hash.
(** [hash_algo]: the digest of a byte string.  A [hashlib] object is the
    byte string fed to it so far: [update] appends, [digest] hashes. *)
Context {digest : Type} (hash_algo : list byte → digest).

Definition hashobj := list byte.
Definition hash_new : hashobj := [].
Definition update (h : hashobj) (chunk : list byte) : hashobj := h ++ chunk.
Definition hash_digest (h : hashobj) : digest := hash_algo h.

(** The chunk loop of [get_hash]; one read more than the file has bytes
    always reaches the empty chunk ([chunk_reader_total]). *)
Definition chunks_of (f : fobj) : list (list byte) :=
  default [] (chunk_reader (S (length f)) f 1024).

Definition get_hash (fs : FS) (file : Path) (first_chunk_only : bool)
  : exn + digest :=
  let hashobj := hash_new in
  match open_rb fs file with
  | inl e => inl e
  | inr f =>
      if first_chunk_only then
        inr (hash_digest (update hashobj (read 1024 f).1))
      else
        inr (hash_digest (foldl update hashobj (chunks_of f)))
  end.
End hash.

(** ** DuplicateIndex *)

Section duplicates.
Context {digest : Type} `{EqDecision digest} (hash_algo : list byte → digest).

(** First loop of [find_duplicates]: the size tier. *)
Definition size_step (fs : FS) (filter_function : Path → bool)
    (files_by_size : multimap nat Path) (path_item : Path)
  : multimap nat Path :=
  if is_file fs path_item && filter_function path_item then
    match stat_size fs path_item with
    | inl _ => files_by_size      (* not accessible - pass on *)
    | inr file_size => mm_append file_size path_item files_by_size
    end
  else files_by_size.

(** Second loop: the hash of the first 1024 bytes, per size. *)
Definition small_hash_step (fs : FS)
    (files_by_small_hash : multimap (nat * digest) Path)
    (item : nat * list Path) : multimap (nat * digest) Path :=
  let '(file_size, files) := item in
  if length files <? 2 then files_by_small_hash
  else
    foldl (λ acc path_item,
             match get_hash hash_algo fs path_item true with
             | inl _ => acc
             | inr small_hash => mm_append (file_size, small_hash) path_item acc
             end)
          files_by_small_hash files.

(** Third loop: the hash of the whole file, into the global multimap. *)
Definition full_hash_step (fs : FS)
    (files_by_full_hash : multimap digest Path) (files : list Path)
  : multimap digest Path :=
  if length files <? 2 then files_by_full_hash
  else
    foldl (λ acc path_item,
             match get_hash hash_algo fs path_item false with
             | inl _ => acc
             | inr full_hash => mm_append full_hash path_item acc
             end)
          files_by_full_hash files.

(** [find_duplicates]: returns the module-level [files_by_full_hash]
    after the call. *)
Definition find_duplicates (fs : FS) (path : Path)
    (filter_function : Path → bool)
    (files_by_full_hash : multimap digest Path) : multimap digest Path :=
  let files_by_size := foldl (size_step fs filter_function) [] (rglob fs path) in
  let files_by_small_hash :=
    foldl (small_hash_step fs) [] (mm_items files_by_size) in
  foldl (full_hash_step fs) files_by_full_hash (mm_values files_by_small_hash).

(** [file.unlink()].  Whether a file may be deleted is the folder's and
    the system's business (permissions, a read-only volume, a file in use):
    [can_unlink] says so, and the call raises [PermissionError], an
    [OSError], when it may not. *)
Definition unlink (can_unlink : Path → bool) (fs : FS) (p : Path) : exn + FS :=
  match fs_lookup fs p with
  | None => inl FileNotFoundError
  | Some Dir => inl OSError
  | Some (File _) =>
      if can_unlink p then inr (filter (λ e, e.1 ≠ p) fs) else inl OSError
  end.

(** [files.remove(file)]: drops the first element equal to [file]. *)
Fixpoint list_remove (file : Path) (files : list Path) : exn + list Path :=
  match files with
  | [] => inl ValueError
  | f :: files' =>
      if decide (f = file) then inr files'
      else match list_remove file files' with
           | inl e => inl e
           | inr r => inr (f :: r)
           end
  end.

(** [for file in files: if len(files) > 1: file.unlink(); files.remove(file)].
    The list iterator holds an index [i] into the list object, which the
    body shortens; [None] when [fuel] iterations did not exhaust it.  The
    loop returns or raises, and leaves the list and the tree as they are
    at that point. *)
Fixpoint remove_loop (can_unlink : Path → bool) (fuel i : nat)
    (files : list Path) (fs : FS) : option ((exn + unit) * (list Path * FS)) :=
  match files !! i with
  | None => Some (inr (), (files, fs))
  | Some file =>
      match fuel with
      | O => None
      | S fuel' =>
          if 1 <? length files then
            match unlink can_unlink fs file with
            | inl e => Some (inl e, (files, fs))
            | inr fs' =>
                match list_remove file files with
                | inl e => Some (inl e, (files, fs'))
                | inr files' => remove_loop can_unlink fuel' (S i) files' fs'
                end
            end
          else remove_loop can_unlink fuel' (S i) files fs
      end
  end.

(** The state [remove_duplicates] works on: the tree, the global
    multimap, and the counter of [main]. *)
Record dedup_state := mkDedup {
  tree : FS;
  files_by_full_hash : multimap digest Path;
  s_removed_duplicates_count : nat
}.

(** The loop over [files_by_full_hash.values()]; the lists are the ones
    stored in the multimap, so the shortened list stays under its key.
    When a group's loop raises, the counter has been raised for the group
    already and the groups after it are untouched. *)
Fixpoint remove_groups (can_unlink : Path → bool)
    (groups : multimap digest Path) (fs : FS) (count : nat)
  : option ((exn + unit) * dedup_state) :=
  match groups with
  | [] => Some (inr (), mkDedup fs [] count)
  | (h, files) :: rest =>
      if length files <? 2 then
        '(r, st) ← remove_groups can_unlink rest fs count;
        Some (r, mkDedup (tree st) ((h, files) :: files_by_full_hash st)
                         (s_removed_duplicates_count st))
      else
        let count' := count + (length files - 1) in
        '(r1, (files', fs')) ← remove_loop can_unlink (length files) 0 files fs;
        match r1 with
        | inl e => Some (inl e, mkDedup fs' ((h, files') :: rest) count')
        | inr _ =>
            '(r, st) ← remove_groups can_unlink rest fs' count';
            Some (r, mkDedup (tree st) ((h, files') :: files_by_full_hash st)
                             (s_removed_duplicates_count st))
        end
  end.

(** [remove_duplicates(dir)]; [is_media] is the filter
    [lambda f: is_photo(f) or is_video(f)]. *)
Definition remove_duplicates (can_unlink : Path → bool) (is_media : Path → bool)
    (dir : Path) (st : dedup_state) : option ((exn + bool) * dedup_state) :=
  let idx := find_duplicates (tree st) dir is_media (files_by_full_hash st) in
  '(r, st') ← remove_groups can_unlink idx (tree st) (s_removed_duplicates_count st);
  Some (_ ← r; inr true, st').

(** The elements at the even (0, 2, ...) and at the odd (1, 3, ...)
    positions of a list. *)
Fixpoint evens {A} (l : list A) : list A :=
  match l with
  | x :: _ :: l' => x :: evens l'
  | l => l
  end.

Fixpoint odds {A} (l : list A) : list A :=
  match l with
  | _ :: y :: l' => y :: odds l'
  | _ => []
  end.

(** The files of a group that are still on disk. *)
Definition survivors (fs : FS) (group : list Path) : list Path :=
  filter (λ p, is_file fs p = true) group.

(** [p] is in the indexed set: [rglob] yields it, it is a file that passes
    the filter, and [stat] and [open] succeed on it. *)
Definition indexed (fs : FS) (path : Path) (filter_function : Path → bool)
    (p : Path) (f : file) : Prop :=
  p ∈ rglob fs path ∧ fs_lookup fs p = Some (File f)
  ∧ filter_function p = true ∧ stat_ok f = true ∧ open_ok f = true.

(** The keys under which the loops of [find_duplicates] file a path. *)
Definition size_key (fs : FS) (filter_function : Path → bool) (p : Path)
  : option nat :=
  if is_file fs p && filter_function p then
    match stat_size fs p with inr sz => Some sz | inl _ => None end
  else None.

Definition hash_key (fs : FS) (first_chunk_only : bool) (p : Path)
  : option digest :=
  match get_hash hash_algo fs p first_chunk_only with
  | inr h => Some h
  | inl _ => None
  end.

(** Two paths are in one duplicate group: under one key of the multimap. *)
Definition same_group (idx : multimap digest Path) (a b : Path) : Prop :=
  ∃ h, a ∈ mm_get h idx ∧ b ∈ mm_get h idx.
End duplicates.

(** ** CollisionSafeNamer *)

(** [s.rfind(c)] *)
Fixpoint rfind (c : ascii) (s : string) : option nat :=
  match s with
  | EmptyString => None
  | String a s' =>
      match rfind c s' with
      | Some i => Some (S i)
      | None => if Ascii.eqb a c then Some 0 else None
      end
  end.

(** [pathlib]'s [suffix] and [stem]: split at the last dot of the name
    unless it is the first or the last character. *)
Definition suffix (p : Path) : string :=
  let n := name p in
  match rfind "."%char n with
  | Some i =>
      if (0 <? i) && (i <? String.length n - 1)
      then String.substring i (String.length n - i) n else ""
  | None => ""
  end.

Definition stem (p : Path) : string :=
  let n := name p in
  match rfind "."%char n with
  | Some i =>
      if (0 <? i) && (i <? String.length n - 1)
      then String.substring 0 i n else n
  | None => n
  end.

(** [f"{file.stem}({i}){file.suffix}"] *)
Definition numbered_name (file : Path) (i : nat) : string :=
  stem file +:+ "(" +:+ pretty i +:+ ")" +:+ suffix file.

(** The [i]-th name the loop tries after [file] itself. *)
Definition candidate (file : Path) (i : nat) : Path :=
  with_name file (numbered_name file i).

(** The [while True] loop of [new_name_if_exists]; [rename_map] is the dict
    of [main], returned as the call leaves it.  [None]: no free name within
    [fuel] probes. *)
Fixpoint new_name_loop (fuel : nat) (fs : FS) (file new_name : Path) (i : nat)
    (rename_map : gmap string Path) : option (Path * gmap string Path) :=
  match fuel with
  | O => None
  | S fuel' =>
      if negb (is_file fs new_name) then Some (new_name, rename_map)
      else
        let new_name := with_name file (numbered_name file i) in
        let rename_map := <[str file := new_name]> rename_map in
        new_name_loop fuel' fs file new_name (i + 1) rename_map
  end.

Definition new_name_if_exists (fuel : nat) (fs : FS) (file : Path)
    (rename_map : gmap string Path) : option (Path * gmap string Path) :=
  let new_name := file in
  let i := 1 in
  new_name_loop fuel fs file new_name i rename_map.

(** ** Floats

    A Python [float] is an IEEE 754 double: a [spec_float] of 53 bits of
    precision, every operation rounded to the nearest double, ties to the
    even one.  Infinities and NaN are floats as any other. *)

Abbreviation float := spec_float.

Definition prec : Z := 53.
Definition emax : Z := 1024.

Definition float_zero : float := S754_zero false.

(** The double nearest to an integer (an infinity past the largest one). *)
Definition float_of_Z (z : Z) : float := binary_normalize prec emax z 0 false.

(** [float(n)] for an [int]: "int too large to convert to float". *)
Definition float_of_int (z : Z) : exn + float :=
  match float_of_Z z with
  | S754_infinity _ => inl OverflowError
  | x => inr x
  end.

(** [x * y], [x + y], [x == y] and [x <= y] on floats; an [int] operand
    is converted first, exactly for the small literals of this code. *)
Definition float_mul (x y : float) : float := SFmul prec emax x y.
Definition float_add (x y : float) : float := SFadd prec emax x y.
Definition float_eqb (x y : float) : bool := SFeqb x y.
Definition float_leb (x y : float) : bool := SFleb x y.

(** [x * -1]: the product with -1 is exact, it flips the sign
    ([float_mul_minus_one] below). *)
Definition float_neg (x : float) : float := SFopp x.

(** The number a float stands for; none for an infinity or NaN. *)
Definition float_value (x : float) : option Q :=
  match x with
  | S754_zero _ => Some 0%Q
  | S754_finite s m e => Some (inject_Z (cond_Zopp s (Zpos m)) * 2 ^ e)%Q
  | S754_infinity _ | S754_nan => None
  end.

(** Conversions of a float to an [int] ([int], [math.floor], [round]):
    "cannot convert float NaN to integer" is a [ValueError], "cannot
    convert float infinity to integer" an [OverflowError]. *)
Definition float_to_int (conv : Q → Z) (x : float) : exn + Z :=
  match float_value x with
  | Some q => inr (conv q)
  | None => match x with S754_nan => inl ValueError | _ => inl OverflowError end
  end.

(** The fractional part of a rational, in [0, 1). *)
Definition Qfrac (x : Q) : Q := (x - inject_Z (Qfloor x))%Q.

(** To the nearest integer, ties to the even one. *)
Definition round_half_even (x : Q) : Z :=
  let f := Qfloor x in
  match (Qfrac x ?= 1 # 2)%Q with
  | Lt => f
  | Gt => (f + 1)%Z
  | Eq => if Z.even f then f else (f + 1)%Z
  end.

(** [math.floor(x)] and [round(x)] *)
Definition math_floor (x : float) : exn + Z := float_to_int Qfloor x.
Definition py_round (x : float) : exn + Z := float_to_int round_half_even x.

(** [x % 1]: C's [fmod(x, 1.0)], which is exact and has the sign of [x],
    brought to the sign of the divisor: 1.0 is added to a negative
    remainder (and the sum rounded), a zero remainder is +0.0.  The
    remainder of an infinity or of NaN is NaN. *)
Definition mod1 (x : float) : float :=
  match x with
  | S754_nan | S754_infinity _ => S754_nan
  | S754_zero _ => float_zero
  | S754_finite s m e =>
      let frac := match e with
                  | Zneg k => (Zpos m mod 2 ^ Zpos k)%Z
                  | _ => 0%Z
                  end in
      match frac with
      | 0%Z => float_zero
      | _ =>
          let r := binary_normalize prec emax (cond_Zopp s frac) e false in
          if s then float_add r (float_of_Z 1) else r
      end
  end.

(** ** JSON values, as [json.load] returns them

    A Python [str] is its UTF-8 byte string.  A number written with a
    fraction or an exponent is a [float] (an infinity when it is out of
    range, and [json.load] reads [Infinity] and [NaN] too), another number
    an [int] of any size. *)

#[warnings="-register-all"]
Inductive json :=
| JNull
| JBool (b : bool)
| JInt (z : Z)
| JFloat (x : float)
| JStr (s : string)
| JArr (l : list json)
| JObj (d : gmap string json).

(** [j[key]] for a string key *)
Definition getitem (j : json) (key : string) : exn + json :=
  match j with
  | JObj d => match d !! key with Some v => inr v | None => inl KeyError end
  | _ => inl TypeError
  end.

Definition is_substring (key s : string) : bool :=
  match String.index 0 key s with Some _ => true | None => false end.

(** [key in j] for a string key *)
Definition contains (key : string) (j : json) : exn + bool :=
  match j with
  | JObj d => inr (bool_decide (is_Some (d !! key)))
  | JArr l => inr (existsb (λ x, match x with
                                 | JStr s => bool_decide (s = key)
                                 | _ => false
                                 end) l)
  | JStr s => inr (is_substring key s)
  | _ => inl TypeError
  end.

(** ** GPS *)

(** "converts a string input into a float. If it fails, it returns 0.0":
    a [str] gives 0.0 unread, anything else goes through [float(num)]
    ([OverflowError] on an [int] out of range, [TypeError] on [None], a
    list or a dict). *)
Definition _str_to_float (num : json) : exn + float :=
  match num with
  | JStr _ => inr float_zero
  | JInt z => float_of_int z
  | JFloat x => inr x
  | JBool b => inr (float_of_Z (if b then 1 else 0))
  | JNull | JArr _ | JObj _ => inl TypeError
  end.

(** [change_to_rational], on the integer [round(altitude)] it is called
    with: [Fraction(str(n))] is [n/1]. *)
Definition change_to_rational (number : Z) : Z * Z := (number, 1%Z).

Definition degToDmsRational (degFloat : float) : exn + list (Z * Z) :=
  let min_float := float_mul (mod1 degFloat) (float_of_Z 60) in
  let sec_float := float_mul (mod1 min_float) (float_of_Z 60) in
  deg ← math_floor degFloat;
  deg_min ← math_floor min_float;
  sec ← py_round (float_mul sec_float (float_of_Z 100));
  inr [(deg, 1%Z); (deg_min, 1%Z); (sec, 100%Z)].

(** ** EXIF, as [piexif] holds it

    The value of a tag; [EOffset] is the [int] a pointer tag holds: the
    offset of an IFD in the file, which the layout of the file fixes. *)

Inductive ifd_name := IFD_0th | IFD_Exif | IFD_GPS.

#[global] Instance ifd_name_eq_dec : EqDecision ifd_name.
Proof. solve_decision. Defined.

Inductive exif_value :=
| EBytes (b : string)
| EStr (s : string)
| EInt (z : Z)
| EInts (t : list Z)
| ERational (r : Z * Z)
| ERationals (l : list (Z * Z))
| EOffset (i : ifd_name).

#[global] Instance exif_value_eq_dec : EqDecision exif_value.
Proof. solve_decision. Defined.

Abbreviation ifd := (gmap Z exif_value).

(** [piexif.load] always returns the "0th", "Exif" and "GPS" keys; the
    dict the code falls back on has the first two only.  The "Interop",
    "1st" and "thumbnail" entries, which the code never touches, are left
    out. *)
Record exif_dict := mkExif {
  ifd_0th : ifd;
  ifd_Exif : ifd;
  ifd_GPS : option ifd
}.

(** [exif_dict[ifd][tag]] *)
Definition exif_get (d : exif_dict) (i : ifd_name) (tag : Z) : exn + exif_value :=
  let sub := match i with
             | IFD_0th => Some (ifd_0th d)
             | IFD_Exif => Some (ifd_Exif d)
             | IFD_GPS => ifd_GPS d
             end in
  match sub with
  | None => inl KeyError
  | Some m => match m !! tag with Some v => inr v | None => inl KeyError end
  end.

Definition TAG_DATE_TIME_ORIGINAL : Z := 36867.
Definition TAG_DATE_TIME_DIGITIZED : Z := 36868.
Definition TAG_DATE_TIME : Z := 306.

Definition GPSVersionID : Z := 0.
Definition GPSLatitudeRef : Z := 1.
Definition GPSLatitude : Z := 2.
Definition GPSLongitudeRef : Z := 3.
Definition GPSLongitude : Z := 4.
Definition GPSAltitudeRef : Z := 5.
Definition GPSAltitude : Z := 6.

(** The pointer tags of the 0th IFD ([piexif.ImageIFD.ExifTag] and
    [GPSTag]). *)
Definition ExifTag : Z := 34665.
Definition GPSTag : Z := 34853.

(** What [piexif.load] returns for a file into which [piexif.dump(d)] was
    inserted.  [dump] sets the pointer to an IFD that has a tag and drops
    the pointer to one that has none, whatever the dict held under the
    pointer tags; text is stored as ASCII and read back as [bytes]; the
    "GPS" key is always there. *)
Definition as_read (v : exif_value) : exif_value :=
  match v with
  | EStr s => EBytes s
  | v => v
  end.

Definition with_pointer (tag : Z) (target : ifd_name) (sub : ifd) (zeroth : ifd)
  : ifd :=
  if decide (sub = ∅) then delete tag zeroth
  else <[tag := EOffset target]> zeroth.

Definition as_loaded (d : exif_dict) : exif_dict :=
  let gps := default ∅ (ifd_GPS d) in
  mkExif (with_pointer GPSTag IFD_GPS gps
            (with_pointer ExifTag IFD_Exif (ifd_Exif d) (as_read <$> ifd_0th d)))
         (as_read <$> ifd_Exif d)
         (Some (as_read <$> gps)).

(** The first half of [set_file_geo_data]: [(longitude, latitude, altitude)]
    read from "geoData", or from "geoDataExif" when the first two are 0. *)
Definition read_geo (json : json) (block : string) : exn + float * float * float :=
  g ← getitem json block;
  lo ← getitem g "longitude"; longitude ← _str_to_float lo;
  la ← getitem g "latitude"; latitude ← _str_to_float la;
  al ← getitem g "altitude"; altitude ← _str_to_float al;
  inr (longitude, latitude, altitude).

Definition select_geo (json : json) : exn + float * float * float :=
  '(longitude, latitude, altitude) ← read_geo json "geoData";
  if float_eqb longitude float_zero && float_eqb latitude float_zero then
    read_geo json "geoDataExif"
  else inr (longitude, latitude, altitude).

(** [if x >= 0: ref = pos  else: ref = neg; x = x * -1] *)
Definition hemisphere (x : float) (pos neg : string) : string * float :=
  if float_leb float_zero x then (pos, x) else (neg, float_neg x).

(** The second half: hemisphere references and the GPS IFD.  The
    conversions of the latitude, of the longitude and of the altitude are
    evaluated in this order, and the first that raises ends the call. *)
Definition make_gps_ifd (longitude latitude altitude : float) : exn + ifd :=
  let '(longitude_ref, longitude) := hemisphere longitude "E" "W" in
  let '(latitude_ref, latitude) := hemisphere latitude "N" "S" in
  let gps_ifd : ifd := {[ GPSVersionID := EInts [2; 0; 0; 0]%Z ]} in
  gps_ifd ←
    (* skips it if it's empty *)
    (if negb (float_eqb latitude float_zero) || negb (float_eqb longitude float_zero)
     then
       latitude_dms ← degToDmsRational latitude;
       longitude_dms ← degToDmsRational longitude;
       inr (<[GPSLongitude := ERationals longitude_dms]>
            (<[GPSLongitudeRef := EStr longitude_ref]>
            (<[GPSLatitude := ERationals latitude_dms]>
            (<[GPSLatitudeRef := EStr latitude_ref]> gps_ifd))))
     else inr gps_ifd);
  if negb (float_eqb altitude float_zero) then
    n ← py_round altitude;
    inr (<[GPSAltitude := ERational (change_to_rational n)]>
         (<[GPSAltitudeRef := EInt 1]> gps_ifd))
  else inr gps_ifd.

(** ** The input tree and the collaborators of the metadata fixer

    A file of the input tree is what [json.load] makes of it ([None]: it
    raises).  The EXIF codec, the clock and the parsing of numbers and
    dates are the library's: the model takes their answers as given. *)

Inductive inode := IDir | IFile (json_load : option json).

Record World := mkWorld {
  (** entries of the tree, in [rglob] order *)
  entries : list (Path * inode);
  (** [piexif.insert(piexif.dump(d), str(file))] succeeds *)
  insert_ok : Path → exif_dict → bool;
  (** [os.utime(file, (t, t))] succeeds *)
  utime_ok : Path → bool;
  (** [b.decode("UTF-8")] succeeds *)
  utf8_ok : string → bool;
  (** [int(s)] on a string; [None]: [ValueError] *)
  int_of_str : string → option Z;
  (** [datetime.fromtimestamp(t).strftime("%Y:%m:%d %H:%M:%S")] *)
  strftime_of_timestamp : Z → exn + string;
  (** [datetime.strptime(s, "%Y:%m:%d %H:%M:%S").timestamp()];
      [None]: [ValueError] *)
  strptime_timestamp : string → option Z
}.

(** What [main] and the files hold while the fixer runs. *)
Record State := mkState {
  s_cant_insert_exif_files : list string;
  s_date_from_folder_files : list string;
  s_no_json_found : list string;
  s_no_date_at_all : list string;
  _all_jsons_dict : gmap Path (gmap string json);
  (** the EXIF [piexif.load] returns; no entry: [load] raises *)
  exif_of : gmap Path exif_dict;
  (** modification time set by [os.utime] *)
  mtime_of : gmap Path Z
}.

Definition set_cant_insert (f : list string → list string) (st : State) : State :=
  mkState (f (s_cant_insert_exif_files st)) (s_date_from_folder_files st)
          (s_no_json_found st) (s_no_date_at_all st) (_all_jsons_dict st)
          (exif_of st) (mtime_of st).
Definition set_date_from_folder (f : list string → list string) (st : State) : State :=
  mkState (s_cant_insert_exif_files st) (f (s_date_from_folder_files st))
          (s_no_json_found st) (s_no_date_at_all st) (_all_jsons_dict st)
          (exif_of st) (mtime_of st).
Definition set_no_json_found (f : list string → list string) (st : State) : State :=
  mkState (s_cant_insert_exif_files st) (s_date_from_folder_files st)
          (f (s_no_json_found st)) (s_no_date_at_all st) (_all_jsons_dict st)
          (exif_of st) (mtime_of st).
Definition set_no_date_at_all (f : list string → list string) (st : State) : State :=
  mkState (s_cant_insert_exif_files st) (s_date_from_folder_files st)
          (s_no_json_found st) (f (s_no_date_at_all st)) (_all_jsons_dict st)
          (exif_of st) (mtime_of st).
Definition set_all_jsons (f : gmap Path (gmap string json) → gmap Path (gmap string json))
    (st : State) : State :=
  mkState (s_cant_insert_exif_files st) (s_date_from_folder_files st)
          (s_no_json_found st) (s_no_date_at_all st) (f (_all_jsons_dict st))
          (exif_of st) (mtime_of st).
Definition set_exif (f : gmap Path exif_dict → gmap Path exif_dict) (st : State) : State :=
  mkState (s_cant_insert_exif_files st) (s_date_from_folder_files st)
          (s_no_json_found st) (s_no_date_at_all st) (_all_jsons_dict st)
          (f (exif_of st)) (mtime_of st).
Definition set_mtime (f : gmap Path Z → gmap Path Z) (st : State) : State :=
  mkState (s_cant_insert_exif_files st) (s_date_from_folder_files st)
          (s_no_json_found st) (s_no_date_at_all st) (_all_jsons_dict st)
          (exif_of st) (f (mtime_of st)).

(** A statement of the fixer: it returns or raises, and leaves a state
    (what it changed before raising stays changed). *)
Definition M (A : Type) : Type := State → (exn + A) * State.

#[global] Instance M_ret : MRet M := λ A a st, (inr a, st).
#[global] Instance M_bind : MBind M :=
  λ A B f m st, match m st with
                | (inl e, st') => (inl e, st')
                | (inr a, st') => f a st'
                end.

Definition raise {A} (e : exn) : M A := λ st, (inl e, st).
Definition lift {A} (r : exn + A) : M A := λ st, (r, st).
Definition modify (f : State → State) : M unit := λ st, (inr (), f st).

(** [try: body  except <classes>: handler]; [catches e] says whether one of
    the [except] clauses matches. *)
Definition try_except {A} (body : M A) (catches : exn → bool)
    (handler : exn → M A) : M A :=
  λ st, match body st with
        | (inl e, st') => if catches e then handler e st' else (inl e, st')
        | r => r
        end.

Fixpoint entry_lookup (l : list (Path * inode)) (p : Path) : option inode :=
  match l with
  | [] => None
  | (q, n) :: l' => if decide (p = q) then Some n else entry_lookup l' p
  end.

Definition w_lookup (W : World) (p : Path) : option inode :=
  entry_lookup (entries W) p.

Definition w_is_file (W : World) (p : Path) : bool :=
  match w_lookup W p with Some (IFile _) => true | _ => false end.

(** [with open(p) as f: json.load(f)]; [None]: it raises. *)
Definition load_json (W : World) (p : Path) : option json :=
  match w_lookup W p with
  | Some (IFile (Some j)) => Some j
  | _ => None
  end.

Definition ends_with (suf s : string) : bool :=
  bool_decide (String.substring (String.length s - String.length suf)
                                (String.length suf) s = suf)
  && (String.length suf <=? String.length s).

(** [dir.rglob("*")] and [dir.rglob("*.json")] *)
Definition w_rglob (W : World) (dir : Path) : list Path :=
  filter (λ p, is_under dir p = true) (entries W).*1.

Definition w_rglob_json (W : World) (dir : Path) : list Path :=
  filter (λ p, ends_with ".json" (name p) = true) (w_rglob W dir).

(** ** SidecarResolver *)

(** The body of the scan loop of [find_json_for_file] once the file is
    parsed.  [_all_jsons_dict[parent]] creates the folder's dict before
    the title is read; a title that is not a [str] never equals a file
    name, so only [str] titles are kept. *)
Definition index_json (folder : Path) (json_dict : json) (st : State) : State :=
  match contains "title" json_dict with
  | inr true =>
      let st := set_all_jsons
                  (λ m, match m !! folder with
                        | Some _ => m
                        | None => <[folder := ∅]> m
                        end) st in
      match getitem json_dict "title" with
      | inr (JStr title) =>
          set_all_jsons
            (λ m, <[folder := <[title := json_dict]> (default ∅ (m !! folder))]> m) st
      | _ => st
      end
  | _ => st
  end.

Definition load_folder (W : World) (folder : Path) (st : State) : State :=
  foldl (λ st json_file,
           match load_json W json_file with
           | Some json_dict => index_json folder json_dict st
           | None => st      (* Couldn't open json file *)
           end)
        st (w_rglob_json W folder).

Definition find_json_for_file (W : World) (path_obj : Path) : M json :=
  λ st,
  let potential_json := with_name path_obj (name path_obj +:+ ".json") in
  if w_is_file W potential_json then
    match load_json W potential_json with
    | Some json_dict => (inr json_dict, st)
    | None => (inl FileNotFoundError, st)
    end
  else
    (* path_obj does not have matching .json file *)
    let st :=
      if bool_decide (is_Some (_all_jsons_dict st !! parent path_obj)) then st
      else load_folder W (parent path_obj) st in
    match _all_jsons_dict st !! parent path_obj ≫= (.!! name path_obj) with
    | Some json_dict => (inr json_dict, st)
    | None =>
        (inl FileNotFoundError,
         set_no_json_found (λ l, l ++ [str (resolve path_obj)]) st)
    end.

(** The loop of [find_album_meta_json_file]. *)
Fixpoint album_meta_scan (W : World) (files : list Path) : option Path :=
  match files with
  | [] => None
  | file :: rest =>
      match load_json W file with
      | Some dict =>
          match contains "albumData" dict with
          | inr true => Some file
          | _ => album_meta_scan W rest
          end
      | None => album_meta_scan W rest
      end
  end.

(** [find_album_meta_json_file].  Its [lru_cache] is left out: the run
    changes no JSON file, so a cached answer is the computed one. *)
Definition find_album_meta_json_file (W : World) (dir : Path) : option Path :=
  album_meta_scan W (w_rglob_json W dir).

(** [int(x)] *)
Definition py_int (W : World) (x : json) : exn + Z :=
  match x with
  | JStr s => match int_of_str W s with Some z => inr z | None => inl ValueError end
  | JInt z => inr z
  | JFloat x => float_to_int (λ q, if Qle_bool 0 q then Qfloor q else Qceiling q) x
  | JBool b => inr (if b then 1 else 0)%Z
  | _ => inl TypeError
  end.

Definition get_date_from_folder_meta (W : World) (path_obj : Path)
  : exn + option string :=
  let default_date : option string := None in
  let json_file := find_album_meta_json_file W path_obj in
  match json_file with
  | None => inr default_date
  | Some json_file =>
      let body :=
        match load_json W json_file with
        | None => inl ValueError
        | Some album_dict =>
            a ← getitem album_dict "albumData";
            d ← getitem a "date";
            t ← getitem d "timestamp";
            time ← py_int W t;
            date ← strftime_of_timestamp W time;
            inr (Some date)
        end in
      match body with
      | inl e => if isinstance e KeyError then inr default_date else inl e
      | inr r => inr r
      end
  end.

(** ** MetadataFixer *)

Definition DATE_NOT_FOUND_DATE : string := "1971:01:01 01:01:01".

(** [s.replace(old, new)] for a non-empty [old]; [skip] counts the
    characters of a match still to pass over. *)
Fixpoint replace_aux (old new : string) (skip : nat) (s : string) : string :=
  match s with
  | EmptyString => EmptyString
  | String c s' =>
      match skip with
      | S k => replace_aux old new k s'
      | O =>
          if String.prefix old s
          then new +:+ replace_aux old new (String.length old - 1) s'
          else String c (replace_aux old new 0 s')
      end
  end.

Definition replace (old new s : string) : string := replace_aux old new 0 s.

Definition normalize_datetime (str_datetime : string) : string :=
  String.substring 0 19
    (replace ": " ":0"
       (replace "\" ":"
          (replace "." ":"
             (replace "/" ":"
                (replace "-" ":" str_datetime))))).

(** Not on Windows ([os.name != "nt"]): no [setctime]. *)
Definition set_creation_date_from_str (W : World) (file : Path)
    (str_datetime : string) : M unit :=
  try_except
    (let str_datetime := normalize_datetime str_datetime in
     match strptime_timestamp W str_datetime with
     | None => raise ValueError
     | Some timestamp =>
         if utime_ok W file then modify (set_mtime <[file := timestamp]>)
         else raise OSError
     end)
    (λ _, true)
    (λ _, raise ValueError).

Definition piexif_load (file : Path) : M exif_dict :=
  λ st, match exif_of st !! file with
        | Some d => (inr d, st)
        | None => (inl ValueError, st)
        end.

(** [piexif.insert(piexif.dump(d), str(file))]: from then on [load]
    returns [d] as the codec reads it back. *)
Definition piexif_insert (W : World) (d : exif_dict) (file : Path) : M unit :=
  λ st, if insert_ok W file d then (inr (), set_exif <[file := as_loaded d]> st)
        else (inl ValueError, st).

(** [v.decode("UTF-8")]: only [bytes] have the method. *)
Definition decode_utf8 (W : World) (v : exif_value) : exn + string :=
  match v with
  | EBytes b => if utf8_ok W b then inr b else inl UnicodeDecodeError
  | _ => inl AttributeError
  end.

Definition date_tags : list (ifd_name * Z) :=
  [(IFD_0th, TAG_DATE_TIME);
   (IFD_Exif, TAG_DATE_TIME_ORIGINAL);
   (IFD_Exif, TAG_DATE_TIME_DIGITIZED)].

(** The [for tag in tags] loop; returns [date_set_success]. *)
Fixpoint date_tags_loop (W : World) (file : Path) (exif_dict : exif_dict)
    (tags : list (ifd_name * Z)) : M bool :=
  match tags with
  | [] => mret false
  | tag :: rest =>
      try_except
        (datetime_str ← lift (exif_get exif_dict tag.1 tag.2 ≫= decode_utf8 W);
         _ ← set_creation_date_from_str W file datetime_str;
         mret true)
        (λ e, isinstance e KeyError || isinstance e ValueError)
        (λ _, date_tags_loop W file exif_dict rest)
  end.

Definition set_creation_date_from_exif (W : World) (file : Path) : M unit :=
  exif_dict ← try_except (piexif_load file) (λ _, true) (λ _, raise OSError);
  date_set_success ← date_tags_loop W file exif_dict date_tags;
  if negb date_set_success then raise OSError else mret ().

Definition fallback_exif : exif_dict := mkExif ∅ ∅ None.

Definition set_file_exif_date (W : World) (file : Path) (creation_date : string)
  : M unit :=
  exif_dict ← try_except (piexif_load file) (λ _, true) (λ _, mret fallback_exif);
  let creation_date := EBytes creation_date in
  let exif_dict :=
    mkExif (<[TAG_DATE_TIME := creation_date]> (ifd_0th exif_dict))
           (<[TAG_DATE_TIME_DIGITIZED := creation_date]>
              (<[TAG_DATE_TIME_ORIGINAL := creation_date]> (ifd_Exif exif_dict)))
           (ifd_GPS exif_dict) in
  try_except (piexif_insert W exif_dict file) (λ _, true)
    (λ _, modify (set_cant_insert (λ l, l ++ [str (resolve file)]))).

Definition get_date_str_from_json (W : World) (json_file : json) : exn + string :=
  p ← getitem json_file "photoTakenTime";
  t ← getitem p "timestamp";
  time ← py_int W t;
  strftime_of_timestamp W time.

Definition set_file_geo_data (W : World) (file : Path) (json : json) : M unit :=
  exif_dict ← try_except (piexif_load file) (λ _, true) (λ _, mret fallback_exif);
  '(longitude, latitude, altitude) ← lift (select_geo json);
  gps_ifd ← lift (make_gps_ifd longitude latitude altitude);
  let exif_dict := mkExif (ifd_0th exif_dict) (ifd_Exif exif_dict) (Some gps_ifd) in
  try_except (piexif_insert W exif_dict file) (λ _, true)
    (λ _, mret ()).    (* Couldn't insert geo exif! *)

(** The sidecar step of [fix_metadata]: [Some b] when it returned [b],
    [None] when [FileNotFoundError] was caught. *)
Definition sidecar_step (W : World) (file_obj : Path) : M (option bool) :=
  try_except
    (google_json ← find_json_for_file W file_obj;
     meta_date ← lift (get_date_str_from_json W google_json);
     _ ← set_file_geo_data W file_obj google_json;
     _ ← set_file_exif_date W file_obj meta_date;
     _ ← set_creation_date_from_str W file_obj meta_date;
     mret (Some true))
    (λ e, isinstance e FileNotFoundError)
    (λ _, mret None).    (* Couldn't find json for file *)

(** What follows the sidecar step when it did not return. *)
Definition folder_step (W : World) (file_obj : Path) (has_nice_date : bool)
  : M bool :=
  if has_nice_date then mret true
  else
    (* Last option, copying folder meta as date... *)
    meta_date ← lift (get_date_from_folder_meta W (parent file_obj));
    meta_date ← match meta_date with
                | None =>
                    _ ← modify (set_no_date_at_all
                                  (λ l, l ++ [str (resolve file_obj)]));
                    mret DATE_NOT_FOUND_DATE
                | Some d => mret d
                end;
    _ ← set_file_exif_date W file_obj meta_date;
    _ ← set_creation_date_from_str W file_obj meta_date;
    _ ← modify (set_date_from_folder (λ l, l ++ [str (resolve file_obj)]));
    mret true.

Definition exif_step (W : World) (file_obj : Path) : M bool :=
  try_except
    (_ ← set_creation_date_from_exif W file_obj; mret true)
    (λ e, isinstance e ValueError || isinstance e OSError)
    (λ _, mret false).   (* No exif for file_obj *)

Definition fix_metadata (W : World) (file_obj : Path) : M bool :=
  has_nice_date ← exif_step W file_obj;
  r ← sidecar_step W file_obj;
  match r with
  | Some b => mret b
  | None => folder_step W file_obj has_nice_date
  end.

Fixpoint for_each {A} (body : A → M unit) (l : list A) : M unit :=
  match l with
  | [] => mret ()
  | x :: l' => _ ← body x; for_each body l'
  end.

Definition for_all_files_recursive (W : World) (dir : Path)
    (file_function folder_function : Path → M bool)
    (filter_function : Path → bool) : M unit :=
  for_each
    (λ directory_item,
       match w_lookup W directory_item with
       | Some IDir => _ ← folder_function directory_item; mret ()
       | Some (IFile _) =>
           if filter_function directory_item
           then _ ← file_function directory_item; mret ()
           else mret ()
       | None => mret ()    (* Found something weird... *)
       end)
    (w_rglob W dir).

(** The first phase of [main]: [fix_metadata] on every media file. *)
Definition fix_all (W : World) (PHOTOS_DIR : Path) (is_media : Path → bool)
  : M unit :=
  for_all_files_recursive W PHOTOS_DIR (fix_metadata W) (λ _, mret true) is_media.

(** ** What the fallback chain relies on *)

(** The embedded date tags of [file], where present, are [bytes]. *)
Definition date_tags_are_bytes (st : State) (file : Path) : Prop :=
  ∀ d tag v, exif_of st !! file = Some d → tag ∈ date_tags →
             exif_get d tag.1 tag.2 = inr v → ∃ b, v = EBytes b.

(** The position of a sidecar as [set_file_geo_data] makes a GPS IFD of
    it, or what it raises on the way. *)
Definition gps_ifd_of (j : json) : exn + ifd :=
  '(longitude, latitude, altitude) ← select_geo j;
  make_gps_ifd longitude latitude altitude.

(** A sidecar the chain can use: its date is read and parses, and its
    position is read and converts. *)
Definition sidecar_usable (W : World) (j : json) : Prop :=
  (∃ date, get_date_str_from_json W j = inr date
           ∧ is_Some (strptime_timestamp W (normalize_datetime date)))
  ∧ (∃ gps_ifd, gps_ifd_of j = inr gps_ifd).

(** The date the folder step writes: the album's, if the folder has album
    metadata with a date, and the default date otherwise; it is read
    without an error and parses. *)
Definition album_date_usable (W : World) (dir : Path) : Prop :=
  ∃ r, get_date_from_folder_meta W dir = inr r
       ∧ is_Some (strptime_timestamp W
                    (normalize_datetime (default DATE_NOT_FOUND_DATE r))).

(** [m] returns (does not raise) from [st]. *)
Definition returns {A} (m : M A) (st : State) : Prop :=
  ∃ a st', m st = (inr a, st').

Definition initial_state (exif : gmap Path exif_dict) : State :=
  mkState [] [] [] [] ∅ exif ∅.

(** ** Concrete trees and inputs used below *)

Definition plain_file (content : list byte) : node := File (mkFile true true content).

Definition out_dir : Path := ["out"].
Definition a_jpg : Path := ["out"; "a.jpg"].
Definition b_jpg : Path := ["out"; "b.jpg"].
Definition c_jpg : Path := ["out"; "c.jpg"].
Definition d_jpg : Path := ["out"; "d.jpg"].
Definition a1_jpg : Path := ["out"; "a(1).jpg"].
Definition a2_jpg : Path := ["out"; "a(2).jpg"].

Definition any_file (_ : Path) : bool := true.

(** Every file may be deleted. *)
Definition deletable (_ : Path) : bool := true.

(** The digest that is the content itself: collision-free. *)
Definition id_hash (content : list byte) : list byte := content.

(** One file of three bytes. *)
Definition three_bytes : FS := [(a_jpg, plain_file [x01; x02; x03]%byte)].

(** 1025 bytes each: [a] and [b] are equal, [c] differs from them in the
    last byte only, past the first 1024. *)
Definition block_a : list byte := replicate 1024 x00 ++ [x01].
Definition block_c : list byte := replicate 1024 x00 ++ [x02].

Definition near_collision_tree : FS :=
  [(out_dir, Dir);
   (a_jpg, plain_file block_a);
   (b_jpg, plain_file block_a);
   (c_jpg, plain_file block_c)].

(** Four copies of one content. *)
Definition four_copies : FS :=
  [(a_jpg, plain_file [x01]); (b_jpg, plain_file [x01]);
   (c_jpg, plain_file [x01]); (d_jpg, plain_file [x01])].

(** The output folder after the first, and after the second, copy of a
    file named [a.jpg]. *)
Definition one_copy : FS := [(a_jpg, plain_file [])].
Definition two_copies : FS := [(a_jpg, plain_file []); (a1_jpg, plain_file [])].

(** Sidecars.  [zero_geo]: no position at all.  [stripped_geo]: the editor
    zeroed "geoData" and "geoDataExif" kept the position.  [string_geo]:
    coordinates as strings. *)
Definition geo_block (longitude latitude altitude : json) : json :=
  JObj (list_to_map [("longitude", longitude); ("latitude", latitude);
                     ("altitude", altitude)]).

Definition sidecar (timestamp : string) (geoData geoDataExif : json) : json :=
  JObj (list_to_map
          [("title", JStr "a.jpg");
           ("photoTakenTime", JObj (list_to_map [("timestamp", JStr timestamp)]));
           ("geoData", geoData);
           ("geoDataExif", geoDataExif)]).

Definition zero_block : json :=
  geo_block (JFloat float_zero) (JFloat float_zero) (JFloat float_zero).

Definition zero_geo : json := sidecar "1577836800" zero_block zero_block.

Definition stripped_geo : json :=
  sidecar "1577836800" zero_block
    (geo_block (JFloat (float_of_Z (-122))) (JFloat (float_of_Z 45))
               (JFloat (float_of_Z 30))).

Definition string_geo : json :=
  sidecar "1577836800"
    (geo_block (JStr "-122.0") (JStr "45.0") (JFloat float_zero))
    zero_block.

(** A sidecar whose "geoData" is zeroed and that has no "geoDataExif". *)
Definition zero_only_geo : json :=
  JObj (list_to_map
          [("title", JStr "a.jpg");
           ("photoTakenTime", JObj (list_to_map [("timestamp", JStr "1577836800")]));
           ("geoData", zero_block)]).

(** Sidecars with no position and an altitude out of range: [1e999] is
    read as infinity, and the integer [10 ** 400] is too large for a
    float. *)
Definition high_geo : json :=
  sidecar "1577836800" zero_block
    (geo_block (JFloat float_zero) (JFloat float_zero)
               (JFloat (S754_infinity false))).

Definition huge_geo : json :=
  sidecar "1577836800" zero_block
    (geo_block (JFloat float_zero) (JFloat float_zero) (JInt (10 ^ 400))).

(** The library's answers on the few values the examples need, as on a
    machine whose local time is UTC. *)
Definition table_int (s : string) : option Z :=
  if decide (s = "1577836800") then Some 1577836800%Z
  else if decide (s = "1600000000") then Some 1600000000%Z
  else None.

Definition table_strftime (t : Z) : exn + string :=
  if decide (t = 1577836800%Z) then inr "2020:01:01 00:00:00"
  else if decide (t = 1600000000%Z) then inr "2020:09:13 12:26:40"
  else inl OverflowError.

Definition table_strptime (s : string) : option Z :=
  if decide (s = "2020:01:01 00:00:00") then Some 1577836800%Z
  else if decide (s = "2020:09:13 12:26:40") then Some 1600000000%Z
  else if decide (s = "1971:01:01 01:01:01") then Some 31539661%Z
  else None.

Definition make_world (entries : list (Path * inode))
    (insert_ok : Path → exif_dict → bool) (utime_ok : Path → bool) : World :=
  mkWorld entries insert_ok utime_ok (λ _, true)
          table_int table_strftime table_strptime.

Definition in_dir : Path := ["in"].
Definition album_dir : Path := ["in"; "album"].
Definition a_photo : Path := ["in"; "album"; "a.jpg"].
Definition b_photo : Path := ["in"; "album"; "b.jpg"].
Definition a_sidecar : Path := ["in"; "album"; "a.jpg.json"].

(** Two photos and nothing else: no sidecar, no album metadata. *)
Definition bare_entries : list (Path * inode) :=
  [(album_dir, IDir); (a_photo, IFile None); (b_photo, IFile None)].

Definition bare_world : World := make_world bare_entries (λ _ _, true) (λ _, true).

(** The same tree, with [a.jpg] on which [os.utime] fails. *)
Definition readonly_world : World :=
  make_world bare_entries (λ _ _, true) (λ p, bool_decide (p ≠ a_photo)).

(** [a.jpg] has a sidecar that is not JSON; the codec rejects every insert. *)
Definition broken_sidecar_world : World :=
  make_world (bare_entries ++ [(a_sidecar, IFile None)]) (λ _ _, false) (λ _, true).

(** [a.jpg] has a sidecar with a date and no "geoData". *)
Definition no_geo_sidecar : json :=
  JObj (list_to_map
          [("title", JStr "a.jpg");
           ("photoTakenTime", JObj (list_to_map [("timestamp", JStr "1577836800")]))]).

Definition no_geo_world : World :=
  make_world (bare_entries ++ [(a_sidecar, IFile (Some no_geo_sidecar))])
             (λ _ _, true) (λ _, true).

(** [a.jpg] has a sidecar whose "geoData" is zeroed and that has no
    "geoDataExif". *)
Definition zero_only_world : World :=
  make_world (bare_entries ++ [(a_sidecar, IFile (Some zero_only_geo))])
             (λ _ _, true) (λ _, true).

(** No file has EXIF that loads; or [a.jpg] is a JPEG with no tag at all. *)
Definition no_exif : State := initial_state ∅.
Definition empty_exif : State := initial_state {[ a_photo := mkExif ∅ ∅ (Some ∅) ]}.

From Stdlib Require Qabs Lqa Qpower.

(** ** Further definitions: what a build of the index and a removal leave *)

(** What the removal loop keeps of a group, and what it deletes. *)
Definition kept_of (group : list Path) : list Path :=
  if length group <? 2 then group else odds group.

Definition deleted_of (group : list Path) : list Path :=
  if length group <? 2 then [] else evens group.

(** ** Copying to the output folder *)

(** What the second phase of [main] works on: the tree, the rename map and
    the counter of copied files. *)
Record copy_state := mkCopy {
  c_tree : FS;
  c_rename_map : gmap string Path;
  s_copied_files : nat
}.

(** [shutil.copy2(src, dst)] on the tree.  A directory as [dst] stands for
    the entry of [src]'s name inside it; the source is opened for reading,
    and its content written over the file at the destination, or to a new
    file, listed last.  Copying a file onto itself is an error
    ([SameFileError], an [OSError]).  [copy2] carries the permission bits
    of the source over, and the source was read: the copy can be opened.
    The timestamps it carries over are not part of this tree. *)
Definition copy2 (fs : FS) (src dst : Path) : exn + FS :=
  let dst := match fs_lookup fs dst with
             | Some Dir => joinpath dst (name src)
             | _ => dst
             end in
  match fs_lookup fs dst with
  | Some Dir => _ ← open_rb fs src; inl OSError    (* IsADirectoryError *)
  | Some (File f) =>
      if decide (src = dst) then inl OSError
      else
        content ← open_rb fs src;
        inr ((λ e : Path * node,
                if decide (e.1 = dst)
                then (dst, File (mkFile (stat_ok f) true content))
                else e) <$> fs)
  | None =>
      content ← open_rb fs src;
      inr (fs ++ [(dst, File (mkFile true true content))])
  end.

(** [copy_to_target(file)]: what it returns or raises, and the state it
    leaves ([None]: the namer ran out of [fuel]).  [is_media] is
    [is_photo(file) or is_video(file)]; [main] has created [FIXED_DIR]. *)
Definition copy_to_target (fuel : nat) (is_media : Path → bool)
    (FIXED_DIR : Path) (file : Path) (st : copy_state)
  : option ((exn + bool) * copy_state) :=
  if is_media file then
    '(new_file, rename_map) ←
      new_name_if_exists fuel (c_tree st) (joinpath FIXED_DIR (name file))
        (c_rename_map st);
    match copy2 (c_tree st) file new_file with
    | inl e => Some (inl e, mkCopy (c_tree st) rename_map (s_copied_files st))
    | inr fs =>
        Some (inr true, mkCopy fs rename_map (s_copied_files st + 1))
    end
  else Some (inr true, st).

(** ** The embedded date, as the fixer reads it *)

(** The timestamp a date tag yields: the tag is present, holds bytes that
    decode, and the text parses as a date. *)
Definition tag_timestamp (W : World) (d : exif_dict) (tag : ifd_name * Z)
  : option Z :=
  match exif_get d tag.1 tag.2 with
  | inr (EBytes b) =>
      if utf8_ok W b then strptime_timestamp W (normalize_datetime b) else None
  | _ => None
  end.

(** The timestamp of the first of [tags] that yields one. *)
Definition first_timestamp (W : World) (d : exif_dict)
    (tags : list (ifd_name * Z)) : option Z :=
  head (omap (tag_timestamp W d) tags).

(** ** Further inputs used below *)

(** [a.jpg] carries DateTimeOriginal, written with dashes, and no other
    date tag. *)
Definition dated_exif : State :=
  initial_state
    {[ a_photo := as_loaded
                    (mkExif ∅ {[ TAG_DATE_TIME_ORIGINAL := EBytes "2020-09-13 12:26:40" ]}
                            None) ]}.

(** [a.jpg] has a sidecar with a date and a position. *)
Definition sidecar_world : World :=
  make_world (bare_entries ++ [(a_sidecar, IFile (Some stripped_geo))])
             (λ _ _, true) (λ _, true).

(** ** The sidecar and the album metadata a folder offers *)

(** The title under which the folder index files a parsed JSON value. *)
Definition json_title (j : json) : option string :=
  match contains "title" j with
  | inr true =>
      match getitem j "title" with inr (JStr title) => Some title | _ => None end
  | _ => None
  end.

(** The last of [files] that parses to a JSON value titled [title]. *)
Definition last_titled (W : World) (files : list Path) (title : string)
  : option json :=
  last (omap (λ f, j ← load_json W f;
                   if decide (json_title j = Some title) then Some j else None)
             files).

(** [file] parses to a JSON value that has "albumData" in it. *)
Definition is_album_meta (W : World) (file : Path) : bool :=
  match load_json W file with
  | Some dict => match contains "albumData" dict with inr true => true | _ => false end
  | None => false
  end.

(** ** What a step may change *)

(** From [st] to [st'], only [file]'s EXIF and modification time may have
    changed, a modification time that was set is still set, and the lists
    of [main] have only grown. *)
Definition touches_only (file : Path) (st st' : State) : Prop :=
  (∀ g, g ≠ file → exif_of st' !! g = exif_of st !! g
                   ∧ mtime_of st' !! g = mtime_of st !! g)
  ∧ (is_Some (mtime_of st !! file) → is_Some (mtime_of st' !! file))
  ∧ s_cant_insert_exif_files st `prefix_of` s_cant_insert_exif_files st'
  ∧ s_date_from_folder_files st `prefix_of` s_date_from_folder_files st'
  ∧ s_no_json_found st `prefix_of` s_no_json_found st'
  ∧ s_no_date_at_all st `prefix_of` s_no_date_at_all st'.

(** Every run of [m], whether it returns or raises, relates the state it
    starts from to the state it leaves by [R]. *)
Definition preserves {A} (R : State → State → Prop) (m : M A) : Prop :=
  ∀ st r st', m st = (r, st') → R st st'.

(** ** Dates already in EXIF form *)

(** [old in s] for a non-empty [old]. *)
Fixpoint occurs (old s : string) : bool :=
  match s with
  | EmptyString => false
  | String _ s' => String.prefix old s || occurs old s'
  end.



(** ** What the sidecar lookup may change *)

(** From [st] to [st'], only the title index may have changed. *)
Definition only_index_changed (st st' : State) : Prop :=
  exif_of st' = exif_of st
  ∧ mtime_of st' = mtime_of st
  ∧ s_cant_insert_exif_files st' = s_cant_insert_exif_files st
  ∧ s_date_from_folder_files st' = s_date_from_folder_files st
  ∧ s_no_json_found st' = s_no_json_found st
  ∧ s_no_date_at_all st' = s_no_date_at_all st.

(** ** Floats that are not large *)

(** Zero, or a finite float of absolute value below [2 ^ B]. *)
Definition float_below (B : Z) (y : float) : Prop :=
  match y with
  | S754_zero _ => True
  | S754_finite _ m e => (Z.pos (digits2_pos m) + e ≤ B)%Z
  | S754_infinity _ | S754_nan => False
  end.

(** [n] is the integer nearest to [q], the even one of the two when [q]
    is half-way between them. *)
Definition nearest_even (q : Q) (n : Z) : Prop :=
  (inject_Z n - (1 # 2) <= q <= inject_Z n + (1 # 2))%Q
  ∧ ((q == inject_Z n - (1 # 2) ∨ q == inject_Z n + (1 # 2))%Q → Z.even n = true).

(** ** The errors of a position *)

(** What reading a position from a sidecar and converting it may raise. *)
Definition position_error (e : exn) : Prop :=
  e ∈ [KeyError; TypeError; OverflowError; ValueError].

(** [a.jpg] has a sidecar whose altitude is infinite. *)
Definition high_world : World :=
  make_world (bare_entries ++ [(a_sidecar, IFile (Some high_geo))])
             (λ _ _, true) (λ _, true).

Set Warnings "-clear-no-such-hyp".
(** * Properties *)

(** ** ContentHasher *)

Section hasher_facts.
Context {digest : Type} (hash_algo : list byte → digest).

(** One read more than there are bytes left is enough fuel, and the
    chunks yielded are the content, cut. *)
Lemma chunk_reader_total (chunk_size fuel : nat) (f : fobj) :
  0 < chunk_size → length f < fuel →
  ∃ chunks, chunk_reader fuel f chunk_size = Some chunks ∧ concat chunks = f.
Proof.
  intros Hcs. revert f.
  induction fuel as [|fuel IH]; intros f Hlen; [lia|].
  cbn [chunk_reader read].
  destruct (take chunk_size f) as [|b chunk] eqn:Htake.
  - exists []. split; [done|].
    destruct f as [|b f]; [done|].
    destruct chunk_size; [lia | discriminate].
  - destruct (IH (drop chunk_size f)) as (cs & Hcs' & Hcat).
    { rewrite length_drop.
      assert (length f ≠ 0) by (destruct f; [by rewrite take_nil in Htake | done]).
      lia. }
    exists ((b :: chunk) :: cs). rewrite Hcs'. split; [done|].
    cbn [concat]. rewrite Hcat, <- Htake. apply take_drop.
Qed.

Lemma foldl_update (chunks : list (list byte)) (h : hashobj) :
  foldl update h chunks = h ++ concat chunks.
Proof.
  revert h. induction chunks as [|c chunks IH]; intros h; cbn.
  - by rewrite app_nil_r.
  - rewrite IH. unfold update. by rewrite <- app_assoc.
Qed.

Lemma chunks_of_concat (f : fobj) : concat (chunks_of f) = f.
Proof.
  unfold chunks_of.
  destruct (chunk_reader_total 1024 (S (length f)) f) as (cs & -> & Hcat);
    [lia | lia | done].
Qed.

(** The full hash is the digest of the whole content. *)
Lemma get_hash_full (fs : FS) (file : Path) :
  get_hash hash_algo fs file false = f ← open_rb fs file; inr (hash_algo f).
Proof.
  unfold get_hash. destruct (open_rb fs file) as [e|f]; [done|].
  unfold hash_digest. by rewrite foldl_update, chunks_of_concat.
Qed.

(** The partial hash is the digest of the first 1024 bytes. *)
Lemma get_hash_partial (fs : FS) (file : Path) :
  get_hash hash_algo fs file true
  = f ← open_rb fs file; inr (hash_algo (take 1024 f)).
Proof. unfold get_hash. by destruct (open_rb fs file). Qed.

(** C9: on a file of at most 1024 bytes the partial hash
    ([first_chunk_only=True]) is the full hash. *)
Theorem get_hash_small_file (f : file) (fs : FS) (file : Path) :
  fs_lookup fs file = Some (File f) →
  length (data f) ≤ 1024 →
  get_hash hash_algo fs file true = get_hash hash_algo fs file false.
Proof.
  intros Hf Hlen. rewrite get_hash_partial, get_hash_full.
  unfold open_rb. rewrite Hf. destruct (open_ok f); [|done]. cbn.
  by rewrite take_ge.
Qed.
End hasher_facts.

Lemma get_hash_small_file_witness :
  get_hash id_hash three_bytes a_jpg true = get_hash id_hash three_bytes a_jpg false.
Proof.
  apply (get_hash_small_file id_hash (mkFile true true [x01; x02; x03]%byte)
           three_bytes a_jpg).
  - reflexivity.
  - simpl. lia.
Defined.

(** ** Multimaps *)

Section multimap_facts.
Context {K V : Type} `{HK : EqDecision K}.
Implicit Types (m : multimap K V) (k : K) (v : V).

Lemma mm_get_append k k' v m :
  mm_get k' (mm_append k v m)
  = if decide (k' = k) then mm_get k m ++ [v] else mm_get k' m.
Proof.
  induction m as [|[k0 vs] m IH]; cbn.
  - repeat case_decide; congruence.
  - destruct (decide (k = k0)) as [->|Hne]; cbn.
    + repeat case_decide; congruence.
    + rewrite IH. repeat case_decide; congruence.
Qed.

Lemma elem_of_mm_get_append k k' v x m :
  x ∈ mm_get k' (mm_append k v m) ↔ x ∈ mm_get k' m ∨ (k' = k ∧ x = v).
Proof.
  rewrite mm_get_append. case_decide as Hk.
  - subst. rewrite elem_of_app, list_elem_of_singleton. naive_solver.
  - naive_solver.
Qed.

(** A non-empty group is an item of the multimap. *)
Lemma mm_get_item k x m : x ∈ mm_get k m → (k, mm_get k m) ∈ m.
Proof.
  induction m as [|[k0 vs] m IH]; cbn; [by intros ?%elem_of_nil|].
  case_decide as Hk.
  - subst. intros _. apply list_elem_of_here.
  - intros Hx. apply list_elem_of_further. auto.
Qed.

Lemma elem_of_group (key : V → option K) (l : list V) m k x :
  x ∈ mm_get k (foldl (group_step key) m l)
  ↔ x ∈ mm_get k m ∨ (x ∈ l ∧ key x = Some k).
Proof.
  revert m. induction l as [|v l IH]; intros m; cbn.
  - rewrite elem_of_nil. naive_solver.
  - rewrite IH. unfold group_step.
    destruct (key v) as [kv|] eqn:Hkv.
    + rewrite elem_of_mm_get_append, elem_of_cons. naive_solver.
    + rewrite elem_of_cons. naive_solver.
Qed.
End multimap_facts.

Lemma two_elements {A} (l : list A) (x y : A) :
  x ∈ l → y ∈ l → x ≠ y → 2 ≤ length l.
Proof.
  destruct l as [|a [|b l]]; cbn; [by intros ?%elem_of_nil | | lia].
  intros ->%list_elem_of_singleton ->%list_elem_of_singleton. done.
Qed.

(** ** DuplicateIndex *)

Section duplicates_facts.
Context {digest : Type} `{Hdigest : EqDecision digest} (hash_algo : list byte → digest).
Implicit Types (fs : FS) (p path : Path).

Lemma elem_of_foldl_group {K V} `{HK : EqDecision K}
    (step : multimap K V → V → multimap K V) (key : V → option K) :
  (∀ acc v, step acc v = group_step key acc v) →
  ∀ l m k x,
    x ∈ mm_get k (foldl step m l) ↔ x ∈ mm_get k m ∨ (x ∈ l ∧ key x = Some k).
Proof.
  intros Hstep l m k x. rewrite <- elem_of_group. f_equiv. f_equal.
  revert m. induction l as [|v l IH]; intros m; cbn; [done|].
  by rewrite Hstep, IH.
Qed.

Lemma elem_of_size_tier fs filter_function l m sz p :
  p ∈ mm_get sz (foldl (size_step fs filter_function) m l)
  ↔ p ∈ mm_get sz m ∨ (p ∈ l ∧ size_key fs filter_function p = Some sz).
Proof.
  apply elem_of_foldl_group. intros acc v.
  unfold size_step, group_step, size_key.
  destruct (is_file fs v && filter_function v); [|done].
  by destruct (stat_size fs v).
Qed.

Lemma elem_of_small_hash_tier fs items m sz h p :
  p ∈ mm_get (sz, h) (foldl (small_hash_step hash_algo fs) m items)
  ↔ p ∈ mm_get (sz, h) m
    ∨ ∃ files, (sz, files) ∈ items ∧ 2 ≤ length files ∧ p ∈ files
               ∧ hash_key hash_algo fs true p = Some h.
Proof.
  revert m. induction items as [|[sz0 files0] items IH]; intros m; cbn [foldl].
  - split; [auto|]. intros [?|(? & []%elem_of_nil & _)]; done.
  - rewrite IH. unfold small_hash_step.
    destruct (Nat.ltb_spec (length files0) 2) as [Hlt|Hge].
    + split.
      * intros [?|(files & ? & ?)]; [by left|].
        right. exists files. by rewrite elem_of_cons; auto.
      * intros [?|(files & [Heq|?]%elem_of_cons & Hlen & ?)]; [by left| |].
        -- inversion Heq; subst. lia.
        -- right. by exists files.
    + rewrite (elem_of_foldl_group _
                 (λ v, (λ h, (sz0, h)) <$> hash_key hash_algo fs true v)).
      2:{ intros acc v. unfold group_step, hash_key.
          by destruct (get_hash hash_algo fs v true). }
      split.
      * intros [[?|[Hp Hk]]|(files & ? & ?)]; [by left| |].
        -- right. exists files0. apply fmap_Some in Hk as (h' & Hh & Heq).
           inversion Heq; subst. rewrite Hh. split; [apply list_elem_of_here|done].
        -- right. exists files. by rewrite elem_of_cons; auto.
      * intros [?|(files & [Heq|?]%elem_of_cons & Hlen & Hp & Hk)]; [by auto| |].
        -- inversion Heq; subst. left. right. split; [done|]. by rewrite Hk.
        -- right. by exists files.
Qed.

Lemma elem_of_full_hash_tier fs groups m h p :
  p ∈ mm_get h (foldl (full_hash_step hash_algo fs) m groups)
  ↔ p ∈ mm_get h m
    ∨ ∃ files, files ∈ groups ∧ 2 ≤ length files ∧ p ∈ files
               ∧ hash_key hash_algo fs false p = Some h.
Proof.
  revert m. induction groups as [|files0 groups IH]; intros m; cbn [foldl].
  - split; [auto|]. intros [?|(? & []%elem_of_nil & _)]; done.
  - rewrite IH. unfold full_hash_step.
    destruct (Nat.ltb_spec (length files0) 2) as [Hlt|Hge].
    + split.
      * intros [?|(files & ? & ?)]; [by left|].
        right. exists files. by rewrite elem_of_cons; auto.
      * intros [?|(files & [->|?]%elem_of_cons & Hlen & ?)]; [by left|lia|].
        right. by exists files.
    + rewrite (elem_of_foldl_group _ (hash_key hash_algo fs false)).
      2:{ intros acc v. unfold group_step, hash_key.
          by destruct (get_hash hash_algo fs v false). }
      split.
      * intros [[?|[Hp Hk]]|(files & ? & ?)]; [by left| |].
        -- right. exists files0. split; [apply list_elem_of_here|done].
        -- right. exists files. by rewrite elem_of_cons; auto.
      * intros [?|(files & [->|?]%elem_of_cons & Hlen & Hp & Hk)]; [by auto| |].
        -- left. by right.
        -- right. by exists files.
Qed.
End duplicates_facts.

Section find_duplicates_facts.
Context {digest : Type} `{Hdigest : EqDecision digest} (hash_algo : list byte → digest).
Implicit Types (fs : FS) (p path : Path).

Lemma indexed_size_key fs path filter_function p f :
  indexed fs path filter_function p f →
  size_key fs filter_function p = Some (length (data f)).
Proof.
  intros (_ & Hf & Hfilt & Hstat & _).
  unfold size_key, is_file, stat_size. by rewrite Hf, Hfilt, Hstat.
Qed.

Lemma indexed_hash_key fs path filter_function p f (first_chunk_only : bool) :
  indexed fs path filter_function p f →
  hash_key hash_algo fs first_chunk_only p
  = Some (hash_algo (if first_chunk_only then take 1024 (data f) else data f)).
Proof.
  intros (_ & Hf & _ & _ & Hopen). unfold hash_key.
  destruct first_chunk_only;
    [rewrite get_hash_partial | rewrite get_hash_full];
    unfold open_rb; by rewrite Hf, Hopen.
Qed.

(** Whatever sits under a key of the final multimap has that key as its
    full hash. *)
Lemma find_duplicates_member fs path filter_function h p :
  p ∈ mm_get h (find_duplicates hash_algo fs path filter_function []) →
  get_hash hash_algo fs p false = inr h.
Proof.
  unfold find_duplicates. rewrite elem_of_full_hash_tier.
  intros [[]%elem_of_nil|(files & _ & _ & _ & Hk)].
  unfold hash_key in Hk.
  destruct (get_hash hash_algo fs p false); by simplify_eq.
Qed.

(** Two indexed files with the same content meet under one key. *)
Lemma find_duplicates_same_content fs path filter_function a b fa fb :
  indexed fs path filter_function a fa →
  indexed fs path filter_function b fb →
  a ≠ b → data fa = data fb →
  same_group (find_duplicates hash_algo fs path filter_function []) a b.
Proof.
  intros Ha Hb Hne Hdata.
  set (by_size := foldl (size_step fs filter_function) [] (rglob fs path)).
  set (by_small := foldl (small_hash_step hash_algo fs) [] (mm_items by_size)).
  set (sz := length (data fa)).
  set (small := hash_algo (take 1024 (data fa))).
  assert (Hsize : ∀ c fc, indexed fs path filter_function c fc →
                          data fc = data fa → c ∈ mm_get sz by_size).
  { intros c fc Hc Hd. apply elem_of_size_tier. right. split; [apply Hc|].
    rewrite (indexed_size_key _ _ _ _ _ Hc). by rewrite Hd. }
  assert (Hsmall : ∀ c fc, indexed fs path filter_function c fc →
                           data fc = data fa → c ∈ mm_get (sz, small) by_small).
  { intros c fc Hc Hd. apply elem_of_small_hash_tier. right.
    exists (mm_get sz by_size). split; [|split; [|split]].
    - apply (mm_get_item sz a). by apply (Hsize a fa).
    - apply (two_elements _ a b); [by apply (Hsize a fa) | by apply (Hsize b fb) | done].
    - by apply (Hsize c fc).
    - rewrite (indexed_hash_key _ _ _ _ _ true Hc). by rewrite Hd. }
  exists (hash_algo (data fa)).
  assert (Hfull : ∀ c fc, indexed fs path filter_function c fc →
                          data fc = data fa →
                          c ∈ mm_get (hash_algo (data fa))
                                (find_duplicates hash_algo fs path filter_function [])).
  { intros c fc Hc Hd. apply elem_of_full_hash_tier. right.
    exists (mm_get (sz, small) by_small). split; [|split; [|split]].
    - apply (list_elem_of_fmap_2 snd _ ((sz, small), mm_get (sz, small) by_small)).
      apply (mm_get_item _ a). by apply (Hsmall a fa).
    - apply (two_elements _ a b); [by apply (Hsmall a fa) | by apply (Hsmall b fb) | done].
    - by apply (Hsmall c fc).
    - rewrite (indexed_hash_key _ _ _ _ _ false Hc). by rewrite Hd. }
  split; [by apply (Hfull a fa) | by apply (Hfull b fb)].
Qed.

(** C2: after a build of the index from the empty multimap, two indexed
    files with identical content are in one duplicate group; two whose
    contents differ (and whose full hashes do not collide) are in no common
    group, whatever their sizes and first 1024 bytes; and a file is filed
    under a key only if that key is its full-content hash. *)
Theorem find_duplicates_exact fs path filter_function a b fa fb :
  indexed fs path filter_function a fa →
  indexed fs path filter_function b fb →
  a ≠ b →
  (hash_algo (data fa) = hash_algo (data fb) → data fa = data fb) →
  let idx := find_duplicates hash_algo fs path filter_function [] in
  (data fa = data fb → same_group idx a b)
  ∧ (data fa ≠ data fb → ¬ same_group idx a b)
  ∧ (∀ h p, p ∈ mm_get h idx → get_hash hash_algo fs p false = inr h).
Proof.
  intros Ha Hb Hne Hcoll idx. split; [|split].
  - by apply find_duplicates_same_content.
  - intros Hdiff (h & Hah & Hbh). apply Hdiff, Hcoll.
    apply find_duplicates_member in Hah, Hbh.
    pose proof (indexed_hash_key _ _ _ _ _ false Ha) as Hka.
    pose proof (indexed_hash_key _ _ _ _ _ false Hb) as Hkb.
    unfold hash_key in Hka, Hkb. rewrite Hah in Hka. rewrite Hbh in Hkb.
    by simplify_eq.
  - intros h p. apply find_duplicates_member.
Qed.
End find_duplicates_facts.

Lemma indexed_near_collision (p : Path) (content : list byte) :
  (p, plain_file content) ∈ tail near_collision_tree →
  indexed near_collision_tree out_dir any_file p (mkFile true true content).
Proof.
  intros Hp. unfold near_collision_tree in Hp. cbn [tail] in Hp.
  repeat (apply elem_of_cons in Hp as [Hp|Hp]; [injection Hp as -> ->|]);
    try (by apply elem_of_nil in Hp);
    (split; [apply (bool_decide_unpack _); vm_compute; exact I|]);
    (split; [vm_compute; reflexivity|]); done.
Qed.

Lemma find_duplicates_exact_witness :
  let idx := find_duplicates id_hash near_collision_tree out_dir any_file [] in
  (block_a = block_c → same_group idx a_jpg c_jpg)
  ∧ (block_a ≠ block_c → ¬ same_group idx a_jpg c_jpg)
  ∧ (∀ h p, p ∈ mm_get h idx →
            get_hash id_hash near_collision_tree p false = inr h).
Proof.
  apply (find_duplicates_exact id_hash near_collision_tree out_dir any_file
           a_jpg c_jpg (mkFile true true block_a) (mkFile true true block_c)).
  - apply indexed_near_collision. apply list_elem_of_here.
  - apply indexed_near_collision.
    do 2 apply list_elem_of_further. apply list_elem_of_here.
  - discriminate.
  - intros H. exact H.
Defined.

(** The crafted near-collision, run: equal sizes and equal first 1024
    bytes, so all three files reach the full hash, and the file that
    differs in its last byte gets a key of its own. *)
Example near_collision_index :
  find_duplicates id_hash near_collision_tree out_dir any_file []
  = [(block_a, [a_jpg; b_jpg]); (block_c, [c_jpg])].
Proof. vm_compute. reflexivity. Qed.

(** ** CollisionSafeNamer *)

Lemma string_length_app (s t : string) :
  String.length (s +:+ t) = String.length s + String.length t.
Proof. induction s as [|c s IH]; simpl; [done | f_equal; exact IH]. Qed.

Lemma string_app_inv_tail (s1 s2 t : string) : s1 +:+ t = s2 +:+ t → s1 = s2.
Proof.
  revert s2. induction s1 as [|c s1 IH]; intros [|d s2] Heq; [done| | |].
  - apply (f_equal String.length) in Heq.
    rewrite !string_length_app in Heq. simpl in Heq. lia.
  - apply (f_equal String.length) in Heq.
    rewrite !string_length_app in Heq. simpl in Heq. lia.
  - change (String c (s1 +:+ t) = String d (s2 +:+ t)) in Heq.
    injection Heq as -> Heq. f_equal. by apply IH.
Qed.

Lemma numbered_name_inj (file : Path) : Inj (=) (=) (numbered_name file).
Proof.
  intros i j Heq. unfold numbered_name in Heq.
  apply (inj (String.app _)) in Heq.
  apply (inj (String.app "(")) in Heq.
  apply string_app_inv_tail in Heq.
  by apply (inj pretty) in Heq.
Qed.

Lemma candidate_inj (file : Path) : Inj (=) (=) (candidate file).
Proof.
  intros i j Heq. unfold candidate, with_name in Heq.
  apply app_inj_tail in Heq as [_ Heq]. by apply numbered_name_inj in Heq.
Qed.

Lemma is_file_elem_of (fs : FS) (p : Path) : is_file fs p = true → p ∈ fs.*1.
Proof.
  unfold is_file. induction fs as [|[q n] fs IH]; cbn; [done|].
  case_decide as Hq; [subst; intros _; apply list_elem_of_here|].
  intros ?. apply list_elem_of_further. auto.
Qed.

(** Running out of fuel means every probed name was taken. *)
Lemma new_name_loop_None (fs : FS) (file : Path) (fuel : nat) :
  ∀ new_name i rename_map,
    new_name_loop fuel fs file new_name i rename_map = None →
    ∀ j, i ≤ j < i + fuel - 1 → is_file fs (candidate file j) = true.
Proof.
  induction fuel as [|fuel IH]; intros new_name i rename_map Hloop j Hj; [lia|].
  cbn in Hloop. destruct (is_file fs new_name) eqn:Hnew; [|done]. cbn in Hloop.
  destruct fuel as [|fuel]; [lia|].
  destruct (decide (j = i)) as [->|Hne].
  - cbn in Hloop. fold (candidate file i) in Hloop.
    by destruct (is_file fs (candidate file i)).
  - apply (IH _ _ _ Hloop). lia.
Qed.

Lemma new_name_loop_total (fs : FS) (file new_name : Path) (i : nat)
    (rename_map : gmap string Path) :
  is_Some (new_name_loop (2 + length fs) fs file new_name i rename_map).
Proof.
  destruct (new_name_loop _ _ _ _ _ _) as [r|] eqn:Hloop; [by eexists|].
  exfalso.
  pose proof (new_name_loop_None _ _ _ _ _ _ Hloop) as Htaken.
  set (cands := candidate file <$> seq i (S (length fs))).
  assert (Hnodup : NoDup cands).
  { pose proof (candidate_inj file) as Hinj. apply (NoDup_fmap_2 _), NoDup_seq. }
  assert (Hsub : cands ⊆ fs.*1).
  { intros p (j & -> & Hj%elem_of_seq)%list_elem_of_fmap.
    apply is_file_elem_of, Htaken. lia. }
  apply NoDup_submseteq in Hsub; [|done].
  apply submseteq_length in Hsub.
  unfold cands in Hsub. rewrite !length_fmap, length_seq in Hsub. lia.
Qed.

(** What a finished loop returns. *)
Lemma new_name_loop_Some (fs : FS) (file : Path) (fuel : nat) :
  ∀ new_name i rename_map p rename_map',
    new_name_loop fuel fs file new_name i rename_map = Some (p, rename_map') →
    is_file fs p = false
    ∧ (p = new_name ∧ rename_map' = rename_map
       ∨ is_file fs new_name = true
         ∧ (∃ j, i ≤ j ∧ p = candidate file j)
         ∧ rename_map' = <[str file := p]> rename_map).
Proof.
  induction fuel as [|fuel IH]; intros new_name i rename_map p rename_map' Hloop;
    [done|].
  cbn in Hloop. destruct (is_file fs new_name) eqn:Hnew; cbn in Hloop.
  - fold (candidate file i) in Hloop.
    apply IH in Hloop as (Hp & [[-> ->]|(_ & (j & Hj & ->) & ->)]).
    + split; [done|]. right. split; [done|]. split; [|done]. exists i. done.
    + split; [done|]. right. split; [done|]. split.
      * exists j. split; [lia|done].
      * by rewrite insert_insert_eq.
  - simplify_eq. split; [done|]. by left.
Qed.

(** C4 (amended): a call of [new_name_if_exists] returns a path no file
    has; it leaves every key of the rename map other than the proposed path
    as it was; and when the proposed path is taken, the entry of the
    proposed path maps it, once the call returns, to the path the call
    returns (whatever the entry was before). *)
Theorem new_name_if_exists_records (fs : FS) (file : Path)
    (rename_map : gmap string Path) :
  ∃ p rename_map',
    new_name_if_exists (2 + length fs) fs file rename_map = Some (p, rename_map')
    ∧ is_file fs p = false
    ∧ (∀ key, key ≠ str file → rename_map' !! key = rename_map !! key)
    ∧ (if is_file fs file
       then (∃ i, 1 ≤ i ∧ p = candidate file i) ∧ rename_map' !! str file = Some p
       else p = file ∧ rename_map' = rename_map).
Proof.
  unfold new_name_if_exists.
  destruct (new_name_loop_total fs file file 1 rename_map) as [[p rename_map'] Hloop].
  exists p, rename_map'. split; [done|].
  apply new_name_loop_Some in Hloop as (Hp & [[-> ->]|(Hfile & Hcand & ->)]).
  - split; [done|]. split; [done|]. by rewrite Hp.
  - split; [done|]. split.
    + intros key Hkey. by rewrite lookup_insert_ne.
    + rewrite Hfile. split; [done|]. by rewrite lookup_insert_eq.
Qed.

(** C4, as stated, fails: the second copy of [a.jpg] records
    [a.jpg -> a(1).jpg]; the third overwrites that entry with
    [a.jpg -> a(2).jpg]. *)
Lemma rename_map_entry_overwritten :
  ∃ rename_map1 rename_map2,
    new_name_if_exists 3 one_copy a_jpg ∅ = Some (a1_jpg, rename_map1)
    ∧ rename_map1 !! str a_jpg = Some a1_jpg
    ∧ new_name_if_exists 4 two_copies a_jpg rename_map1 = Some (a2_jpg, rename_map2)
    ∧ rename_map2 !! str a_jpg = Some a2_jpg
    ∧ a1_jpg ≠ a2_jpg.
Proof.
  exists {[ str a_jpg := a1_jpg ]}, {[ str a_jpg := a2_jpg ]}.
  repeat split; try (vm_compute; reflexivity). discriminate.
Qed.

(** ** Duplicate removal *)

Lemma fs_lookup_unlinked (fs : FS) (x p : Path) :
  fs_lookup (filter (λ e, e.1 ≠ x) fs) p
  = if decide (p = x) then None else fs_lookup fs p.
Proof.
  induction fs as [|[q n] fs IH]; [cbn; by case_decide|].
  rewrite filter_cons. destruct (decide ((q, n).1 ≠ x)) as [Hq|Hq];
    cbn [fs_lookup fst] in *; rewrite IH.
  - repeat case_decide; congruence.
  - apply dec_stable in Hq. subst q. repeat case_decide; congruence.
Qed.

Lemma unlink_file (can_unlink : Path → bool) (fs : FS) (x : Path) :
  is_file fs x = true →
  can_unlink x = true →
  ∃ fs', unlink can_unlink fs x = inr fs'
         ∧ ∀ p, fs_lookup fs' p = if decide (p = x) then None else fs_lookup fs p.
Proof.
  unfold is_file, unlink. destruct (fs_lookup fs x) as [[|f]|]; try done.
  intros _ ->. eexists. split; [done|]. apply fs_lookup_unlinked.
Qed.

Lemma list_remove_middle (x : Path) (kept rest : list Path) :
  x ∉ kept → list_remove x (kept ++ x :: rest) = inr (kept ++ rest).
Proof.
  induction kept as [|k kept IH]; cbn; intros Hx.
  - by rewrite decide_True.
  - apply not_elem_of_cons in Hx as [Hne Hx].
    rewrite decide_False by done. by rewrite IH.
Qed.

Lemma length_odds_cons {A} (l : list A) :
  length (odds l) = length l / 2
  ∧ ∀ x, length (odds (x :: l)) = S (length l) / 2.
Proof.
  induction l as [|y l [IH1 IH2]]; [done|]. split; [apply IH2|].
  intros x. cbn [odds length]. rewrite IH1.
  change (S (S (length l))) with (1 * 2 + length l).
  by rewrite Nat.div_add_l.
Qed.

Lemma length_odds {A} (l : list A) : length (odds l) = length l / 2.
Proof. apply length_odds_cons. Qed.

(** The loop of [remove_duplicates] on one group.  With [i] the iterator's
    index, the list is [kept ++ rest] where [kept] has [i] elements: the
    body deletes the head of [rest] and removes it from the list, and the
    iterator then steps over the next one.  So the loop deletes every other
    file, and stops when the index passes the end of the shrunken list. *)
Lemma remove_loop_spec (can_unlink : Path → bool) (fuel : nat) :
  ∀ (rest kept : list Path) (fs : FS),
    NoDup (kept ++ rest) →
    (∀ p, p ∈ rest → is_file fs p = true) →
    (∀ p, p ∈ evens rest → can_unlink p = true) →
    (kept = [] → length rest ≠ 1) →
    length rest ≤ fuel →
    ∃ fs', remove_loop can_unlink fuel (length kept) (kept ++ rest) fs
           = Some (inr (), (kept ++ odds rest, fs'))
           ∧ ∀ p, fs_lookup fs' p
                  = if decide (p ∈ evens rest) then None else fs_lookup fs p.
Proof.
  induction fuel as [|fuel IH];
    intros rest kept fs Hnodup Hfiles Hcan Hone Hfuel.
  - destruct rest; [|cbn in Hfuel; lia]. exists fs. cbn [remove_loop odds].
    rewrite app_nil_r, lookup_ge_None_2 by lia. split; [done|].
    intros p. cbn. by rewrite decide_False by apply not_elem_of_nil.
  - destruct rest as [|x rest].
    { exists fs. cbn [remove_loop odds].
      rewrite app_nil_r, lookup_ge_None_2 by lia. split; [done|].
      intros p. cbn. by rewrite decide_False by apply not_elem_of_nil. }
    cbn [remove_loop].
    rewrite (list_lookup_middle kept rest x (length kept)) by done.
    assert (Hlen : (1 <? length (kept ++ x :: rest)) = true).
    { apply Nat.ltb_lt. rewrite length_app. cbn.
      destruct kept; [|cbn; lia]. specialize (Hone eq_refl). cbn in Hone. lia. }
    rewrite Hlen.
    destruct (unlink_file can_unlink fs x) as (fs1 & -> & Hfs1);
      [apply Hfiles, list_elem_of_here
      |apply Hcan; destruct rest; apply list_elem_of_here|].
    apply NoDup_app in Hnodup as (Hkept & Hdisj & Hrest).
    apply NoDup_cons in Hrest as [Hx Hrest].
    rewrite list_remove_middle
      by (intros Hin; apply (Hdisj x Hin), list_elem_of_here).
    destruct rest as [|y rest].
    + exists fs1. destruct fuel; cbn [remove_loop odds];
        rewrite app_nil_r, lookup_ge_None_2 by lia.
      * split; [done|]. intros p. rewrite Hfs1. cbn [evens].
        repeat case_decide; try done; set_solver.
      * split; [done|]. intros p. rewrite Hfs1. cbn [evens].
        repeat case_decide; try done; set_solver.
    + apply NoDup_cons in Hrest as [Hy Hrest].
      destruct (IH rest (kept ++ [y]) fs1) as (fs' & Hloop & Hfs').
      * rewrite <- app_assoc. cbn. apply NoDup_app. split; [done|]. split.
        -- intros p Hp Hin. apply (Hdisj p Hp). by apply list_elem_of_further.
        -- by apply NoDup_cons.
      * intros p Hp. unfold is_file. rewrite Hfs1.
        rewrite decide_False.
        -- apply Hfiles. by do 2 apply list_elem_of_further.
        -- intros ->. apply Hx. by apply list_elem_of_further.
      * intros p Hp. apply Hcan. cbn [evens]. by apply list_elem_of_further.
      * by intros ?%app_nil_r_inv.
      * cbn in Hfuel. lia.
      * exists fs'. rewrite length_app, Nat.add_1_r in Hloop.
        rewrite <- !app_assoc in Hloop. cbn in Hloop. split; [done|].
        intros p. rewrite Hfs', Hfs1. cbn [evens].
        repeat case_decide; try done; set_solver.
Qed.

Lemma list_pair_ind {A} (P : list A → Prop) :
  P [] → (∀ x, P [x]) → (∀ x y l, P l → P (x :: y :: l)) → ∀ l, P l.
Proof.
  intros Hnil Hone Hstep l.
  enough (P l ∧ ∀ x, P (x :: l)) by tauto.
  induction l as [|y l [IH1 IH2]]; [by split|]. split; [apply IH2|].
  intros x. by apply Hstep.
Qed.

Lemma evens_odds_perm {A} (l : list A) : evens l ++ odds l ≡ₚ l.
Proof.
  induction l as [| |x y l IH] using list_pair_ind; [done..|].
  cbn [evens odds app]. f_equiv. rewrite <- Permutation_middle. by f_equiv.
Qed.

Lemma filter_odds {A} (P : A → Prop) `{∀ x, Decision (P x)} (l : list A) :
  (∀ x, x ∈ evens l → ¬ P x) → (∀ x, x ∈ odds l → P x) → filter P l = odds l.
Proof.
  induction l as [|x|x y l IH] using list_pair_ind; intros Hev Hodd.
  - done.
  - cbn. rewrite decide_False; [done|]. apply Hev, list_elem_of_here.
  - cbn [evens odds] in *. rewrite !filter_cons.
    rewrite decide_False by apply Hev, list_elem_of_here.
    rewrite decide_True by apply Hodd, list_elem_of_here.
    f_equal. apply IH.
    + intros p Hp. by apply Hev, list_elem_of_further.
    + intros p Hp. by apply Hodd, list_elem_of_further.
Qed.

(** What the loop leaves of a group of distinct files: every other one.
    Of [n >= 2] files, [n / 2] survive: one only when [n] is 2 or 3. *)
Lemma remove_loop_survivors (can_unlink : Path → bool) (fs : FS)
    (files : list Path) :
  NoDup files →
  (∀ p, p ∈ files → is_file fs p = true) →
  (∀ p, p ∈ evens files → can_unlink p = true) →
  2 ≤ length files →
  ∃ fs', remove_loop can_unlink (length files) 0 files fs
         = Some (inr (), (odds files, fs'))
         ∧ survivors fs' files = odds files
         ∧ length (survivors fs' files) = length files / 2.
Proof.
  intros Hnodup Hfiles Hcan Hlen.
  destruct (remove_loop_spec can_unlink (length files) files [] fs)
    as (fs' & Hloop & Hfs'); [done | done | done | lia | done |].
  exists fs'. split; [done|].
  assert (Hsurv : survivors fs' files = odds files).
  { apply filter_odds.
    - intros p Hp. unfold is_file. rewrite Hfs'. by rewrite decide_True.
    - intros p Hp.
      assert (Hperm := evens_odds_perm files).
      rewrite <- Hperm in Hnodup. apply NoDup_app in Hnodup as (_ & Hdisj & _).
      unfold is_file. rewrite Hfs', decide_False by (intros Hin; by apply (Hdisj p)).
      apply Hfiles. rewrite <- Hperm. apply elem_of_app. by right. }
  split; [done|]. rewrite Hsurv. apply length_odds.
Qed.

(** C1: four copies of one content end up in one duplicate group, and
    [remove_duplicates] leaves two of them on disk (and counts three
    removals). *)
Theorem remove_duplicates_four_copies :
  find_duplicates id_hash four_copies out_dir any_file []
  = [([x01], [a_jpg; b_jpg; c_jpg; d_jpg])]
  ∧ ∃ st,
      remove_duplicates id_hash deletable any_file out_dir (mkDedup four_copies [] 0)
      = Some (inr true, st)
      ∧ survivors (tree st) [a_jpg; b_jpg; c_jpg; d_jpg] = [b_jpg; d_jpg]
      ∧ files_by_full_hash st = [([x01], [b_jpg; d_jpg])]
      ∧ s_removed_duplicates_count st = 3.
Proof.
  split; [vm_compute; reflexivity|].
  eexists. split; [vm_compute; reflexivity|].
  repeat split; vm_compute; reflexivity.
Qed.
(** ** Floats *)

Lemma digits2_size (p : positive) : digits2_pos p = Pos.size p.
Proof. induction p; cbn; congruence. Qed.

(** [Zdigits2 m] is the number of bits of [m]. *)
Lemma Zdigits2_lt (m d : Z) :
  (0 ≤ m)%Z → (0 ≤ d)%Z → (Zdigits2 m ≤ d)%Z ↔ (m < 2 ^ d)%Z.
Proof.
  intros Hm Hd. destruct m as [|p|p]; [|clear Hm|lia].
  - cbn. split; [intros _; by apply Z.pow_pos_nonneg | lia].
  - cbn [Zdigits2]. rewrite digits2_size.
    split.
    + intros Hle. apply Z.lt_le_trans with (2 ^ Z.pos (Pos.size p))%Z.
      * assert (Z.pos p < Z.pos (2 ^ Pos.size p))%Z as H by exact (Pos.size_gt p).
        by rewrite Pos2Z.inj_pow in H.
      * apply Z.pow_le_mono_r; lia.
    + intros Hlt. destruct (Z.le_gt_cases (Z.pos (Pos.size p)) d) as [|Hgt]; [done|].
      exfalso.
      assert (Z.pos (2 ^ Pos.size p) ≤ Z.pos p~0)%Z as H by exact (Pos.size_le p).
      rewrite Pos2Z.inj_pow in H. change (Z.pos p~0) with (2 * Z.pos p)%Z in H.
      assert (2 ^ Z.pos (Pos.size p) = 2 * 2 ^ (Z.pos (Pos.size p) - 1))%Z as Heq.
      { rewrite <- Z.pow_succ_r by lia. f_equal. lia. }
      assert (2 ^ d ≤ 2 ^ (Z.pos (Pos.size p) - 1))%Z
        by (apply Z.pow_le_mono_r; lia).
      lia.
Qed.

Lemma Zdigits2_nonneg (m : Z) : (0 ≤ Zdigits2 m)%Z.
Proof. destruct m; cbn; lia. Qed.

(** Shifting right [n] times divides the mantissa by [2 ^ n]. *)
Lemma shr_1_m (mrs : shr_record) :
  (0 ≤ shr_m mrs)%Z → shr_m (shr_1 mrs) = (shr_m mrs / 2)%Z.
Proof.
  destruct mrs as [m r s]. cbn [shr_m]. intros Hm.
  destruct m as [|[p|p|]|]; cbn [shr_1 shr_m]; [done| | |done|lia].
  - change (Z.pos p~1) with (2 * Z.pos p + 1)%Z.
    apply Z.div_unique with 1%Z; lia.
  - change (Z.pos p~0) with (2 * Z.pos p)%Z.
    apply Z.div_unique with 0%Z; lia.
Qed.

Lemma iter_shr_m (p : positive) :
  ∀ mrs, (0 ≤ shr_m mrs)%Z →
         shr_m (SpecFloat.iter_pos shr_1 p mrs) = (shr_m mrs / 2 ^ Z.pos p)%Z.
Proof.
  assert (Hdiv : ∀ a, (0 ≤ a)%Z → (0 ≤ a / 2)%Z) by (intros; by apply Z.div_pos).
  assert (Hpow : ∀ a q, (0 ≤ a)%Z → (0 ≤ a / 2 ^ Z.pos q)%Z)
    by (intros; apply Z.div_pos; [done|by apply Z.pow_pos_nonneg]).
  induction p as [p IH|p IH|]; intros mrs Hm; cbn [SpecFloat.iter_pos].
  - assert (0 ≤ shr_m (shr_1 mrs))%Z by (rewrite shr_1_m; auto).
    assert (0 ≤ shr_m (SpecFloat.iter_pos shr_1 p (shr_1 mrs)))%Z
      by (rewrite IH; auto).
    rewrite IH by done. rewrite IH by done. rewrite shr_1_m by done.
    rewrite !Z.div_div by (try apply Z.pow_pos_nonneg; lia).
    f_equal. replace (Z.pos p~1) with (1 + Z.pos p + Z.pos p)%Z by lia.
    rewrite !Z.pow_add_r by lia. lia.
  - assert (0 ≤ shr_m (SpecFloat.iter_pos shr_1 p mrs))%Z by (rewrite IH; auto).
    rewrite IH by done. rewrite IH by done.
    rewrite !Z.div_div by (try apply Z.pow_pos_nonneg; lia).
    f_equal. replace (Z.pos p~0) with (Z.pos p + Z.pos p)%Z by lia.
    rewrite !Z.pow_add_r by lia. lia.
  - rewrite shr_1_m by done. done.
Qed.

Lemma Zdigits2_div (m k : Z) :
  (0 ≤ m)%Z → (0 ≤ k)%Z → (Zdigits2 (m / 2 ^ k) + k ≤ Z.max (Zdigits2 m) k)%Z.
Proof.
  intros Hm Hk.
  assert (0 < 2 ^ k)%Z by (by apply Z.pow_pos_nonneg).
  assert (0 ≤ m / 2 ^ k)%Z by (by apply Z.div_pos).
  pose proof (Zdigits2_nonneg m).
  enough (Zdigits2 (m / 2 ^ k) ≤ Z.max (Zdigits2 m) k - k)%Z by lia.
  apply Zdigits2_lt; [done|lia|].
  destruct (Z.le_gt_cases (Zdigits2 m) k) as [Hle|Hgt].
  - rewrite Z.max_r, Z.sub_diag by done. cbn.
    enough (m / 2 ^ k = 0)%Z by lia. apply Z.div_small. split; [done|].
    apply Z.lt_le_trans with (2 ^ Zdigits2 m)%Z;
      [by apply Zdigits2_lt | by apply Z.pow_le_mono_r].
  - rewrite Z.max_l by lia. apply Z.div_lt_upper_bound; [done|].
    rewrite <- Z.pow_add_r by lia.
    replace (k + (Zdigits2 m - k))%Z with (Zdigits2 m) by lia.
    by apply Zdigits2_lt.
Qed.

Lemma Zdigits2_succ (m m1 : Z) :
  (0 ≤ m)%Z → (0 ≤ m1 ≤ m + 1)%Z → (Zdigits2 m1 ≤ Zdigits2 m + 1)%Z.
Proof.
  intros Hm Hm1. pose proof (Zdigits2_nonneg m).
  apply Zdigits2_lt; [lia..|].
  assert (m < 2 ^ Zdigits2 m)%Z by (by apply Zdigits2_lt).
  rewrite Z.pow_add_r by lia. cbn. lia.
Qed.

Lemma round_nearest_even_range (m : Z) (l : location) :
  (m ≤ round_nearest_even m l ≤ m + 1)%Z.
Proof.
  destruct l as [|[]]; cbn; try lia. destruct (Z.even m); lia.
Qed.

(** [shr_fexp]: the mantissa is shifted to the exponent its length asks
    for, if that is above the exponent it has. *)
Lemma shr_fexp_spec (m e : Z) (l : location) :
  (0 ≤ m)%Z →
  ∃ mrs e', shr_fexp prec emax m e l = (mrs, e')
            ∧ e' = Z.max e (fexp prec emax (Zdigits2 m + e))
            ∧ shr_m mrs = (m / 2 ^ (e' - e))%Z
            ∧ (e' = e → mrs = shr_record_of_loc m l).
Proof.
  intros Hm. unfold shr_fexp, shr.
  assert (Hm' : shr_m (shr_record_of_loc m l) = m) by (by destruct l as [|[]]).
  destruct (fexp prec emax (Zdigits2 m + e) - e)%Z as [|k|k] eqn:Hn.
  - eexists _, _. split; [done|]. split; [lia|].
    split; [|done]. rewrite Z.sub_diag, Hm'. cbn. by rewrite Z.div_1_r.
  - eexists _, _. split; [done|]. split; [lia|]. split; [|lia].
    rewrite iter_shr_m by lia. rewrite Hm'. f_equal. f_equal. lia.
  - eexists _, _. split; [done|]. split; [lia|].
    split; [|done]. rewrite Z.sub_diag, Hm'. cbn. by rewrite Z.div_1_r.
Qed.

(** Rounding a positive mantissa of a number below [2 ^ B], far from the
    largest double, gives zero or a finite float below [2 ^ (B + 1)] of
    the sign asked for. *)
Lemma binary_round_aux_bounded (s : bool) (m e B : Z) :
  (0 < m)%Z → (Zdigits2 m + e ≤ B)%Z → (0 ≤ B ≤ 900)%Z →
  match binary_round_aux prec emax s m e loc_Exact with
  | S754_zero s' => s' = s
  | S754_finite s' m' e' => s' = s ∧ (Z.pos (digits2_pos m') + e' ≤ B + 1)%Z
  | _ => False
  end.
Proof.
  intros Hm Hd HB. unfold binary_round_aux.
  destruct (shr_fexp_spec m e loc_Exact) as (mrs1 & e1 & -> & He1 & Hm1 & _);
    [lia|].
  set (m1 := round_nearest_even (shr_m mrs1) (loc_of_shr_record mrs1)).
  assert (0 ≤ shr_m mrs1)%Z as Hpos1.
  { rewrite Hm1. apply Z.div_pos; [lia|]. apply Z.pow_pos_nonneg; lia. }
  pose proof (round_nearest_even_range (shr_m mrs1) (loc_of_shr_record mrs1))
    as Hr. fold m1 in Hr.
  destruct (shr_fexp_spec m1 e1 loc_Exact) as (mrs2 & e2 & -> & He2 & Hm2 & _);
    [lia|].
  pose proof (Zdigits2_div m (e1 - e)) as Hdiv1. rewrite <- Hm1 in Hdiv1.
  pose proof (Zdigits2_succ (shr_m mrs1) m1) as Hsucc.
  pose proof (Zdigits2_div m1 (e2 - e1)) as Hdiv2. rewrite <- Hm2 in Hdiv2.
  pose proof (Zdigits2_nonneg m). pose proof (Zdigits2_nonneg m1).
  assert (0 < Zdigits2 m)%Z by (destruct m; cbn; lia).
  unfold fexp, SpecFloat.emin, prec, emax in *.
  assert (0 ≤ shr_m mrs2)%Z as Hpos2.
  { rewrite Hm2. apply Z.div_pos; [lia|]. apply Z.pow_pos_nonneg; lia. }
  assert (Zdigits2 (shr_m mrs2) + e2 ≤ B + 1)%Z as Hfin by lia.
  assert (e2 ≤ 1024 - 53)%Z as He by lia.
  destruct (shr_m mrs2) as [|q|q]; [done| |lia].
  destruct (Z.leb_spec e2 (1024 - 53)); [by split|lia].
Qed.

Lemma digits2_iter_xO (m d : positive) :
  Z.pos (digits2_pos (Pos.iter xO m d)) = (Z.pos (digits2_pos m) + Z.pos d)%Z.
Proof.
  induction d as [|d IH] using Pos.peano_ind.
  - cbn. lia.
  - rewrite Pos.iter_succ. cbn [digits2_pos]. lia.
Qed.

Lemma pos_iter_xO (m d : positive) :
  Z.pos (Pos.iter xO m d) = (Z.pos m * 2 ^ Z.pos d)%Z.
Proof.
  induction d as [|d IH] using Pos.peano_ind.
  - cbn. lia.
  - rewrite Pos.iter_succ, Pos2Z.inj_succ, Z.pow_succ_r by lia.
    change (Z.pos (Pos.iter xO m d)~0) with (2 * Z.pos (Pos.iter xO m d))%Z.
    lia.
Qed.

(** Aligning a mantissa to a lower exponent keeps its length plus its
    exponent, and its value. *)
Lemma shl_align_spec (m : positive) (e e' : Z) :
  ∃ mz ez, shl_align m e e' = (mz, ez)
           ∧ (Z.pos (digits2_pos mz) + ez = Z.pos (digits2_pos m) + e)%Z
           ∧ (e' ≤ e → ez = e' ∧ Z.pos mz = Z.pos m * 2 ^ (e - e'))%Z.
Proof.
  unfold shl_align. destruct (e' - e)%Z as [|d|d] eqn:Hd.
  - eexists _, _. split; [done|]. split; [done|]. intros _. split; [lia|].
    replace (e - e')%Z with 0%Z by lia. cbn. lia.
  - eexists _, _. split; [done|]. split; [done|]. lia.
  - eexists _, _. split; [done|]. rewrite digits2_iter_xO. split; [lia|].
    intros _. split; [done|]. rewrite pos_iter_xO. f_equal. f_equal. lia.
Qed.

Lemma binary_round_bounded (s : bool) (m : positive) (e B : Z) :
  (Z.pos (digits2_pos m) + e ≤ B)%Z → (0 ≤ B ≤ 900)%Z →
  float_below (B + 1) (binary_round prec emax s m e).
Proof.
  intros Hd HB. unfold binary_round.
  destruct (shl_align_spec m e
              (fexp prec emax (Z.pos (digits2_pos m) + e)))
    as (mz & ez & -> & Hdz & _).
  pose proof (binary_round_aux_bounded s (Z.pos mz) ez B) as H.
  cbn [Zdigits2] in H.
  destruct (binary_round_aux prec emax s (Z.pos mz) ez loc_Exact);
    cbn; try apply H; try done; lia.
Qed.

Lemma binary_normalize_bounded (z e B : Z) :
  (Zdigits2 z + e ≤ B)%Z → (0 ≤ B ≤ 900)%Z →
  float_below (B + 1) (binary_normalize prec emax z e false).
Proof.
  intros Hd HB. destruct z; [done|by apply binary_round_bounded..].
Qed.

Lemma float_mul_bounded (x y : float) (Bx By : Z) :
  float_below Bx x → float_below By y → (0 ≤ Bx + By ≤ 900)%Z →
  float_below (Bx + By + 1) (float_mul x y).
Proof.
  destruct x as [sx|sx| |sx mx ex], y as [sy|sy| |sy my ey]; try done.
  cbn [float_below]. intros Hx Hy HB. unfold float_mul. cbn [SFmul].
  pose proof (binary_round_aux_bounded (xorb sx sy) (Z.pos (mx * my))
                (ex + ey) (Bx + By)) as H.
  assert (Zdigits2 (Z.pos (mx * my))
          ≤ Z.pos (digits2_pos mx) + Z.pos (digits2_pos my))%Z as Hmul.
  { apply Zdigits2_lt; [lia..|]. rewrite Z.pow_add_r, Pos2Z.inj_mul by lia.
    assert (Z.pos mx < 2 ^ Z.pos (digits2_pos mx))%Z
      by (by apply (Zdigits2_lt (Z.pos mx)); [lia..|cbn]).
    assert (Z.pos my < 2 ^ Z.pos (digits2_pos my))%Z
      by (by apply (Zdigits2_lt (Z.pos my)); [lia..|cbn]).
    nia. }
  destruct (binary_round_aux prec emax (xorb sx sy) (Z.pos (mx * my))
              (ex + ey) loc_Exact); cbn; try apply H; try done; lia.
Qed.

Lemma float_add_bounded (x y : float) (B : Z) :
  float_below B x → float_below B y → (0 ≤ B ≤ 800)%Z →
  float_below (B + 2) (float_add x y).
Proof.
  destruct x as [sx|sx| |sx mx ex], y as [sy|sy| |sy my ey]; try done.
  - intros _ _ _. cbn. by destruct sx, sy.
  - cbn. lia.
  - cbn. lia.
  - cbn [float_below]. intros Hx Hy HB. unfold float_add. cbn [SFadd].
    set (ez := Z.min ex ey).
    destruct (shl_align_spec mx ex ez) as (ax & e1 & -> & Hax & Hvx).
    destruct (shl_align_spec my ey ez) as (ay & e2 & -> & Hay & Hvy).
    destruct Hvx as [-> _]; [lia|]. destruct Hvy as [-> _]; [lia|].
    cbn [fst].
    replace (B + 2)%Z with (B + 1 + 1)%Z by lia.
    apply binary_normalize_bounded; [|lia].
    assert (Z.pos ax < 2 ^ (B - ez))%Z
      by (apply (Zdigits2_lt (Z.pos ax)); [lia..|cbn; lia]).
    assert (Z.pos ay < 2 ^ (B - ez))%Z
      by (apply (Zdigits2_lt (Z.pos ay)); [lia..|cbn; lia]).
    set (z := (cond_Zopp sx (Z.pos ax) + cond_Zopp sy (Z.pos ay))%Z).
    assert (Z.abs z < 2 ^ (B - ez + 1))%Z as Hz.
    { rewrite Z.pow_add_r by lia. subst z. destruct sx, sy; cbn; lia. }
    enough (Zdigits2 z ≤ B - ez + 1)%Z by lia.
    replace (Zdigits2 z) with (Zdigits2 (Z.abs z)) by (by destruct z).
    apply Zdigits2_lt; [lia..|done].
Qed.

(** [x % 1] of a finite float is a float below 8. *)
Lemma mod1_bounded (x : float) :
  is_Some (float_value x) → float_below 3 (mod1 x).
Proof.
  destruct x as [s|s| |s m e]; cbn [float_value]; try by intros [? [=]].
  intros _. unfold mod1.
    remember (match e with
              | Z.neg k => (Z.pos m mod 2 ^ Z.pos k)%Z
              | _ => 0%Z
              end) as frac eqn:Hfrac.
    assert (frac = 0 ∨ 0 < frac ∧ Zdigits2 frac + e ≤ 0)%Z as [->|[Hpos Hd]].
    { subst frac. destruct e as [|k|k]; [by left..|].
      assert (0 < 2 ^ Z.pos k)%Z by (by apply Z.pow_pos_nonneg).
      pose proof (Z.mod_pos_bound (Z.pos m) (2 ^ Z.pos k)).
      destruct (decide (Z.pos m mod 2 ^ Z.pos k = 0)%Z); [by left|right].
      split; [lia|].
      enough (Zdigits2 (Z.pos m mod 2 ^ Z.pos k) ≤ Z.pos k)%Z by lia.
      apply Zdigits2_lt; lia. }
    + done.
    + clear Hfrac. destruct frac as [|f|f]; [lia| |lia].
      assert (float_below 1
                (binary_normalize prec emax (cond_Zopp s (Z.pos f)) e false))
        as Hr.
      { apply (binary_normalize_bounded _ _ 0); [|lia]. by destruct s. }
      destruct s;
        [|by destruct (binary_normalize _ _ _ _ _); cbn in *; try lia].
      apply (float_add_bounded _ _ 1).
      * by destruct (binary_normalize _ _ _ _ _); cbn in *; try lia.
      * by vm_compute.
      * lia.
Qed.

Lemma float_below_value (B : Z) (y : float) :
  float_below B y → is_Some (float_value y).
Proof. destruct y; cbn; by eauto. Qed.

Lemma float_to_int_value (conv : Q → Z) (x : float) (q : Q) :
  float_value x = Some q → float_to_int conv x = inr (conv q).
Proof. unfold float_to_int. by intros ->. Qed.

Lemma float_to_int_inv (conv : Q → Z) (x : float) (n : Z) :
  float_to_int conv x = inr n → ∃ q, float_value x = Some q ∧ n = conv q.
Proof.
  unfold float_to_int. destruct (float_value x) as [q|]; [|by destruct x].
  intros [= <-]. by exists q.
Qed.

(** On a finite double, the conversion to degrees, minutes and seconds
    returns, and the degrees are the floor of the number. *)
Lemma degToDmsRational_finite (x : float) (q : Q) :
  float_value x = Some q →
  ∃ m s, degToDmsRational x = inr [(Qfloor q, 1); (m, 1); (s, 100)]%Z.
Proof.
  intros Hq. unfold degToDmsRational.
  set (min_float := float_mul (mod1 x) (float_of_Z 60)).
  set (sec_float := float_mul (mod1 min_float) (float_of_Z 60)).
  assert (float_below 10 min_float) as Hmin.
  { apply (float_mul_bounded _ _ 3 6); [|by vm_compute|lia].
    apply mod1_bounded. by rewrite Hq. }
  assert (float_below 10 sec_float) as Hsec.
  { apply (float_mul_bounded _ _ 3 6); [|by vm_compute|lia].
    eapply mod1_bounded, float_below_value, Hmin. }
  assert (float_below 18 (float_mul sec_float (float_of_Z 100))) as Hhund.
  { apply (float_mul_bounded _ _ 10 7); [done|by vm_compute|lia]. }
  apply float_below_value in Hmin as [qm Hqm], Hhund as [qs Hqs].
  unfold math_floor, py_round.
  rewrite (float_to_int_value _ _ _ Hq), (float_to_int_value _ _ _ Hqm),
    (float_to_int_value _ _ _ Hqs).
  by eexists _, _.
Qed.

Lemma degToDmsRational_infinity (s : bool) :
  degToDmsRational (S754_infinity s) = inl OverflowError.
Proof. done. Qed.

Lemma degToDmsRational_nan : degToDmsRational S754_nan = inl ValueError.
Proof. done. Qed.

(** The product of a double with -1 is the double of the other sign. *)
Lemma float_mul_minus_one (x : float) :
  valid_binary prec emax x = true →
  float_mul x (float_of_Z (-1)) = float_neg x.
Proof.
  destruct x as [s|s| |s m e]; [by destruct s..|done|].
  cbn [valid_binary]. unfold bounded, canonical_mantissa.
  intros [Hcan%Z.eqb_eq Hmax%Z.leb_le]%andb_prop.
  change (float_of_Z (-1)) with (S754_finite true 4503599627370496 (-52)).
  unfold float_mul. cbn [SFmul float_neg SFopp].
  rewrite Pos.mul_comm.
  unfold binary_round_aux, shr_fexp.
  set (m52 := (m~0~0~0~0~0~0~0~0~0~0~0~0~0~0~0~0~0~0~0~0~0~0~0~0~0~0~0~0~0~0~0~0~0~0~0~0~0~0~0~0~0~0~0~0~0~0~0~0~0~0~0~0)%positive).
  change (4503599627370496 * m)%positive with m52.
  assert (Zdigits2 (Z.pos m52) = Z.pos (digits2_pos m) + 52)%Z as ->
    by (cbn; lia).
  replace (Z.pos (digits2_pos m) + 52 + (e + -52))%Z
    with (Z.pos (digits2_pos m) + e)%Z by lia.
  rewrite Hcan.
  replace (e - (e + -52))%Z with 52%Z by lia.
  cbn [shr shr_record_of_loc SpecFloat.iter_pos]. subst m52.
  cbn [shr_1 loc_of_shr_record orb shr_m round_nearest_even].
  replace (e + -52 + 52)%Z with e by lia.
  cbn [Zdigits2]. rewrite Hcan, Z.sub_diag. cbn [shr shr_m].
  apply Z.leb_le in Hmax. rewrite Hmax. by destruct s.
Qed.
(** ** GPS *)

(** C10: [_str_to_float] returns 0.0 on every string, whatever it spells
    (a number, as in "45.0", or not): string coordinates are never parsed. *)
Theorem str_to_float_of_string (s : string) :
  _str_to_float (JStr s) = inr float_zero.
Proof. reflexivity. Qed.

Example str_to_float_45 : _str_to_float (JStr "45.0") = inr float_zero.
Proof. reflexivity. Qed.

(** What is not a string goes through [float]: an integer too large for a
    double raises, and an infinity, as [json.load] reads [1e999], is
    passed on. *)
Example str_to_float_huge : _str_to_float (JInt (10 ^ 400)) = inl OverflowError.
Proof. vm_compute. reflexivity. Qed.

Example str_to_float_infinity :
  _str_to_float (JFloat (S754_infinity false)) = inr (S754_infinity false).
Proof. reflexivity. Qed.

(** So a sidecar whose "geoData" latitude and longitude are strings is read
    as having no position there, and "geoDataExif" is used. *)
Lemma string_coordinates_fall_back (json g al : json) (s_lon s_lat : string)
    (altitude : float) :
  getitem json "geoData" = inr g →
  getitem g "longitude" = inr (JStr s_lon) →
  getitem g "latitude" = inr (JStr s_lat) →
  getitem g "altitude" = inr al → _str_to_float al = inr altitude →
  select_geo json = read_geo json "geoDataExif".
Proof.
  intros Hg Hlon Hlat Hal Halt.
  assert (Hgeo : read_geo json "geoData" = inr (float_zero, float_zero, altitude)).
  { unfold read_geo. rewrite Hg. cbn. rewrite Hlon. cbn. rewrite Hlat. cbn.
    rewrite Hal. cbn. by rewrite Halt. }
  unfold select_geo. by rewrite Hgeo.
Qed.

(** The sidecar whose "geoData" coordinates are the strings "-122.0" and
    "45.0": "geoDataExif" is used. *)
Example string_geo_falls_back :
  select_geo string_geo = read_geo string_geo "geoDataExif".
Proof. vm_compute. reflexivity. Qed.

(** *** Floats and the numbers they stand for *)

Lemma float_eqb_zero (x : float) :
  float_eqb x float_zero = true ↔ ∃ s, x = S754_zero s.
Proof.
  destruct x as [s|[]| |[] m e]; cbn; split; try done; try by intros [? [=]].
  by exists s.
Qed.

Lemma float_finite_nonzero (s : bool) (m : positive) (e : Z) :
  ¬ (inject_Z (cond_Zopp s (Z.pos m)) * 2 ^ e == 0)%Q.
Proof.
  intros H. apply Qmult_integral in H as [H|H].
  - destruct s; cbn in H; unfold Qeq in H; cbn in H; lia.
  - pose proof (Qpower.Qpower_0_lt 2 e eq_refl) as Hpos. rewrite H in Hpos.
    by apply Qlt_irrefl in Hpos.
Qed.

Lemma float_eqb_zero_value (x : float) (q : Q) :
  float_value x = Some q → float_eqb x float_zero = Qeq_bool q 0.
Proof.
  destruct x as [s|s| |s m e]; cbn [float_value]; intros [= <-]; [done|].
  transitivity false; [by destruct s|]. symmetry.
  apply not_true_is_false. rewrite Qeq_bool_iff. apply float_finite_nonzero.
Qed.

Lemma float_leb_zero_value (x : float) (q : Q) :
  float_value x = Some q → float_leb float_zero x = Qle_bool 0 q.
Proof.
  destruct x as [s|s| |s m e]; cbn [float_value]; intros [= <-]; [done|].
  pose proof (Qpower.Qpower_0_lt 2 e eq_refl) as Hpow.
  destruct s; cbn [cond_Zopp].
  - transitivity false; [done|]. symmetry.
    apply not_true_is_false. rewrite Qle_bool_iff. intros Hle.
    rewrite inject_Z_opp in Hle.
    assert (0 < inject_Z (Z.pos m) * 2 ^ e)%Q
      by (by apply Qmult_lt_0_compat).
    Lqa.lra.
  - transitivity true; [done|]. symmetry. apply Qle_bool_iff.
    apply Qmult_le_0_compat; [done|by apply Qlt_le_weak].
Qed.

Lemma float_neg_value (x : float) (q : Q) :
  float_value x = Some q → ∃ q', float_value (float_neg x) = Some q' ∧ (q' == - q)%Q.
Proof.
  destruct x as [s|s| |s m e]; cbn [float_value float_neg SFopp]; intros [= <-].
  - by eexists.
  - eexists. split; [done|]. destruct s; cbn [negb cond_Zopp];
      rewrite ?inject_Z_opp; ring.
Qed.

(** The hemisphere letter goes by the sign of the number, and what is
    kept is the number itself or its negation: a float of its absolute
    value. *)
Lemma hemisphere_value (x : float) (q : Q) (pos neg : string) :
  float_value x = Some q →
  hemisphere x pos neg
  = (if Qle_bool 0 q then pos else neg, if Qle_bool 0 q then x else float_neg x).
Proof.
  intros Hq. unfold hemisphere. rewrite (float_leb_zero_value _ _ Hq).
  by destruct (Qle_bool 0 q).
Qed.

Lemma magnitude_value (x : float) (q : Q) :
  float_value x = Some q →
  ∃ q', float_value (if Qle_bool 0 q then x else float_neg x) = Some q'
        ∧ (q' == Qabs.Qabs q)%Q
        ∧ float_eqb (if Qle_bool 0 q then x else float_neg x) float_zero
          = Qeq_bool q 0.
Proof.
  intros Hq. destruct (Qle_bool 0 q) eqn:Hle.
  - exists q. split; [done|]. split; [|by apply float_eqb_zero_value].
    apply Qle_bool_iff in Hle. by rewrite Qabs.Qabs_pos.
  - destruct (float_neg_value _ _ Hq) as (q' & Hq' & Heq).
    exists q'. split; [done|]. split.
    + rewrite Heq, Qabs.Qabs_neg; [done|].
      apply Qlt_le_weak, Qnot_le_lt. intros H%Qle_bool_iff. congruence.
    + rewrite <- (float_eqb_zero_value _ _ Hq). by destruct x as [[]|[]| |[]].
Qed.

Lemma hemisphere_of_zero (x : float) (pos neg : string) :
  float_eqb x float_zero = true → hemisphere x pos neg = (pos, x).
Proof. intros [s ->]%float_eqb_zero. by destruct s. Qed.

Lemma Qfrac_range (x : Q) : (0 <= Qfrac x < 1)%Q.
Proof.
  unfold Qfrac. pose proof (Qfloor_le x). pose proof (Qlt_floor x) as Hlt.
  rewrite inject_Z_plus in Hlt. change (inject_Z 1) with 1%Q in Hlt.
  split; Lqa.lra.
Qed.

(** [round_half_even] rounds to the nearest integer, ties to even. *)
Lemma round_half_even_nearest (q : Q) : nearest_even q (round_half_even q).
Proof.
  unfold nearest_even, round_half_even.
  pose proof (Qfrac_range q) as Hr.
  assert (q == inject_Z (Qfloor q) + Qfrac q)%Q as Hq by (unfold Qfrac; ring).
  generalize dependent (Qfrac q). generalize (Qfloor q). intros f r Hr Hq.
  destruct (Qcompare_spec r (1 # 2)) as [Heq|Hlt|Hgt].
  - destruct (Z.even f) eqn:Hev.
    + split; [Lqa.lra|done].
    + rewrite inject_Z_plus. change (inject_Z 1) with 1%Q.
      split; [Lqa.lra|]. intros _. rewrite Z.even_add, Hev. done.
  - split; [Lqa.lra|]. intros [H|H]; Lqa.lra.
  - rewrite inject_Z_plus. change (inject_Z 1) with 1%Q.
    split; [Lqa.lra|]. intros [H|H]; Lqa.lra.
Qed.

Lemma py_round_value (x : float) (q : Q) :
  float_value x = Some q →
  ∃ n, py_round x = inr n ∧ nearest_even q n.
Proof.
  intros Hq. exists (round_half_even q). split.
  - by apply float_to_int_value.
  - apply round_half_even_nearest.
Qed.

(** *** The GPS IFD *)

Ltac unfold_tags :=
  unfold GPSVersionID, GPSLatitudeRef, GPSLatitude, GPSLongitudeRef,
    GPSLongitude, GPSAltitudeRef, GPSAltitude in *.

(** [set_file_geo_data]: an error in reading or converting the position
    ends the call, with nothing changed; otherwise the GPS IFD replaces the
    one of the loaded (or fallback) EXIF, and the file takes the result,
    as the codec reads it back, if the codec accepts it. *)
Lemma set_file_geo_data_cases (W : World) (file : Path) (json : json) (st : State) :
  set_file_geo_data W file json st
  = match gps_ifd_of json with
    | inl e => (inl e, st)
    | inr gps_ifd =>
        let loaded := default fallback_exif (exif_of st !! file) in
        let d := mkExif (ifd_0th loaded) (ifd_Exif loaded) (Some gps_ifd) in
        (inr (), if insert_ok W file d then set_exif <[file := as_loaded d]> st
                 else st)
    end.
Proof.
  unfold set_file_geo_data, gps_ifd_of, mbind, M_bind, try_except, piexif_load,
    lift, piexif_insert, mret, M_ret.
  destruct (exif_of st !! file) as [d0|], (select_geo json) as [e|[[lo la] al]];
    cbn; try done; destruct (make_gps_ifd lo la al) as [e|gps]; cbn; try done;
    by destruct (insert_ok W file _).
Qed.

(** With both coordinates zero, only the altitude tags may come on top of
    the version. *)
Lemma make_gps_ifd_zero (longitude latitude altitude : float) :
  float_eqb longitude float_zero = true → float_eqb latitude float_zero = true →
  make_gps_ifd longitude latitude altitude
  = if float_eqb altitude float_zero
    then inr {[ GPSVersionID := EInts [2; 0; 0; 0]%Z ]}
    else n ← py_round altitude;
         inr (<[GPSAltitude := ERational (n, 1%Z)]>
              (<[GPSAltitudeRef := EInt 1]>
                 {[ GPSVersionID := EInts [2; 0; 0; 0]%Z ]})).
Proof.
  intros Hlon Hlat. unfold make_gps_ifd.
  rewrite (hemisphere_of_zero _ _ _ Hlon), (hemisphere_of_zero _ _ _ Hlat).
  rewrite Hlon, Hlat. cbn. by destruct (float_eqb altitude float_zero).
Qed.

(** C7 (amended): when the selected latitude and longitude are both zero,
    the GPS IFD that [set_file_geo_data] hands to the codec has none of the
    four latitude and longitude tags.  It does have [GPSVersionID], and it
    has [GPSAltitudeRef] (1) and [GPSAltitude] (the altitude rounded to the
    nearest integer, over 1) exactly when the altitude is not zero.  The
    file holds that IFD, as the codec reads it back, once the codec accepts
    the insert.  An altitude that is NaN or infinite raises [ValueError] or
    [OverflowError] instead, and nothing is written. *)
Theorem gps_zero_coordinates (W : World) (file : Path) (json : json) (st : State)
    (longitude latitude altitude : float) :
  select_geo json = inr (longitude, latitude, altitude) →
  float_eqb longitude float_zero = true →
  float_eqb latitude float_zero = true →
  (∀ alt, float_value altitude = Some alt →
     ∃ gps_ifd d,
       gps_ifd !! GPSLatitudeRef = None ∧ gps_ifd !! GPSLatitude = None
       ∧ gps_ifd !! GPSLongitudeRef = None ∧ gps_ifd !! GPSLongitude = None
       ∧ gps_ifd !! GPSVersionID = Some (EInts [2; 0; 0; 0]%Z)
       ∧ (if Qeq_bool alt 0
          then gps_ifd !! GPSAltitudeRef = None ∧ gps_ifd !! GPSAltitude = None
          else gps_ifd !! GPSAltitudeRef = Some (EInt 1)
               ∧ ∃ n, gps_ifd !! GPSAltitude = Some (ERational (n, 1%Z))
                      ∧ nearest_even alt n)
       ∧ (let loaded := default fallback_exif (exif_of st !! file) in
          d = mkExif (ifd_0th loaded) (ifd_Exif loaded) (Some gps_ifd))
       ∧ set_file_geo_data W file json st
         = (inr (), if insert_ok W file d
                    then set_exif <[file := as_loaded d]> st else st))
  ∧ (float_value altitude = None →
     set_file_geo_data W file json st
     = (inl (match altitude with
             | S754_nan => ValueError
             | _ => OverflowError
             end), st)).
Proof.
  intros Hgeo Hlon Hlat.
  assert (Hifd : gps_ifd_of json = make_gps_ifd longitude latitude altitude)
    by (unfold gps_ifd_of; by rewrite Hgeo).
  pose proof (set_file_geo_data_cases W file json st) as Hset.
  rewrite Hifd, (make_gps_ifd_zero _ _ _ Hlon Hlat) in Hset.
  split.
  - intros alt Halt. rewrite (float_eqb_zero_value _ _ Halt) in Hset.
    destruct (py_round_value _ _ Halt) as (n & Hn & Hnear).
    rewrite Hn in Hset. cbn [mbind exn_bind] in Hset.
    destruct (Qeq_bool alt 0); cbv zeta in Hset; eexists _, _; split_and!.
    9, 18: exact Hset.
    all: try done; try (unfold_tags; by simplify_map_eq).
    exists n. split; [|done]. unfold_tags. by simplify_map_eq.
  - intros Hnone. rewrite Hset. by destruct altitude as [?|[]| |]; cbn in Hnone |- *.
Qed.

Lemma gps_zero_coordinates_witness :
  (∃ (gps_ifd : ifd) st,
     set_file_geo_data bare_world a_photo zero_geo empty_exif = (inr (), st)
     ∧ gps_ifd !! GPSLatitude = None
     ∧ gps_ifd !! GPSVersionID = Some (EInts [2; 0; 0; 0]%Z)
     ∧ gps_ifd !! GPSAltitude = None)
  ∧ set_file_geo_data bare_world a_photo high_geo empty_exif
    = (inl OverflowError, empty_exif).
Proof.
  split.
  - destruct (gps_zero_coordinates bare_world a_photo zero_geo empty_exif
                float_zero float_zero float_zero) as [H _];
      [vm_compute; reflexivity | reflexivity | reflexivity |].
    destruct (H 0%Q eq_refl) as (gps_ifd & d & _ & Hlat & _ & _ & Hver & Halt & _ & Hset).
    exists gps_ifd. eexists. split; [exact Hset|].
    split; [exact Hlat|]. split; [exact Hver | exact (proj2 Halt)].
  - destruct (gps_zero_coordinates bare_world a_photo high_geo empty_exif
                float_zero float_zero (S754_infinity false)) as [_ H];
      [vm_compute; reflexivity | reflexivity | reflexivity |].
    exact (H eq_refl).
Defined.

(** An altitude too large for a float raises as soon as it is read. *)
Example huge_altitude_raises :
  set_file_geo_data bare_world a_photo huge_geo empty_exif
  = (inl OverflowError, empty_exif).
Proof. vm_compute. reflexivity. Qed.

(** C7, as stated, fails: on a sidecar whose coordinates are all zero, a
    JPEG that had no GPS tag gets the IFD [{GPSVersionID: (2, 0, 0, 0)}]:
    the GPS IFD is written, not left out. *)
Lemma gps_version_written_on_zero_coordinates :
  select_geo zero_geo = inr (float_zero, float_zero, float_zero)
  ∧ (exif_of empty_exif !! a_photo ≫= ifd_GPS) = Some ∅
  ∧ ∃ st, set_file_geo_data bare_world a_photo zero_geo empty_exif = (inr (), st)
          ∧ (exif_of st !! a_photo ≫= ifd_GPS)
            = Some {[ GPSVersionID := EInts [2; 0; 0; 0]%Z ]}.
Proof.
  split; [vm_compute; reflexivity|]. split; [vm_compute; reflexivity|].
  eexists. split; vm_compute; reflexivity.
Qed.

(** C8 (amended): when the "geoData" latitude and longitude both coerce to
    zero and the three fields of "geoDataExif" are read, the coordinates
    used are those of "geoDataExif".  If they are finite and the latitude
    or the longitude is not zero, the GPS IFD handed to the codec carries
    both: the hemisphere letter ("N" or "E" for a number that is not
    negative, "S" or "W" otherwise) and the degrees, minutes and seconds
    that [degToDmsRational] makes of the number, or of its negation when it
    is negative, the degrees being the floor of its absolute value.  It
    carries [GPSAltitudeRef] (1) and [GPSAltitude] (the altitude rounded to
    the nearest integer) exactly when the altitude is not zero.  The file
    holds that IFD, as the codec reads it back, once the codec accepts the
    insert. *)
Theorem geo_exif_fallback (W : World) (file : Path) (json : json) (st : State)
    (lo la al longitude latitude altitude : float) (lon lat alt : Q) :
  read_geo json "geoData" = inr (lo, la, al) →
  float_eqb lo float_zero = true → float_eqb la float_zero = true →
  read_geo json "geoDataExif" = inr (longitude, latitude, altitude) →
  float_value longitude = Some lon →
  float_value latitude = Some lat →
  float_value altitude = Some alt →
  ¬ (lat == 0 ∧ lon == 0)%Q →
  select_geo json = inr (longitude, latitude, altitude)
  ∧ ∃ (gps_ifd : ifd) d lat_min lat_sec lon_min lon_sec,
      let lat_dms := [(Qfloor (Qabs.Qabs lat), 1); (lat_min, 1); (lat_sec, 100)]%Z in
      let lon_dms := [(Qfloor (Qabs.Qabs lon), 1); (lon_min, 1); (lon_sec, 100)]%Z in
      degToDmsRational (if Qle_bool 0 lat then latitude else float_neg latitude)
      = inr lat_dms
      ∧ degToDmsRational (if Qle_bool 0 lon then longitude else float_neg longitude)
        = inr lon_dms
      ∧ gps_ifd !! GPSLatitudeRef = Some (EStr (if Qle_bool 0 lat then "N" else "S"))
      ∧ gps_ifd !! GPSLatitude = Some (ERationals lat_dms)
      ∧ gps_ifd !! GPSLongitudeRef = Some (EStr (if Qle_bool 0 lon then "E" else "W"))
      ∧ gps_ifd !! GPSLongitude = Some (ERationals lon_dms)
      ∧ gps_ifd !! GPSVersionID = Some (EInts [2; 0; 0; 0]%Z)
      ∧ (if Qeq_bool alt 0
         then gps_ifd !! GPSAltitudeRef = None ∧ gps_ifd !! GPSAltitude = None
         else gps_ifd !! GPSAltitudeRef = Some (EInt 1)
              ∧ ∃ n, gps_ifd !! GPSAltitude = Some (ERational (n, 1%Z))
                     ∧ nearest_even alt n)
      ∧ (let loaded := default fallback_exif (exif_of st !! file) in
         d = mkExif (ifd_0th loaded) (ifd_Exif loaded) (Some gps_ifd))
      ∧ set_file_geo_data W file json st
        = (inr (), if insert_ok W file d
                   then set_exif <[file := as_loaded d]> st else st).
Proof.
  intros Hgeo Hlo Hla Hexif Hlon Hlat Halt Hnz.
  assert (Hsel : select_geo json = inr (longitude, latitude, altitude)).
  { unfold select_geo. rewrite Hgeo. cbn. by rewrite Hlo, Hla. }
  split; [done|].
  pose proof (set_file_geo_data_cases W file json st) as Hset.
  unfold gps_ifd_of in Hset. rewrite Hsel in Hset. cbn [mbind exn_bind] in Hset.
  unfold make_gps_ifd in Hset.
  rewrite (hemisphere_value _ _ "E" "W" Hlon),
    (hemisphere_value _ _ "N" "S" Hlat) in Hset.
  destruct (magnitude_value _ _ Hlat) as (qlat & Hqlat & Heqlat & Hzlat).
  destruct (magnitude_value _ _ Hlon) as (qlon & Hqlon & Heqlon & Hzlon).
  destruct (degToDmsRational_finite _ _ Hqlat) as (lat_min & lat_sec & Hdlat).
  destruct (degToDmsRational_finite _ _ Hqlon) as (lon_min & lon_sec & Hdlon).
  rewrite (Qfloor_comp _ _ Heqlat) in Hdlat.
  rewrite (Qfloor_comp _ _ Heqlon) in Hdlon.
  destruct (py_round_value _ _ Halt) as (n & Hn & Hnear).
  assert (negb (Qeq_bool lat 0) || negb (Qeq_bool lon 0) = true) as Hcond.
  { destruct (Qeq_bool lat 0) eqn:H1, (Qeq_bool lon 0) eqn:H2; try done.
    apply Qeq_bool_iff in H1, H2. by destruct Hnz. }
  assert (Hset' :
    set_file_geo_data W file json st
    = match
        (gps_ifd ← inr
           (<[GPSLongitude := ERationals
                [(Qfloor (Qabs.Qabs lon), 1); (lon_min, 1); (lon_sec, 100)]%Z]>
           (<[GPSLongitudeRef := EStr (if Qle_bool 0 lon then "E" else "W")]>
           (<[GPSLatitude := ERationals
                [(Qfloor (Qabs.Qabs lat), 1); (lat_min, 1); (lat_sec, 100)]%Z]>
           (<[GPSLatitudeRef := EStr (if Qle_bool 0 lat then "N" else "S")]>
              ({[ GPSVersionID := EInts [2; 0; 0; 0]%Z ]} : ifd)))));
         if negb (Qeq_bool alt 0)
         then inr (<[GPSAltitude := ERational (n, 1%Z)]>
                   (<[GPSAltitudeRef := EInt 1]> gps_ifd))
         else inr gps_ifd)
      with
      | inl e => (inl e, st)
      | inr gps_ifd =>
          let loaded := default fallback_exif (exif_of st !! file) in
          let d := mkExif (ifd_0th loaded) (ifd_Exif loaded) (Some gps_ifd) in
          (inr (), if insert_ok W file d
                   then set_exif <[file := as_loaded d]> st else st)
      end).
  { rewrite Hset. destruct (Qle_bool 0 lon), (Qle_bool 0 lat);
      rewrite Hzlat, Hzlon, Hcond, Hdlat, Hdlon,
        (float_eqb_zero_value _ _ Halt), Hn;
      cbn [mbind exn_bind]; by destruct (Qeq_bool alt 0). }
  clear Hset. cbn [mbind exn_bind] in Hset'.
  destruct (Qeq_bool alt 0); cbn [negb] in Hset'; cbv zeta in Hset';
    eexists _, _, lat_min, lat_sec, lon_min, lon_sec; cbv zeta;
    (split; [exact Hdlat|]); (split; [exact Hdlon|]); split_and!.
  9, 18: exact Hset'.
  all: try done; try (unfold_tags; by simplify_map_eq).
  exists n. split; [|done]. unfold_tags. by simplify_map_eq.
Qed.

Lemma geo_exif_fallback_witness :
  select_geo stripped_geo = inr (float_of_Z (-122), float_of_Z 45, float_of_Z 30)
  ∧ ∃ (gps_ifd : ifd) st,
      set_file_geo_data bare_world a_photo stripped_geo empty_exif = (inr (), st)
      ∧ gps_ifd !! GPSLongitudeRef = Some (EStr "W")
      ∧ gps_ifd !! GPSLatitude = Some (ERationals [(45, 1); (0, 1); (0, 100)]%Z)
      ∧ gps_ifd !! GPSAltitudeRef = Some (EInt 1).
Proof.
  destruct (geo_exif_fallback bare_world a_photo stripped_geo empty_exif
              float_zero float_zero float_zero
              (float_of_Z (-122)) (float_of_Z 45) (float_of_Z 30)
              (default 0%Q (float_value (float_of_Z (-122))))
              (default 0%Q (float_value (float_of_Z 45)))
              (default 0%Q (float_value (float_of_Z 30))))
    as (Hsel & gps_ifd & d & lat_min & lat_sec & lon_min & lon_sec
        & Hdlat & _ & _ & Hlat & Hlonref & _ & _ & Halt & _ & Hset).
  - vm_compute. reflexivity.
  - reflexivity.
  - reflexivity.
  - vm_compute. reflexivity.
  - reflexivity.
  - reflexivity.
  - reflexivity.
  - intros [H _]. vm_compute in H. discriminate H.
  - split; [exact Hsel|]. exists gps_ifd. eexists. split; [exact Hset|].
    split; [exact Hlonref|]. split; [|exact (proj1 Halt)].
    vm_compute in Hdlat. injection Hdlat as <- <-. exact Hlat.
Defined.

(** C8, as stated, fails: a sidecar whose "geoData" is zeroed and that has
    no "geoDataExif" block makes [set_file_geo_data] raise [KeyError].
    Nothing is written, nothing catches the error, and the run stops at
    that file: the next one is never reached. *)
Lemma zeroed_position_without_exif_block :
  read_geo zero_only_geo "geoData" = inr (float_zero, float_zero, float_zero)
  ∧ set_file_geo_data zero_only_world a_photo zero_only_geo empty_exif
    = (inl KeyError, empty_exif)
  ∧ ∃ st, fix_all zero_only_world in_dir any_file empty_exif = (inl KeyError, st)
          ∧ exif_of st !! a_photo = exif_of empty_exif !! a_photo
          ∧ mtime_of st !! a_photo = None
          ∧ mtime_of st !! b_photo = None.
Proof.
  split; [vm_compute; reflexivity|]. split; [vm_compute; reflexivity|].
  eexists. split; [vm_compute; reflexivity|].
  repeat split; vm_compute; reflexivity.
Qed.

(** The stripped sidecar, run: the file ends up with the position of
    "geoDataExif", the hemisphere letters read back as bytes, and the 0th
    IFD with the pointer to the GPS IFD. *)
Example stripped_geo_written :
  ∃ st d, set_file_geo_data bare_world a_photo stripped_geo empty_exif = (inr (), st)
          ∧ exif_of st !! a_photo = Some d
          ∧ ifd_0th d = {[ GPSTag := EOffset IFD_GPS ]}
          ∧ ifd_Exif d = ∅
          ∧ ∃ gps, ifd_GPS d = Some gps
                   ∧ map_to_list gps
                     ≡ₚ [(GPSVersionID, EInts [2; 0; 0; 0]);
                         (GPSLatitudeRef, EBytes "N");
                         (GPSLatitude, ERationals [(45, 1); (0, 1); (0, 100)]);
                         (GPSLongitudeRef, EBytes "W");
                         (GPSLongitude, ERationals [(122, 1); (0, 1); (0, 100)]);
                         (GPSAltitudeRef, EInt 1);
                         (GPSAltitude, ERational (30, 1))]%Z.
Proof.
  eexists _, _. split; [vm_compute; reflexivity|]. split; [vm_compute; reflexivity|].
  split; [vm_compute; reflexivity|]. split; [vm_compute; reflexivity|].
  eexists. split; [vm_compute; reflexivity|].
  apply NoDup_Permutation.
  - apply NoDup_map_to_list.
  - vm_compute. repeat constructor; set_solver.
  - intros [k v]. vm_compute. set_solver.
Qed.

(** The conversion in doubles: 0.35 degrees are 21 minutes, and 0.025
    seconds of arc, which no double is, come out as 0.02. *)
Example degToDmsRational_0_35 :
  degToDmsRational (S754_finite false 6305039478318694 (-54))
  = inr [(0, 1); (21, 1); (0, 100)]%Z.
Proof. vm_compute. reflexivity. Qed.

Example degToDmsRational_tie :
  degToDmsRational (S754_finite false 8198552921648690 (-70))
  = inr [(0, 1); (0, 1); (2, 100)]%Z.
Proof. vm_compute. reflexivity. Qed.

(** ** MetadataFixer *)

Ltac unfold_M :=
  unfold mbind, M_bind, mret, M_ret, try_except, lift, raise, modify in *.

Lemma set_creation_date_from_str_cases (W : World) (file : Path)
    (str_datetime : string) (st : State) :
  set_creation_date_from_str W file str_datetime st
  = match strptime_timestamp W (normalize_datetime str_datetime) with
    | Some timestamp =>
        if utime_ok W file then (inr (), set_mtime <[file := timestamp]> st)
        else (inl ValueError, st)
    | None => (inl ValueError, st)
    end.
Proof.
  unfold set_creation_date_from_str. unfold_M.
  destruct (strptime_timestamp W _); [|done]. by destruct (utime_ok W file).
Qed.

(** [set_creation_date_from_str] raises nothing but [ValueError]. *)
Lemma set_creation_date_from_str_raises (W : World) (file : Path)
    (str_datetime : string) (st st' : State) (e : exn) :
  set_creation_date_from_str W file str_datetime st = (inl e, st') →
  e = ValueError.
Proof.
  rewrite set_creation_date_from_str_cases.
  destruct (strptime_timestamp W _); [destruct (utime_ok W file)|]; congruence.
Qed.

(** The loop over the embedded date tags returns: a missing tag, bytes
    that do not decode and a date that does not parse are all passed over. *)
Lemma date_tags_loop_returns (W : World) (file : Path) (d : exif_dict)
    (tags : list (ifd_name * Z)) (st : State) :
  (∀ tag v, tag ∈ tags → exif_get d tag.1 tag.2 = inr v → ∃ b, v = EBytes b) →
  returns (date_tags_loop W file d tags) st.
Proof.
  revert st. induction tags as [|tag tags IH]; intros st Hbytes.
  - by eexists _, _.
  - assert (Hrest : returns (date_tags_loop W file d tags) st).
    { apply IH. intros t v Ht. apply Hbytes. by apply list_elem_of_further. }
    cbn [date_tags_loop]. unfold returns. unfold_M.
    destruct (exif_get d tag.1 tag.2) as [e|v] eqn:Hget.
    + unfold exif_get in Hget. cbn.
      assert (e = KeyError) as ->.
      { destruct (match tag.1 with IFD_0th => _ | _ => _ end) as [m|];
          [destruct (m !! tag.2)|]; congruence. }
      done.
    + destruct (Hbytes tag v (list_elem_of_here _ _) Hget) as [b ->]. cbn.
      destruct (utf8_ok W b); cbn; [|done].
      destruct (set_creation_date_from_str W file b st) as [[e|[]] st'] eqn:Hset.
      * pose proof (set_creation_date_from_str_raises _ _ _ _ _ _ Hset) as ->.
        rewrite set_creation_date_from_str_cases in Hset.
        assert (st' = st) as ->; [|done].
        destruct (strptime_timestamp W _); [destruct (utime_ok W file)|];
          congruence.
      * by eexists _, _.
Qed.

(** The embedded-EXIF step never raises: a failed load and the lack of a
    usable date tag both come out as "no nice date". *)
Lemma exif_step_returns (W : World) (file : Path) (st : State) :
  date_tags_are_bytes st file → returns (exif_step W file) st.
Proof.
  intros Hbytes. unfold returns, exif_step, set_creation_date_from_exif, piexif_load.
  unfold_M. destruct (exif_of st !! file) as [d|] eqn:Hd; [|by eexists _, _].
  destruct (date_tags_loop_returns W file d date_tags st) as (b & st' & ->).
  { intros tag v. by apply Hbytes. }
  destruct b; cbn; by eexists _, _.
Qed.

(** The date write never raises: a rejected insert is recorded. *)
Lemma set_file_exif_date_cases (W : World) (file : Path) (creation_date : string)
    (st : State) :
  let loaded := default fallback_exif (exif_of st !! file) in
  let d := mkExif (<[TAG_DATE_TIME := EBytes creation_date]> (ifd_0th loaded))
                  (<[TAG_DATE_TIME_DIGITIZED := EBytes creation_date]>
                     (<[TAG_DATE_TIME_ORIGINAL := EBytes creation_date]>
                        (ifd_Exif loaded)))
                  (ifd_GPS loaded) in
  set_file_exif_date W file creation_date st
  = (inr (), if insert_ok W file d then set_exif <[file := as_loaded d]> st
             else set_cant_insert (λ l, l ++ [str (resolve file)]) st).
Proof.
  unfold set_file_exif_date, piexif_load, piexif_insert. unfold_M.
  destruct (exif_of st !! file) as [d0|]; cbn; by destruct (insert_ok W file _).
Qed.

(** The sidecar lookup raises nothing but [FileNotFoundError]. *)
Lemma find_json_for_file_raises (W : World) (file : Path) (st st' : State) (e : exn) :
  find_json_for_file W file st = (inl e, st') → e = FileNotFoundError.
Proof.
  unfold find_json_for_file.
  destruct (w_is_file W _); [destruct (load_json W _); congruence|].
  destruct (_ ≫= _); congruence.
Qed.

(** Reading back does not touch a tag other than a pointer tag, but for
    text coming back as bytes. *)
Lemma with_pointer_lookup (tag t : Z) (target : ifd_name) (sub zeroth : ifd) :
  t ≠ tag → with_pointer tag target sub zeroth !! t = zeroth !! t.
Proof.
  intros Ht. unfold with_pointer.
  case_decide; [by rewrite lookup_delete_ne | by rewrite lookup_insert_ne].
Qed.

Lemma as_loaded_0th (d : exif_dict) (t : Z) :
  t ≠ ExifTag → t ≠ GPSTag →
  ifd_0th (as_loaded d) !! t = as_read <$> ifd_0th d !! t.
Proof.
  intros H1 H2. unfold as_loaded. cbn [ifd_0th].
  by rewrite !with_pointer_lookup, lookup_fmap.
Qed.

Lemma as_loaded_Exif (d : exif_dict) (t : Z) :
  ifd_Exif (as_loaded d) !! t = as_read <$> ifd_Exif d !! t.
Proof. unfold as_loaded. cbn [ifd_Exif]. by rewrite lookup_fmap. Qed.

(** So a date tag written as bytes is read back as written. *)
Lemma as_loaded_date_tag (d : exif_dict) (tag : ifd_name * Z) (date : string) :
  tag ∈ date_tags →
  exif_get d tag.1 tag.2 = inr (EBytes date) →
  exif_get (as_loaded d) tag.1 tag.2 = inr (EBytes date).
Proof.
  intros Htag. unfold date_tags in Htag.
  repeat (apply elem_of_cons in Htag as [->|Htag]);
    [| | |by apply elem_of_nil in Htag]; unfold exif_get; cbn [fst snd];
    rewrite ?as_loaded_0th, ?as_loaded_Exif by done.
  - destruct (ifd_0th d !! TAG_DATE_TIME); by intros [= ->].
  - destruct (ifd_Exif d !! TAG_DATE_TIME_ORIGINAL); by intros [= ->].
  - destruct (ifd_Exif d !! TAG_DATE_TIME_DIGITIZED); by intros [= ->].
Qed.
(** ** MetadataFixer: what a call leaves behind *)

Section preserves.
Context (R : State → State → Prop) `{!PreOrder R}.

Lemma preserves_ret {A} (a : A) : preserves R (mret a).
Proof. intros st r st' [= _ <-]. done. Qed.

Lemma preserves_raise {A} (e : exn) : preserves R (@raise A e).
Proof. intros st r st' [= _ <-]. done. Qed.

Lemma preserves_lift {A} (x : exn + A) : preserves R (lift x).
Proof. intros st r st' [= _ <-]. done. Qed.

Lemma preserves_modify (f : State → State) :
  (∀ st, R st (f st)) → preserves R (modify f).
Proof. intros Hf st r st' [= _ <-]. apply Hf. Qed.

Lemma preserves_bind {A B} (m : M A) (k : A → M B) :
  preserves R m → (∀ a, preserves R (k a)) → preserves R (m ≫= k).
Proof.
  intros Hm Hk st r st'. unfold mbind, M_bind.
  destruct (m st) as [[e|a] st1] eqn:Hrun.
  - intros [= _ <-]. by apply (Hm _ _ _ Hrun).
  - intros Hrun'. trans st1; [by apply (Hm _ _ _ Hrun) | by apply (Hk a _ _ _ Hrun')].
Qed.

Lemma preserves_try_except {A} (body : M A) (catches : exn → bool)
    (handler : exn → M A) :
  preserves R body → (∀ e, preserves R (handler e)) →
  preserves R (try_except body catches handler).
Proof.
  intros Hbody Hhandler st r st'. unfold try_except.
  destruct (body st) as [[e|a] st1] eqn:Hrun.
  - destruct (catches e).
    + intros Hrun'. trans st1; [by apply (Hbody _ _ _ Hrun) | by apply (Hhandler e _ _ _ Hrun')].
    + intros [= _ <-]. by apply (Hbody _ _ _ Hrun).
  - intros [= _ <-]. by apply (Hbody _ _ _ Hrun).
Qed.

Lemma preserves_for_each {A} (body : A → M unit) (l : list A) :
  (∀ x, x ∈ l → preserves R (body x)) → preserves R (for_each body l).
Proof.
  induction l as [|x l IH]; intros Hbody; cbn [for_each].
  - apply preserves_ret.
  - apply preserves_bind; [apply Hbody, list_elem_of_here|].
    intros _. apply IH. intros y Hy. by apply Hbody, list_elem_of_further.
Qed.
End preserves.

#[local] Instance touches_only_preorder (file : Path) : PreOrder (touches_only file).
Proof.
  split.
  - intros st. by repeat split.
  - intros st1 st2 st3 (Ho1 & Hm1 & ? & ? & ? & ?) (Ho2 & Hm2 & ? & ? & ? & ?).
    split; [|split; [|repeat split; by etrans]].
    + intros g Hg. destruct (Ho1 g Hg) as [<- <-]. by apply Ho2.
    + auto.
Qed.

Lemma touches_only_set_mtime (file : Path) (timestamp : Z) (st : State) :
  touches_only file st (set_mtime <[file := timestamp]> st).
Proof.
  split; [|split; [|by repeat split]].
  - intros g Hg. cbn. by rewrite lookup_insert_ne.
  - intros _. cbn. rewrite lookup_insert_eq. by eexists.
Qed.

Lemma touches_only_set_exif (file : Path) (d : exif_dict) (st : State) :
  touches_only file st (set_exif <[file := d]> st).
Proof.
  split; [|by repeat split].
  intros g Hg. cbn. by rewrite lookup_insert_ne.
Qed.

Lemma touches_only_lists (file : Path) (st st' : State) :
  exif_of st' = exif_of st → mtime_of st' = mtime_of st →
  s_cant_insert_exif_files st `prefix_of` s_cant_insert_exif_files st' →
  s_date_from_folder_files st `prefix_of` s_date_from_folder_files st' →
  s_no_json_found st `prefix_of` s_no_json_found st' →
  s_no_date_at_all st `prefix_of` s_no_date_at_all st' →
  touches_only file st st'.
Proof. intros He Hm ? ? ? ?. unfold touches_only. rewrite He, Hm. by repeat split. Qed.

Ltac by_frame :=
  solve [ apply preserves_ret; apply _
        | apply preserves_raise; apply _
        | apply preserves_lift; apply _ ].

Section fixer_frame.
Context (W : World) (file : Path).
Let T := touches_only file.

Lemma set_creation_date_from_str_frame (str_datetime : string) :
  preserves T (set_creation_date_from_str W file str_datetime).
Proof.
  intros st r st'. rewrite set_creation_date_from_str_cases.
  destruct (strptime_timestamp W _); [destruct (utime_ok W file)|];
    intros [= _ <-]; try done.
  apply touches_only_set_mtime.
Qed.

Lemma set_file_exif_date_frame (creation_date : string) :
  preserves T (set_file_exif_date W file creation_date).
Proof.
  intros st r st'. rewrite set_file_exif_date_cases.
  destruct (insert_ok W file _); intros [= _ <-].
  - apply touches_only_set_exif.
  - apply touches_only_lists; try done. cbn. by apply prefix_app_r.
Qed.

Lemma piexif_load_frame : preserves T (piexif_load file).
Proof.
  intros st r st'. unfold piexif_load.
  destruct (exif_of st !! file); by intros [= _ <-].
Qed.

Lemma piexif_insert_frame (d : exif_dict) : preserves T (piexif_insert W d file).
Proof.
  intros st r st'. unfold piexif_insert.
  destruct (insert_ok W file d); intros [= _ <-]; [|done].
  apply touches_only_set_exif.
Qed.

Lemma set_file_geo_data_frame (json : json) :
  preserves T (set_file_geo_data W file json).
Proof.
  unfold set_file_geo_data.
  apply preserves_bind; [apply _| |].
  { apply preserves_try_except; [apply _|apply piexif_load_frame|].
    intros _. by_frame. }
  intros d. apply preserves_bind; [apply _|by_frame|].
  intros [[lo la] al]. apply preserves_bind; [apply _|by_frame|].
  intros gps_ifd.
  apply preserves_try_except; [apply _|apply piexif_insert_frame|].
  intros _. by_frame.
Qed.

Lemma index_json_frame (folder : Path) (j : json) (st : State) :
  T st (index_json folder j st).
Proof.
  unfold index_json. destruct (contains "title" j) as [|[|]]; [done| |done].
  destruct (getitem j "title") as [|[]]; by apply touches_only_lists.
Qed.

Lemma load_folder_frame (folder : Path) (st : State) : T st (load_folder W folder st).
Proof.
  unfold load_folder. generalize (w_rglob_json W folder). intros files.
  revert st. induction files as [|f files IH]; intros st; [done|].
  cbn [foldl]. etrans; [|apply IH].
  destruct (load_json W f); [apply index_json_frame | done].
Qed.

Lemma find_json_for_file_frame : preserves T (find_json_for_file W file).
Proof.
  intros st r st'. unfold find_json_for_file.
  destruct (w_is_file W _).
  { destruct (load_json W _); by intros [= _ <-]. }
  set (st1 := if bool_decide _ then st else _).
  assert (T st st1).
  { unfold st1. case_bool_decide; [done | apply load_folder_frame]. }
  destruct (_ ≫= _); intros [= _ <-]; [done|].
  etrans; [done|]. apply touches_only_lists; try done. cbn. by apply prefix_app_r.
Qed.

Lemma date_tags_loop_frame (d : exif_dict) (tags : list (ifd_name * Z)) :
  preserves T (date_tags_loop W file d tags).
Proof.
  induction tags as [|tag tags IH]; cbn [date_tags_loop].
  - by_frame.
  - apply preserves_try_except; [apply _| |done].
    apply preserves_bind; [apply _|by_frame|].
    intros s. apply preserves_bind; [apply _|apply set_creation_date_from_str_frame|].
    intros _. by_frame.
Qed.

Lemma exif_step_frame : preserves T (exif_step W file).
Proof.
  unfold exif_step, set_creation_date_from_exif.
  apply preserves_try_except; [apply _| |intros _; by_frame].
  apply preserves_bind; [apply _| |intros _; by_frame].
  apply preserves_bind; [apply _| |].
  { apply preserves_try_except; [apply _|apply piexif_load_frame|].
    intros _. by_frame. }
  intros d. apply preserves_bind; [apply _|apply date_tags_loop_frame|].
  intros []; [by_frame | by_frame].
Qed.

Lemma sidecar_step_frame : preserves T (sidecar_step W file).
Proof.
  unfold sidecar_step.
  apply preserves_try_except; [apply _| |intros _; by_frame].
  apply preserves_bind; [apply _|apply find_json_for_file_frame|]. intros j.
  apply preserves_bind; [apply _|by_frame|]. intros date.
  apply preserves_bind; [apply _|apply set_file_geo_data_frame|]. intros _.
  apply preserves_bind; [apply _|apply set_file_exif_date_frame|]. intros _.
  apply preserves_bind; [apply _|apply set_creation_date_from_str_frame|]. intros _.
  by_frame.
Qed.

Lemma folder_step_frame (has_nice_date : bool) :
  preserves T (folder_step W file has_nice_date).
Proof.
  unfold folder_step. destruct has_nice_date; [by_frame|].
  apply preserves_bind; [apply _|by_frame|]. intros meta_date.
  apply preserves_bind; [apply _| |].
  { destruct meta_date; [by_frame|].
    apply preserves_bind; [apply _| |intros _; by_frame].
    apply preserves_modify. intros st. apply touches_only_lists; try done.
    cbn. by apply prefix_app_r. }
  intros date.
  apply preserves_bind; [apply _|apply set_file_exif_date_frame|]. intros _.
  apply preserves_bind; [apply _|apply set_creation_date_from_str_frame|]. intros _.
  apply preserves_bind; [apply _| |intros _; by_frame].
  apply preserves_modify. intros st. apply touches_only_lists; try done.
  cbn. by apply prefix_app_r.
Qed.

Lemma fix_metadata_frame : preserves T (fix_metadata W file).
Proof.
  unfold fix_metadata.
  apply preserves_bind; [apply _|apply exif_step_frame|]. intros has_nice_date.
  apply preserves_bind; [apply _|apply sidecar_step_frame|].
  intros [b|]; [by_frame | apply folder_step_frame].
Qed.
End fixer_frame.

(** ** MetadataFixer: the fallback chain *)

(** A sidecar that is not found, for whatever reason, is what the sidecar
    step catches. *)
Lemma sidecar_step_not_found (W : World) (file : Path) (st st1 : State) (e : exn) :
  find_json_for_file W file st = (inl e, st1) →
  sidecar_step W file st = (inr None, st1).
Proof.
  intros Hfind. pose proof (find_json_for_file_raises _ _ _ _ _ Hfind) as ->.
  unfold sidecar_step. unfold_M. by rewrite Hfind.
Qed.

(** A file with no literal sidecar and none found by title is recorded. *)
Lemma find_json_for_file_records (W : World) (file : Path) (st st1 : State) (e : exn) :
  w_is_file W (with_name file (name file +:+ ".json")) = false →
  find_json_for_file W file st = (inl e, st1) →
  str file ∈ s_no_json_found st1.
Proof.
  intros Hfile. unfold find_json_for_file. rewrite Hfile.
  destruct (_ ≫= _); intros [= _ <-]. cbn. apply elem_of_app. right.
  apply list_elem_of_here.
Qed.

(** The date write: the dict handed to the codec has the date in its
    three date tags; the file holds it, as read back, when the codec
    accepts it, and is recorded when the codec rejects it. *)
Lemma set_file_exif_date_records (W : World) (file : Path) (date : string)
    (st : State) :
  ∃ d st',
    set_file_exif_date W file date st = (inr (), st')
    ∧ (∀ tag, tag ∈ date_tags → exif_get d tag.1 tag.2 = inr (EBytes date))
    ∧ (if insert_ok W file d then exif_of st' !! file = Some (as_loaded d)
       else str file ∈ s_cant_insert_exif_files st')
    ∧ s_no_json_found st' = s_no_json_found st
    ∧ s_no_date_at_all st' = s_no_date_at_all st.
Proof.
  rewrite set_file_exif_date_cases. cbv zeta.
  match goal with |- context [insert_ok W file ?x] => exists x end.
  eexists. split; [done|]. split.
  - intros tag Htag. unfold date_tags in Htag.
    repeat (apply elem_of_cons in Htag as [->|Htag]);
      [| | |by apply elem_of_nil in Htag]; unfold exif_get; cbn.
    + by rewrite lookup_insert_eq.
    + rewrite lookup_insert_ne by done. by rewrite lookup_insert_eq.
    + by rewrite lookup_insert_eq.
  - destruct (insert_ok W file _); cbn.
    + by rewrite lookup_insert_eq.
    + split; [|done]. apply elem_of_app. right. apply list_elem_of_here.
Qed.

(** A sidecar that is found and usable is used: the step returns [True],
    after the write of the sidecar's date. *)
Lemma sidecar_step_found (W : World) (file : Path) (st st1 : State) (j : json) :
  find_json_for_file W file st = (inr j, st1) →
  utime_ok W file = true →
  sidecar_usable W j →
  ∃ st' d date,
    sidecar_step W file st = (inr (Some true), st')
    ∧ get_date_str_from_json W j = inr date
    ∧ (∀ tag, tag ∈ date_tags → exif_get d tag.1 tag.2 = inr (EBytes date))
    ∧ (if insert_ok W file d then exif_of st' !! file = Some (as_loaded d)
       else str file ∈ s_cant_insert_exif_files st').
Proof.
  intros Hfind Hutime [(date & Hdate & ts & Hts) [gps_ifd Hgps]].
  unfold sidecar_step. unfold_M. rewrite Hfind, Hdate.
  rewrite set_file_geo_data_cases, Hgps. cbv beta iota zeta.
  match goal with
  | |- context [set_file_exif_date W file date ?s] =>
      destruct (set_file_exif_date_records W file date s)
        as (d & sd & -> & Htags & Hcase & _)
  end.
  rewrite set_creation_date_from_str_cases, Hts, Hutime.
  exists (set_mtime <[file := ts]> sd), d, date.
  split; [done|]. split; [done|]. split; [done|]. exact Hcase.
Qed.

(** The last step: the date of the album, or the default date, is
    written, and the file is recorded as dated from the folder, and as
    having no date at all when the album gave none. *)
Lemma folder_step_runs (W : World) (file : Path) (st : State) :
  utime_ok W file = true →
  album_date_usable W (parent file) →
  ∃ st' d r,
    folder_step W file false st = (inr true, st')
    ∧ get_date_from_folder_meta W (parent file) = inr r
    ∧ (∀ tag, tag ∈ date_tags →
              exif_get d tag.1 tag.2
              = inr (EBytes (default DATE_NOT_FOUND_DATE r)))
    ∧ (if insert_ok W file d then exif_of st' !! file = Some (as_loaded d)
       else str file ∈ s_cant_insert_exif_files st')
    ∧ str file ∈ s_date_from_folder_files st'
    ∧ (r = None → str file ∈ s_no_date_at_all st').
Proof.
  intros Hutime (r & Hr & ts & Hts). unfold folder_step. unfold_M. rewrite Hr.
  destruct r as [date|]; cbn [default from_option id] in *; cbv beta iota zeta;
    match goal with
    | |- context [set_file_exif_date W file ?dt ?s] =>
        destruct (set_file_exif_date_records W file dt s)
          as (d & sd & -> & Htags & Hcase & _ & Hnd)
    end;
    rewrite set_creation_date_from_str_cases, Hts, Hutime;
    (eexists _, d, _; split; [done|]); (split; [done|]);
    (split; [exact Htags|]); (split; [exact Hcase|]); cbn.
  - split; [|done]. apply elem_of_app. right. apply list_elem_of_here.
  - split; [apply elem_of_app; right; apply list_elem_of_here|].
    intros _. rewrite Hnd. cbn. apply elem_of_app. right.
    apply list_elem_of_here.
Qed.

(** C3 (amended): take a file whose embedded date tags, where present,
    are bytes, and on which [os.utime] works; let its sidecar, if this run
    finds one, be usable (date and position are read, the date parses,
    the position converts), and let the date of the folder step, if this
    run comes to that step, be usable.  Then a failed EXIF load, missing or
    bad embedded date tags, a sidecar that is missing or does not parse,
    and an EXIF insert the codec rejects do not stop the chain:
    [fix_metadata] goes through its steps and returns [True].  What is
    recorded: a file with no literal sidecar and none found by title is in
    [s_no_json_found]; a file whose date insert the codec rejected is in
    [s_cant_insert_exif_files] (and the file holds the dict with the date,
    as the codec reads it back, when the codec accepted it); a file that
    got the default date, for want of album metadata, is in
    [s_no_date_at_all]. *)
Theorem fix_metadata_continues (W : World) (file : Path) (st : State) :
  date_tags_are_bytes st file →
  utime_ok W file = true →
  (∀ has_nice_date st1 j st2,
     exif_step W file st = (inr has_nice_date, st1) →
     find_json_for_file W file st1 = (inr j, st2) →
     sidecar_usable W j) →
  (∀ st1 st2,
     exif_step W file st = (inr false, st1) →
     sidecar_step W file st1 = (inr None, st2) →
     album_date_usable W (parent file)) →
  ∃ has_nice_date st1 r st2 st',
    exif_step W file st = (inr has_nice_date, st1)
    ∧ sidecar_step W file st1 = (inr r, st2)
    ∧ fix_metadata W file st = (inr true, st')
    ∧ (r = None →
       w_is_file W (with_name file (name file +:+ ".json")) = false →
       str file ∈ s_no_json_found st')
    ∧ (r ≠ None ∨ has_nice_date = false →
       ∃ d date,
         (∀ tag, tag ∈ date_tags → exif_get d tag.1 tag.2 = inr (EBytes date))
         ∧ if insert_ok W file d then exif_of st' !! file = Some (as_loaded d)
           else str file ∈ s_cant_insert_exif_files st')
    ∧ (r = None → has_nice_date = false →
       get_date_from_folder_meta W (parent file) = inr None →
       str file ∈ s_no_date_at_all st').
Proof.
  intros Hbytes Hutime Hside Halbum.
  destruct (exif_step_returns W file st Hbytes) as (has_nice_date & st1 & Hexif).
  exists has_nice_date, st1. unfold fix_metadata, mbind, M_bind. rewrite Hexif.
  destruct (find_json_for_file W file st1) as [[e|j] st2] eqn:Hfind.
  - pose proof (sidecar_step_not_found _ _ _ _ _ Hfind) as Hstep.
    rewrite Hstep. exists None, st2.
    destruct has_nice_date.
    + exists st2. split; [done|]. split; [done|]. split; [done|].
      split; [|split].
      * intros _ Hfile. by eapply find_json_for_file_records.
      * by intros [|].
      * done.
    + destruct (folder_step_runs W file st2 Hutime (Halbum _ _ Hexif Hstep))
        as (st' & d & r & Hfolder & Hr & Htags & Hcase & _ & Hnone).
      exists st'. split; [done|]. split; [done|]. split; [done|].
      split; [|split].
      * intros _ Hfile.
        pose proof (find_json_for_file_records _ _ _ _ _ Hfile Hfind) as Hin.
        destruct (folder_step_frame W file false _ _ _ Hfolder)
          as (_ & _ & _ & _ & [k ->] & _).
        apply elem_of_app. by left.
      * intros _. by exists d, (default DATE_NOT_FOUND_DATE r).
      * intros _ _ Hr'. apply Hnone. congruence.
  - destruct (sidecar_step_found W file st1 st2 j Hfind Hutime
                (Hside _ _ _ _ Hexif Hfind))
      as (st' & d & date & Hstep & _ & Htags & Hcase).
    rewrite Hstep. exists (Some true), st', st'.
    split; [done|]. split; [done|]. split; [done|]. split; [done|].
    split; [|done]. intros _. by exists d, date.
Qed.

Lemma fix_metadata_continues_witness :
  (∃ st, fix_metadata broken_sidecar_world a_photo no_exif = (inr true, st)
         ∧ str a_photo ∈ s_cant_insert_exif_files st
         ∧ str a_photo ∈ s_no_date_at_all st)
  ∧ (∃ st, fix_metadata bare_world a_photo no_exif = (inr true, st)
           ∧ str a_photo ∈ s_no_json_found st)
  ∧ (∃ st, fix_metadata sidecar_world a_photo dated_exif = (inr true, st)).
Proof.
  split; [|split].
  - destruct (fix_metadata_continues broken_sidecar_world a_photo no_exif)
      as (h & st1 & r & st2 & st' & Hexif & Hside & Hfix & _ & Hrej & Hnone).
    + intros d tag v Hd. vm_compute in Hd. discriminate.
    + reflexivity.
    + intros h st1 j st2 Hexif Hfind. vm_compute in Hexif.
      injection Hexif as <- <-. vm_compute in Hfind. discriminate.
    + intros _ _ _ _. exists None. split; [vm_compute; reflexivity|].
      by eexists.
    + vm_compute in Hexif. injection Hexif as <- <-.
      vm_compute in Hside. injection Hside as <- <-.
      exists st'. split; [exact Hfix|]. split.
      * destruct Hrej as (d & date & _ & Hrec); [by right|]. exact Hrec.
      * apply Hnone; [done..|]. vm_compute. reflexivity.
  - destruct (fix_metadata_continues bare_world a_photo no_exif)
      as (h & st1 & r & st2 & st' & Hexif & Hside & Hfix & Hmiss & _).
    + intros d tag v Hd. vm_compute in Hd. discriminate.
    + reflexivity.
    + intros h st1 j st2 Hexif Hfind. vm_compute in Hexif.
      injection Hexif as <- <-. vm_compute in Hfind. discriminate.
    + intros _ _ _ _. exists None. split; [vm_compute; reflexivity|].
      by eexists.
    + vm_compute in Hexif. injection Hexif as <- <-.
      vm_compute in Hside. injection Hside as <- <-.
      exists st'. split; [exact Hfix|]. apply Hmiss; [done|].
      vm_compute. reflexivity.
  - destruct (fix_metadata_continues sidecar_world a_photo dated_exif)
      as (h & st1 & r & st2 & st' & _ & _ & Hfix & _).
    + intros d tag v Hd. vm_compute in Hd. injection Hd as <-.
      intros Htag Hget. repeat (apply elem_of_cons in Htag as [->|Htag]);
        [vm_compute in Hget; try discriminate ..|by apply elem_of_nil in Htag].
      injection Hget as <-. by eexists.
    + reflexivity.
    + intros h st1 j st2 Hexif Hfind. vm_compute in Hexif.
      injection Hexif as <- <-. vm_compute in Hfind. injection Hfind as <- <-.
      split.
      * eexists. split; [vm_compute; reflexivity|]. by eexists.
      * eexists. vm_compute. reflexivity.
    + intros st1 st2 Hexif. vm_compute in Hexif. discriminate.
    + by exists st'.
Defined.

(** C3, as stated, fails: [os.utime] fails on [a.jpg], the [ValueError]
    that [set_creation_date_from_str] makes of it leaves [fix_metadata] and
    the loop over the tree, and [b.jpg], next in the tree, is never
    looked at. *)
Lemma utime_failure_aborts_run :
  w_rglob readonly_world in_dir = [album_dir; a_photo; b_photo]
  ∧ ∃ st, fix_all readonly_world in_dir any_file no_exif = (inl ValueError, st)
          ∧ mtime_of st !! b_photo = None
          ∧ exif_of st !! b_photo = None
          ∧ s_no_json_found st = [str a_photo]
          ∧ s_date_from_folder_files st = [].
Proof.
  split; [vm_compute; reflexivity|].
  eexists. split; [vm_compute; reflexivity|]. repeat split; vm_compute; reflexivity.
Qed.

(** The same tree with working timestamps: both files are processed. *)
Example bare_run_completes :
  ∃ st, fix_all bare_world in_dir any_file no_exif = (inr (), st)
        ∧ s_no_date_at_all st = [str a_photo; str b_photo].
Proof. eexists. split; vm_compute; reflexivity. Qed.

(** A sidecar without "geoData" stops the run too: the [KeyError] is not
    among the exceptions the sidecar step catches. *)
Example missing_geo_data_aborts_run :
  ∃ st, fix_all no_geo_world in_dir any_file no_exif = (inl KeyError, st).
Proof. eexists. vm_compute. reflexivity. Qed.

(** A loop whose body returns on every element returns. *)
Lemma for_each_returns {A} (body : A → M unit) (l : list A) (st : State) :
  (∀ x st, x ∈ l → returns (body x) st) → returns (for_each body l) st.
Proof.
  revert st. induction l as [|x l IH]; intros st Hbody; [by eexists _, _|].
  cbn [for_each]. unfold returns, mbind, M_bind.
  destruct (Hbody x st (list_elem_of_here _ _)) as ([] & st1 & ->).
  apply IH. intros y st' Hy. apply Hbody. by apply list_elem_of_further.
Qed.

(** So the first phase of [main] goes through the whole tree when
    [fix_metadata] returns on each media file. *)
Lemma fix_all_returns (W : World) (dir : Path) (is_media : Path → bool) (st : State) :
  (∀ file st, file ∈ w_rglob W dir → is_media file = true →
              returns (fix_metadata W file) st) →
  returns (fix_all W dir is_media) st.
Proof.
  intros Hfix. unfold fix_all, for_all_files_recursive.
  apply for_each_returns. intros file st' Hfile.
  destruct (w_lookup W file) as [[|j]|]; unfold returns, mbind, M_bind, mret, M_ret.
  - by eexists _, _.
  - destruct (is_media file) eqn:Hmedia; [|by eexists _, _].
    destruct (Hfix file st' Hfile Hmedia) as (b & st'' & ->). by eexists _, _.
  - by eexists _, _.
Qed.

(** C6: when the literal [<filename>.json] exists and does not parse, the
    lookup raises [FileNotFoundError] at once (the per-folder title index is
    neither built nor read, nothing is recorded), the caller catches it as
    it catches a missing sidecar, and the chain goes on with what follows
    the sidecar step. *)
Theorem unparseable_sidecar_is_not_found (W : World) (file : Path) (st : State) :
  w_is_file W (with_name file (name file +:+ ".json")) = true →
  load_json W (with_name file (name file +:+ ".json")) = None →
  (∀ st1, find_json_for_file W file st1 = (inl FileNotFoundError, st1))
  ∧ (∀ st1, sidecar_step W file st1 = (inr None, st1))
  ∧ fix_metadata W file st
    = (has_nice_date ← exif_step W file; folder_step W file has_nice_date) st.
Proof.
  intros Hfile Hload.
  assert (Hfind : ∀ st1, find_json_for_file W file st1 = (inl FileNotFoundError, st1)).
  { intros st1. unfold find_json_for_file. by rewrite Hfile, Hload. }
  assert (Hside : ∀ st1, sidecar_step W file st1 = (inr None, st1)).
  { intros st1. unfold sidecar_step. unfold_M. by rewrite Hfind. }
  split; [done|]. split; [done|].
  unfold fix_metadata, mbind, M_bind.
  destruct (exif_step W file st) as [[e|b] st1]; [done|]. by rewrite Hside.
Qed.

Lemma unparseable_sidecar_is_not_found_witness :
  sidecar_step broken_sidecar_world a_photo no_exif = (inr None, no_exif).
Proof.
  destruct (unparseable_sidecar_is_not_found broken_sidecar_world a_photo no_exif)
    as (_ & Hside & _).
  - vm_compute. reflexivity.
  - vm_compute. reflexivity.
  - apply Hside.
Defined.

(** A sidecar that is simply missing is caught the same way, except that
    the file is also listed in [s_no_json_found]. *)
Example missing_sidecar_is_not_found :
  sidecar_step bare_world a_photo no_exif
  = (inr None, set_no_json_found (λ l, l ++ [str a_photo]) no_exif).
Proof. vm_compute. reflexivity. Qed.

(** With no album metadata in the folder, the last step takes the default
    date, lists the file as having no date at all, and then lists it as
    dated from the folder as well. *)
Lemma folder_step_default_date (W : World) (file : Path) (st : State) :
  get_date_from_folder_meta W (parent file) = inr None →
  utime_ok W file = true →
  is_Some (strptime_timestamp W (normalize_datetime DATE_NOT_FOUND_DATE)) →
  ∃ st', folder_step W file false st = (inr true, st')
         ∧ s_no_date_at_all st' = s_no_date_at_all st ++ [str file]
         ∧ s_date_from_folder_files st' = s_date_from_folder_files st ++ [str file]
         ∧ mtime_of st' !! file
           = strptime_timestamp W (normalize_datetime DATE_NOT_FOUND_DATE).
Proof.
  intros Hnone Hutime [ts Hts]. unfold folder_step. unfold_M.
  rewrite Hnone, set_file_exif_date_cases, set_creation_date_from_str_cases.
  rewrite Hts, Hutime. eexists. split; [done|].
  destruct (insert_ok W file _); cbn; by rewrite lookup_insert_eq.
Qed.

(** C5: a photo with no EXIF, no sidecar and no album metadata gets the
    default date in its three date tags and as its modification time, and
    is listed in [s_no_date_at_all]; but it is listed in
    [s_date_from_folder_files] too. *)
Theorem no_date_file_listed_twice :
  ∃ st, fix_metadata bare_world a_photo no_exif = (inr true, st)
        ∧ (exif_of st !! a_photo ≫= λ d, ifd_0th d !! TAG_DATE_TIME)
          = Some (EBytes "1971:01:01 01:01:01")
        ∧ (exif_of st !! a_photo ≫= λ d, ifd_Exif d !! TAG_DATE_TIME_ORIGINAL)
          = Some (EBytes "1971:01:01 01:01:01")
        ∧ (exif_of st !! a_photo ≫= λ d, ifd_Exif d !! TAG_DATE_TIME_DIGITIZED)
          = Some (EBytes "1971:01:01 01:01:01")
        ∧ mtime_of st !! a_photo = Some 31539661%Z
        ∧ s_no_date_at_all st = [str a_photo]
        ∧ s_date_from_folder_files st = [str a_photo].
Proof.
  eexists. split; [vm_compute; reflexivity|]. repeat split; vm_compute; reflexivity.
Qed.
(** * Further properties *)

(** ** ContentHasher: what is fed to the hash object *)

Section hasher_more.
Context {digest : Type} (hash_algo : list byte → digest).

(** X1: [get_hash] raises what [open] raises (before anything is hashed)
    and otherwise returns the digest of the file's content, whatever its
    length: reading in chunks of 1024 bytes loses, repeats and reorders
    nothing.  With [first_chunk_only] it is the digest of the first 1024
    bytes. *)
Theorem get_hash_digest_of_content (fs : FS) (file : Path)
    (first_chunk_only : bool) :
  get_hash hash_algo fs file first_chunk_only
  = match open_rb fs file with
    | inl e => inl e
    | inr content =>
        inr (hash_algo (if first_chunk_only then take 1024 content else content))
    end.
Proof.
  destruct first_chunk_only.
  - rewrite get_hash_partial. by destruct (open_rb fs file).
  - rewrite get_hash_full. by destruct (open_rb fs file).
Qed.
End hasher_more.

(** X2: the generator [chunk_reader] yields, in order, the slices
    [f[i*chunk_size : (i+1)*chunk_size]] that start inside the content, and
    nothing else: no empty chunk, and only the last one may be short. *)
Theorem chunk_reader_slices (chunk_size fuel : nat) (f : fobj) :
  0 < chunk_size → length f < fuel →
  ∃ chunks,
    chunk_reader fuel f chunk_size = Some chunks
    ∧ ∀ i c, chunks !! i = Some c
             ↔ i * chunk_size < length f
               ∧ c = take chunk_size (drop (i * chunk_size) f).
Proof.
  intros Hcs. revert f.
  induction fuel as [|fuel IH]; intros f Hlen; [lia|].
  cbn [chunk_reader read].
  destruct (take chunk_size f) as [|b chunk] eqn:Htake.
  - exists []. split; [done|].
    assert (f = []) as ->.
    { destruct f as [|b f]; [done|]. destruct chunk_size; [lia | discriminate]. }
    intros i c. cbn. split; [done | lia].
  - assert (length f ≠ 0) by (destruct f; [by rewrite take_nil in Htake | done]).
    destruct (IH (drop chunk_size f)) as (cs & -> & Hcs').
    { rewrite length_drop. lia. }
    exists ((b :: chunk) :: cs). split; [done|].
    intros [|i] c.
    + cbn [lookup list_lookup]. rewrite Nat.mul_0_l, drop_0, Htake.
      split; [intros [= <-]; split; [lia | done] | intros [_ ->]; done].
    + cbn [lookup list_lookup]. fold (@lookup _ _ _ (@list_lookup (list byte))).
      rewrite Hcs'.
      rewrite length_drop, drop_drop.
      replace (chunk_size + i * chunk_size) with (S i * chunk_size) by lia.
      split; intros [? ?]; (split; [lia | done]).
Qed.

Lemma chunk_reader_slices_witness :
  ∃ chunks,
    chunk_reader 4 [x01; x02; x03]%byte 2 = Some chunks
    ∧ ∀ i c, chunks !! i = Some c
             ↔ i * 2 < length [x01; x02; x03]%byte
               ∧ c = take 2 (drop (i * 2) [x01; x02; x03]%byte).
Proof. apply (chunk_reader_slices 2 4 [x01; x02; x03]%byte); simpl; lia. Defined.

(** ** Multimaps: what a pass of appends leaves *)

Section multimap_more.
Context {K V : Type} `{HK : EqDecision K}.
Implicit Types (m : multimap K V) (k : K) (v : V).

(** Appends under the steps of a loop add up, key by key. *)
Lemma mm_get_foldl {A} (step : multimap K V → A → multimap K V)
    (c : A → list V) k :
  (∀ m x, mm_get k (step m x) = mm_get k m ++ c x) →
  ∀ l m, mm_get k (foldl step m l) = mm_get k m ++ concat (c <$> l).
Proof.
  intros Hstep. induction l as [|x l IH]; intros m; cbn.
  - by rewrite app_nil_r.
  - by rewrite IH, Hstep, <- app_assoc.
Qed.

Lemma mm_values_append k v m :
  concat (mm_values (mm_append k v m)) ≡ₚ v :: concat (mm_values m).
Proof.
  unfold mm_values. induction m as [|[k0 vs] m IH]; cbn; [done|].
  case_decide; cbn.
  - rewrite <- app_assoc. symmetry. apply Permutation_middle.
  - rewrite IH. symmetry. apply Permutation_middle.
Qed.

Lemma mm_values_foldl {A} (step : multimap K V → A → multimap K V)
    (c : A → list V) :
  (∀ m x, concat (mm_values (step m x)) ≡ₚ concat (mm_values m) ++ c x) →
  ∀ l m, concat (mm_values (foldl step m l))
         ≡ₚ concat (mm_values m) ++ concat (c <$> l).
Proof.
  intros Hstep. induction l as [|x l IH]; intros m.
  - cbn [foldl fmap list_fmap concat]. by rewrite app_nil_r.
  - cbn [foldl]. rewrite fmap_cons. cbn [concat].
    by rewrite IH, Hstep, <- app_assoc.
Qed.

(** Whatever holds of each value and the key it is appended under holds
    of every member of every item. *)
Lemma mm_append_items (P : K → V → Prop) k v m :
  (∀ k' vs x, (k', vs) ∈ m → x ∈ vs → P k' x) → P k v →
  ∀ k' vs x, (k', vs) ∈ mm_append k v m → x ∈ vs → P k' x.
Proof.
  intros Hm Hv. induction m as [|[k0 vs0] m IH]; cbn; intros k' vs x.
  - intros [=-> ->]%list_elem_of_singleton ->%list_elem_of_singleton. done.
  - case_decide as Hk.
    + subst k0. intros [[=-> ->]|Hin]%elem_of_cons.
      * intros [Hx| ->%list_elem_of_singleton]%elem_of_app; [|done].
        apply (Hm k vs0); [apply list_elem_of_here | done].
      * intros Hx. apply (Hm k' vs); [by apply list_elem_of_further | done].
    + intros [[=-> ->]|Hin]%elem_of_cons.
      * intros Hx. apply (Hm k0 vs0); [apply list_elem_of_here | done].
      * apply IH; [|done]. intros k1 vs1 x1 Hin1.
        apply (Hm k1 vs1). by apply list_elem_of_further.
Qed.

Lemma foldl_items {A} (step : multimap K V → A → multimap K V)
    (P : K → V → Prop) (l : list A) :
  (∀ m a, a ∈ l →
          (∀ k vs x, (k, vs) ∈ m → x ∈ vs → P k x) →
          ∀ k vs x, (k, vs) ∈ step m a → x ∈ vs → P k x) →
  ∀ m, (∀ k vs x, (k, vs) ∈ m → x ∈ vs → P k x) →
       ∀ k vs x, (k, vs) ∈ foldl step m l → x ∈ vs → P k x.
Proof.
  induction l as [|a l IH]; intros Hstep m Hm; cbn; [done|].
  apply IH.
  - intros m' a' Ha'. apply Hstep. by apply list_elem_of_further.
  - apply Hstep; [apply list_elem_of_here | done].
Qed.
End multimap_more.

Lemma NoDup_concat_sub {A B} (c p : A → list B) (l : list A) :
  (∀ x, c x `sublist_of` p x) →
  NoDup (concat (p <$> l)) → NoDup (concat (c <$> l)).
Proof.
  intros Hsub. intros Hnd; apply (sublist_NoDup _ (concat (p <$> l))); [exact Hnd|clear Hnd].
  induction l as [|x l IH]; cbn; [done|]. by apply sublist_app.
Qed.

Lemma sublist_concat_opt {A} (P : A → bool) (l : list A) :
  concat ((λ x, if P x then [x] else []) <$> l) `sublist_of` l.
Proof.
  induction l as [|x l IH]; cbn; [done|].
  destruct (P x); cbn; [by apply sublist_skip | by apply sublist_cons].
Qed.

Lemma two_distinct {A} (l : list A) (x : A) :
  NoDup l → 2 ≤ length l → x ∈ l → ∃ y, y ∈ l ∧ y ≠ x.
Proof.
  destruct l as [|a [|b l]]; cbn; [lia | lia |].
  intros [Hab _]%NoDup_cons _ [->|Hx]%elem_of_cons.
  - exists b. split; [set_solver|]. intros ->. set_solver.
  - exists a. split; [set_solver|]. intros ->. done.
Qed.

Lemma elem_of_concat {A} (x : A) (l : list (list A)) :
  x ∈ concat l ↔ ∃ g, x ∈ g ∧ g ∈ l.
Proof.
  induction l as [|g0 l IH]; cbn.
  - split; [by intros ?%elem_of_nil | by intros (? & _ & ?%elem_of_nil)].
  - rewrite elem_of_app, IH. split.
    + intros [?|(g & ? & ?)]; [exists g0 | exists g]; set_solver.
    + intros (g & ? & [->|?]%elem_of_cons); [by left | right; by exists g].
Qed.

(** ** DuplicateIndex: what a build of the index adds *)

Section find_duplicates_more.
Context {digest : Type} `{Hdigest : EqDecision digest} (hash_algo : list byte → digest).
Implicit Types (fs : FS) (p path : Path).

Lemma mm_get_full_hash_tier fs h groups m :
  mm_get h (foldl (full_hash_step hash_algo fs) m groups)
  = mm_get h m ++ mm_get h (foldl (full_hash_step hash_algo fs) [] groups).
Proof.
  set (c1 := λ p, if decide (hash_key hash_algo fs false p = Some h)
                  then [p] else []).
  set (c := λ files : list Path,
              if length files <? 2 then [] else concat (c1 <$> files)).
  assert (Hstep : ∀ m x, mm_get h (full_hash_step hash_algo fs m x)
                         = mm_get h m ++ c x).
  { intros m' files. unfold full_hash_step, c.
    destruct (length files <? 2); [by rewrite app_nil_r|].
    apply mm_get_foldl. intros m'' p. unfold c1, hash_key.
    destruct (get_hash hash_algo fs p false) as [e|d].
    - rewrite decide_False by done. by rewrite app_nil_r.
    - rewrite mm_get_append.
      destruct (decide (h = d)) as [->|Hne].
      + by rewrite decide_True.
      + rewrite decide_False by congruence. by rewrite app_nil_r. }
  by rewrite !(mm_get_foldl _ c h Hstep).
Qed.

(** X3: [find_duplicates] appends to the module-level multimap: under
    every key, what an earlier call left stays where it was, and what this
    call finds comes after it. *)
Theorem find_duplicates_accumulates fs path (filter_function : Path → bool)
    (files_by_full_hash : multimap digest Path) (h : digest) :
  mm_get h (find_duplicates hash_algo fs path filter_function files_by_full_hash)
  = mm_get h files_by_full_hash
    ++ mm_get h (find_duplicates hash_algo fs path filter_function []).
Proof. unfold find_duplicates. apply mm_get_full_hash_tier. Qed.

Lemma size_tier_values fs filter_function l :
  NoDup l →
  NoDup (concat (mm_values (foldl (size_step fs filter_function) [] l))).
Proof.
  intros Hl.
  set (P := λ p, from_option (λ _, true) false (size_key fs filter_function p)).
  rewrite (mm_values_foldl _ (λ p, if P p then [p] else [])).
  - cbn. eapply sublist_NoDup; [exact Hl | apply sublist_concat_opt].
  - intros m p. unfold size_step, P, size_key.
    destruct (is_file fs p && filter_function p); cbn; [|by rewrite app_nil_r].
    destruct (stat_size fs p); cbn; [by rewrite app_nil_r|].
    rewrite mm_values_append. apply Permutation_cons_append.
Qed.

Lemma hash_fold_values fs (first_chunk_only : bool) {K} `{EqDecision K}
    (key : digest → K) (files : list Path) (m : multimap K Path) :
  concat (mm_values
            (foldl (λ acc path_item,
                      match get_hash hash_algo fs path_item first_chunk_only with
                      | inl _ => acc
                      | inr hash => mm_append (key hash) path_item acc
                      end) m files))
  ≡ₚ concat (mm_values m)
     ++ concat ((λ p, if from_option (λ _, true) false
                           (hash_key hash_algo fs first_chunk_only p)
                      then [p] else []) <$> files).
Proof.
  apply mm_values_foldl. intros m' p. unfold hash_key.
  destruct (get_hash hash_algo fs p first_chunk_only); cbn;
    [by rewrite app_nil_r|].
  rewrite mm_values_append. apply Permutation_cons_append.
Qed.

Lemma small_hash_tier_values fs (items : multimap nat Path) :
  NoDup (concat (mm_values items)) →
  NoDup (concat (mm_values (foldl (small_hash_step hash_algo fs) [] items))).
Proof.
  intros Hl.
  set (P := λ p, from_option (λ _, true) false (hash_key hash_algo fs true p)).
  set (c := λ item : nat * list Path,
              if length item.2 <? 2 then []
              else concat ((λ p, if P p then [p] else []) <$> item.2)).
  rewrite (mm_values_foldl _ c).
  - cbn. apply (NoDup_concat_sub c snd); [|exact Hl].
    intros [sz files]. unfold c. cbn [snd].
    destruct (length files <? 2); [apply sublist_nil_l | apply sublist_concat_opt].
  - intros m [sz files]. unfold small_hash_step, c. cbn [snd].
    destruct (length files <? 2); [by rewrite app_nil_r|].
    apply (hash_fold_values fs true (λ h, (sz, h))).
Qed.

Lemma full_hash_tier_values fs (groups : list (list Path)) :
  NoDup (concat groups) →
  NoDup (concat (mm_values (foldl (full_hash_step hash_algo fs) [] groups))).
Proof.
  intros Hl.
  set (P := λ p, from_option (λ _, true) false (hash_key hash_algo fs false p)).
  set (c := λ files : list Path,
              if length files <? 2 then []
              else concat ((λ p, if P p then [p] else []) <$> files)).
  rewrite (mm_values_foldl _ c).
  - cbn. apply (NoDup_concat_sub c id); [|by rewrite list_fmap_id].
    intros files. unfold c, id.
    destruct (length files <? 2); [apply sublist_nil_l | apply sublist_concat_opt].
  - intros m files. unfold full_hash_step, c.
    destruct (length files <? 2); [by rewrite app_nil_r|].
    apply (hash_fold_values fs false id).
Qed.

Lemma NoDup_rglob fs path : NoDup fs.*1 → NoDup (rglob fs path).
Proof. apply NoDup_filter. Qed.

Lemma find_duplicates_values fs path (filter_function : Path → bool) :
  NoDup fs.*1 →
  NoDup (concat (mm_values (find_duplicates hash_algo fs path filter_function []))).
Proof.
  intros Hfs. unfold find_duplicates.
  apply full_hash_tier_values, small_hash_tier_values, size_tier_values.
  by apply NoDup_rglob.
Qed.

(** X4: in an index built from the empty multimap over a tree (every path
    once), no path is listed twice: not within a group, and not in two
    groups. *)
Theorem find_duplicates_lists_once fs path (filter_function : Path → bool) :
  NoDup fs.*1 →
  NoDup (concat (mm_values (find_duplicates hash_algo fs path filter_function []))).
Proof. apply find_duplicates_values. Qed.

Lemma NoDup_concat_elem {A} (g : list A) (l : list (list A)) :
  g ∈ l → NoDup (concat l) → NoDup g.
Proof.
  induction l as [|g0 l IH]; [by intros ?%elem_of_nil|].
  cbn. intros [->|Hin]%elem_of_cons (Hg & _ & Hl)%NoDup_app; auto.
Qed.

(** The members of the tiers, item by item. *)
Lemma size_tier_items fs filter_function l sz files p :
  (sz, files) ∈ foldl (size_step fs filter_function) [] l → p ∈ files →
  p ∈ l ∧ size_key fs filter_function p = Some sz.
Proof.
  apply (foldl_items _ (λ sz p, p ∈ l ∧ size_key fs filter_function p = Some sz)).
  - intros m a Ha Hm. unfold size_step.
    destruct (is_file fs a && filter_function a) eqn:Hc; [|done].
    destruct (stat_size fs a) as [e|n] eqn:Hs; [done|].
    apply mm_append_items; [done|]. split; [done|].
    unfold size_key. by rewrite Hc, Hs.
  - by intros ? ? ? ?%elem_of_nil.
Qed.

Lemma small_hash_tier_items fs filter_function l key files p :
  (key, files) ∈ foldl (small_hash_step hash_algo fs) []
                   (mm_items (foldl (size_step fs filter_function) [] l)) →
  p ∈ files →
  p ∈ l ∧ size_key fs filter_function p = Some key.1
  ∧ hash_key hash_algo fs true p = Some key.2.
Proof.
  apply (foldl_items _ (λ key p, p ∈ l
                         ∧ size_key fs filter_function p = Some key.1
                         ∧ hash_key hash_algo fs true p = Some key.2)).
  - intros m [sz files0] Hitem Hm. unfold small_hash_step.
    destruct (length files0 <? 2); [done|].
    apply foldl_items; [|done].
    intros m' a Ha Hm'. unfold hash_key.
    destruct (get_hash hash_algo fs a true) as [e|d] eqn:Hh; [done|].
    apply mm_append_items; [done|].
    destruct (size_tier_items _ _ _ _ _ _ Hitem Ha) as [? ?].
    cbn. by rewrite Hh.
  - by intros ? ? ? ?%elem_of_nil.
Qed.

Lemma full_hash_tier_items fs (P : Path → Prop) (groups : list (list Path)) :
  (∀ files p, files ∈ groups → 2 ≤ length files → p ∈ files → P p) →
  ∀ h files p,
    (h, files) ∈ foldl (full_hash_step hash_algo fs) [] groups → p ∈ files →
    hash_key hash_algo fs false p = Some h ∧ P p.
Proof.
  intros HP.
  apply (foldl_items _ (λ h p, hash_key hash_algo fs false p = Some h ∧ P p)).
  - intros m files0 Hin Hm. unfold full_hash_step.
    destruct (Nat.ltb_spec (length files0) 2) as [Hlt|Hge]; [done|].
    apply foldl_items; [|done].
    intros m' a Ha Hm'. unfold hash_key.
    destruct (get_hash hash_algo fs a false) as [e|d] eqn:Hh; [done|].
    apply mm_append_items; [done|]. cbn. rewrite Hh.
    split; [done|]. by apply (HP files0).
  - by intros ? ? ? ?%elem_of_nil.
Qed.

Lemma find_duplicates_items fs path (filter_function : Path → bool)
    (h : digest) (group : list Path) p :
  NoDup fs.*1 →
  (h, group) ∈ find_duplicates hash_algo fs path filter_function [] →
  p ∈ group →
  get_hash hash_algo fs p false = inr h
  ∧ p ∈ rglob fs path
  ∧ ∃ q sz small,
      q ≠ p ∧ q ∈ rglob fs path
      ∧ size_key fs filter_function p = Some sz
      ∧ size_key fs filter_function q = Some sz
      ∧ get_hash hash_algo fs p true = inr small
      ∧ get_hash hash_algo fs q true = inr small.
Proof.
  intros Hfs Hitem Hp. unfold find_duplicates in Hitem.
  set (by_size := foldl (size_step fs filter_function) [] (rglob fs path)) in *.
  set (by_small := foldl (small_hash_step hash_algo fs) [] (mm_items by_size)) in *.
  assert (Hnodup : NoDup (concat (mm_values by_small))).
  { apply small_hash_tier_values, size_tier_values. by apply NoDup_rglob. }
  assert (Hkey : ∀ x (b : bool) d, hash_key hash_algo fs b x = Some d →
                                   get_hash hash_algo fs x b = inr d).
  { intros x b d. unfold hash_key.
    destruct (get_hash hash_algo fs x b); naive_solver. }
  pose proof (full_hash_tier_items fs
    (λ p, p ∈ rglob fs path ∧ ∃ q sz small,
        q ≠ p ∧ q ∈ rglob fs path
        ∧ size_key fs filter_function p = Some sz
        ∧ size_key fs filter_function q = Some sz
        ∧ get_hash hash_algo fs p true = inr small
        ∧ get_hash hash_algo fs q true = inr small)
    (mm_values by_small)) as Htier.
  destruct (Htier) with (h := h) (files := group) (p := p) as [Hh Htwin];
    [|done|done|by split; [apply Hkey|]].
  intros files x Hfiles Hlen Hx.
  destruct (two_distinct files x) as (q & Hq & Hne);
    [by apply (NoDup_concat_elem _ (mm_values by_small)) | done | done |].
  apply list_elem_of_fmap in Hfiles as ([[sz small] files'] & -> & Hin).
  destruct (small_hash_tier_items _ _ _ _ _ _ Hin Hx) as (? & ? & ?).
  destruct (small_hash_tier_items _ _ _ _ _ _ Hin Hq) as (? & ? & ?).
  split; [done|]. exists q, sz, small. repeat split; try done; by apply Hkey.
Qed.

(** X5: the two cheap tiers prune.  A path reaches the index only under
    its full-content hash, and only if another path of the walk has the
    same size and the same hash of the first 1024 bytes: a file of unique
    size, or unique among its size in its first 1024 bytes, is never
    listed. *)
Theorem find_duplicates_member_has_twin fs path (filter_function : Path → bool)
    (h : digest) (group : list Path) p :
  NoDup fs.*1 →
  (h, group) ∈ find_duplicates hash_algo fs path filter_function [] →
  p ∈ group →
  get_hash hash_algo fs p false = inr h
  ∧ p ∈ rglob fs path
  ∧ ∃ q sz small,
      q ≠ p ∧ q ∈ rglob fs path
      ∧ size_key fs filter_function p = Some sz
      ∧ size_key fs filter_function q = Some sz
      ∧ get_hash hash_algo fs p true = inr small
      ∧ get_hash hash_algo fs q true = inr small.
Proof. apply find_duplicates_items. Qed.
End find_duplicates_more.

Lemma find_duplicates_member_has_twin_witness :
  get_hash id_hash near_collision_tree a_jpg false = inr block_a
  ∧ a_jpg ∈ rglob near_collision_tree out_dir
  ∧ ∃ q sz small,
      q ≠ a_jpg ∧ q ∈ rglob near_collision_tree out_dir
      ∧ size_key near_collision_tree any_file a_jpg = Some sz
      ∧ size_key near_collision_tree any_file q = Some sz
      ∧ get_hash id_hash near_collision_tree a_jpg true = inr small
      ∧ get_hash id_hash near_collision_tree q true = inr small.
Proof.
  apply (find_duplicates_member_has_twin id_hash near_collision_tree out_dir
           any_file block_a [a_jpg; b_jpg] a_jpg).
  - apply (bool_decide_unpack _). vm_compute. exact I.
  - apply (bool_decide_unpack _). vm_compute. exact I.
  - apply list_elem_of_here.
Defined.

Lemma find_duplicates_lists_once_witness :
  NoDup (concat (mm_values
                   (find_duplicates id_hash near_collision_tree out_dir any_file []))).
Proof.
  apply (find_duplicates_lists_once id_hash near_collision_tree out_dir any_file).
  apply (bool_decide_unpack _). vm_compute. exact I.
Defined.

(** ** Duplicate removal: what a run leaves *)

Lemma deleted_kept_perm (g : list Path) : deleted_of g ++ kept_of g ≡ₚ g.
Proof.
  unfold deleted_of, kept_of. destruct (length g <? 2); [done|].
  apply evens_odds_perm.
Qed.

Lemma deleted_kept_concat (l : list (list Path)) :
  concat (deleted_of <$> l) ++ concat (kept_of <$> l) ≡ₚ concat l.
Proof.
  induction l as [|g l IH]; [done|]. cbn [fmap list_fmap concat].
  etrans; [|apply Permutation_app; [apply deleted_kept_perm | apply IH]].
  rewrite <- !app_assoc. f_equiv.
  rewrite !app_assoc. f_equiv. apply (comm (++)).
Qed.

Lemma elem_of_evens {A} (l : list A) (x : A) : x ∈ evens l → x ∈ l.
Proof. intros Hx. rewrite <- (evens_odds_perm l). set_solver. Qed.

Lemma elem_of_odds {A} (l : list A) (x : A) : x ∈ odds l → x ∈ l.
Proof. intros Hx. rewrite <- (evens_odds_perm l). set_solver. Qed.

Lemma elem_of_deleted_of (g : list Path) (p : Path) :
  p ∈ deleted_of g → p ∈ g ∧ 2 ≤ length g.
Proof.
  unfold deleted_of. destruct (Nat.ltb_spec (length g) 2); [by intros ?%elem_of_nil|].
  intros ?%elem_of_evens. done.
Qed.

Lemma groups_short (g : list Path) :
  length g < 2 → (length g <? 2) = true ∧ kept_of g = g ∧ deleted_of g = [].
Proof.
  intros Hlt%Nat.ltb_lt. unfold kept_of, deleted_of. by rewrite Hlt.
Qed.

Lemma groups_long (g : list Path) :
  2 ≤ length g →
  (length g <? 2) = false ∧ kept_of g = odds g ∧ deleted_of g = evens g.
Proof.
  intros Hge%Nat.ltb_ge. unfold kept_of, deleted_of. by rewrite Hge.
Qed.

Section remove_more.
Context {digest : Type} (can_unlink : Path → bool).
Implicit Types (fs : FS) (groups : multimap digest Path).

(** The loop over the groups: each group of two or more loses the files
    at its even positions, on disk and in its list; the counter grows by
    one less than the length of each such group. *)
Lemma remove_groups_spec groups :
  ∀ fs (count : nat),
    NoDup (concat (mm_values groups)) →
    (∀ p, p ∈ concat (mm_values groups) → is_file fs p = true) →
    (∀ p, p ∈ concat (deleted_of <$> mm_values groups) → can_unlink p = true) →
    ∃ st,
      remove_groups can_unlink groups fs count = Some (inr (), st)
      ∧ files_by_full_hash st = prod_map id kept_of <$> groups
      ∧ s_removed_duplicates_count st
        = count + sum_list ((λ g, if length g <? 2 then 0 else length g - 1)
                              <$> mm_values groups)
      ∧ ∀ p, fs_lookup (tree st) p
             = if decide (p ∈ concat (deleted_of <$> mm_values groups))
               then None else fs_lookup fs p.
Proof.
  induction groups as [|[h g] groups IH]; intros fs count Hnodup Hfiles Hcan.
  - exists (mkDedup fs [] count). cbn. split; [done|]. split; [done|].
    split; [lia|]. intros p. by rewrite decide_False by apply not_elem_of_nil.
  - unfold mm_values in *. cbn [fmap list_fmap snd concat] in Hnodup, Hfiles.
    apply NoDup_app in Hnodup as (Hg & Hdisj & Hrest).
    cbn [remove_groups].
    rewrite !fmap_cons in *. cbn [snd fst prod_map concat sum_list] in *.
    destruct (Nat.lt_ge_cases (length g) 2) as [Hlt|Hge].
    + destruct (groups_short g Hlt) as (-> & -> & Hdel). rewrite Hdel in *.
      destruct (IH fs count) as (st & -> & Hidx & Hcount & Hfs); [done| | |].
      { intros p Hp. apply Hfiles, elem_of_app. by right. }
      { intros p Hp. by apply Hcan. }
      eexists. cbn. split; [done|]. cbn. rewrite Hidx, Hcount.
      split; [done|]. split; [done|]. exact Hfs.
    + destruct (groups_long g Hge) as (-> & -> & Hdel). rewrite Hdel in *.
      destruct (remove_loop_spec can_unlink (length g) g [] fs)
        as (fs' & Hloop & Hfs'); [done | | | lia | done |].
      { intros p Hp. apply Hfiles, elem_of_app. by left. }
      { intros p Hp. apply Hcan, elem_of_app. by left. }
      cbn [app length] in Hloop. rewrite Hloop. cbn.
      destruct (IH fs' (count + (length g - 1))) as (st & -> & Hidx & Hcount & Hfs);
        [done| | |].
      { intros p Hp. unfold is_file. rewrite Hfs'.
        rewrite decide_False.
        - apply Hfiles, elem_of_app. by right.
        - intros Hin%elem_of_evens. by apply (Hdisj p). }
      { intros p Hp. apply Hcan, elem_of_app. by right. }
      eexists. cbn. split; [done|]. cbn. rewrite Hidx, Hcount.
      split; [done|]. split; [symmetry; apply Nat.add_assoc|].
      intros p. rewrite Hfs, Hfs'.
      repeat case_decide; try done; set_solver.
Qed.
End remove_more.

Section remove_duplicates_more.
Context {digest : Type} `{Hdigest : EqDecision digest} (hash_algo : list byte → digest).
Context (can_unlink : Path → bool).
Implicit Types (fs : FS) (p dir : Path).

Lemma get_hash_inr fs p (b : bool) (h : digest) :
  get_hash hash_algo fs p b = inr h →
  ∃ f, fs_lookup fs p = Some (File f) ∧ open_ok f = true
       ∧ h = hash_algo (if b then take 1024 (data f) else data f).
Proof.
  destruct b; [rewrite get_hash_partial | rewrite get_hash_full];
    unfold open_rb; destruct (fs_lookup fs p) as [[|f]|]; try done;
    destruct (open_ok f) eqn:Ho; try done; cbn; intros [= <-]; by exists f.
Qed.

Lemma size_key_Some fs (filter_function : Path → bool) p (sz : nat) :
  size_key fs filter_function p = Some sz →
  is_file fs p = true ∧ filter_function p = true.
Proof.
  unfold size_key. destruct (is_file fs p); [|done].
  by destruct (filter_function p).
Qed.

Lemma remove_duplicates_spec (is_media : Path → bool) dir fs (count : nat) :
  NoDup fs.*1 →
  let idx := find_duplicates hash_algo fs dir is_media [] in
  (∀ p, p ∈ concat (deleted_of <$> mm_values idx) → can_unlink p = true) →
  ∃ st,
    remove_duplicates hash_algo can_unlink is_media dir (mkDedup fs [] count)
    = Some (inr true, st)
    ∧ files_by_full_hash st = prod_map id kept_of <$> idx
    ∧ s_removed_duplicates_count st
      = count + sum_list ((λ g, if length g <? 2 then 0 else length g - 1)
                            <$> mm_values idx)
    ∧ ∀ p, fs_lookup (tree st) p
           = if decide (p ∈ concat (deleted_of <$> mm_values idx))
             then None else fs_lookup fs p.
Proof.
  intros Hfs idx Hcan. unfold remove_duplicates. cbn [tree files_by_full_hash
    s_removed_duplicates_count]. fold idx.
  destruct (remove_groups_spec can_unlink idx fs count) as (st & -> & Hrest).
  - by apply find_duplicates_values.
  - intros p (g & Hp & Hg)%elem_of_concat.
    apply list_elem_of_fmap in Hg as ([h g'] & -> & Hitem).
    destruct (find_duplicates_items hash_algo fs dir is_media h g' p)
      as (_ & _ & q & sz & small & _ & _ & Hsz & _); [done..|].
    by apply size_key_Some in Hsz as [? _].
  - done.
  - by exists st.
Qed.

(** X6: from the empty index over a tree, when every file at an even
    position (0, 2, 4, ...) of a group of two or more may be deleted,
    [remove_duplicates] does not raise and returns [True]; of each such
    group it deletes the files at these positions and keeps the others, on
    disk and under the group's key; groups of one are left as found; and
    the counter of removed duplicates grows by one less than the size of
    each group of two or more (which is the number of files deleted only
    for groups of two and three). *)
Theorem remove_duplicates_effect (is_media : Path → bool) dir fs (count : nat) :
  NoDup fs.*1 →
  let idx := find_duplicates hash_algo fs dir is_media [] in
  (∀ p, p ∈ concat (deleted_of <$> mm_values idx) → can_unlink p = true) →
  ∃ st,
    remove_duplicates hash_algo can_unlink is_media dir (mkDedup fs [] count)
    = Some (inr true, st)
    ∧ files_by_full_hash st = prod_map id kept_of <$> idx
    ∧ s_removed_duplicates_count st
      = count + sum_list ((λ g, if length g <? 2 then 0 else length g - 1)
                            <$> mm_values idx)
    ∧ ∀ p, fs_lookup (tree st) p
           = if decide (p ∈ concat (deleted_of <$> mm_values idx))
             then None else fs_lookup fs p.
Proof. apply remove_duplicates_spec. Qed.

(** X7: removal never loses a content.  From the empty index over a tree,
    when the files the loop comes to delete (those at the even positions
    of the groups of two or more) may be deleted, [remove_duplicates]
    returns; it creates and alters nothing; whatever it deletes is a media
    file under [dir], and a different file with the same full-content hash
    is still on disk afterwards. *)
Theorem remove_duplicates_keeps_a_copy (is_media : Path → bool) dir fs
    (count : nat) :
  NoDup fs.*1 →
  (∀ p, p ∈ concat (deleted_of
                      <$> mm_values (find_duplicates hash_algo fs dir is_media []))
        → can_unlink p = true) →
  ∃ st,
    remove_duplicates hash_algo can_unlink is_media dir (mkDedup fs [] count)
    = Some (inr true, st)
    ∧ (∀ p, fs_lookup (tree st) p = fs_lookup fs p
            ∨ fs_lookup (tree st) p = None)
    ∧ ∀ p n,
        fs_lookup fs p = Some n → fs_lookup (tree st) p = None →
        p ∈ rglob fs dir ∧ is_media p = true
        ∧ ∃ f q fq,
            n = File f ∧ q ≠ p
            ∧ fs_lookup (tree st) q = Some (File fq)
            ∧ hash_algo (data fq) = hash_algo (data f).
Proof.
  intros Hfs Hcan.
  destruct (remove_duplicates_spec is_media dir fs count Hfs Hcan)
    as (st & Hrun & _ & _ & Hlookup).
  set (idx := find_duplicates hash_algo fs dir is_media []) in *.
  exists st. split; [done|]. split.
  { intros p. rewrite Hlookup. case_decide; auto. }
  intros p n Hn Hgone. rewrite Hlookup in Hgone.
  case_decide as Hdel; [|congruence].
  apply elem_of_concat in Hdel as (d & Hp & Hd).
  apply list_elem_of_fmap in Hd as (g & -> & Hg).
  apply elem_of_deleted_of in Hp as Hpg. destruct Hpg as [Hpg Hlen].
  apply list_elem_of_fmap in Hg as Hitem. destruct Hitem as ([h g'] & Heq & Hitem).
  cbn in Heq. subst g'.
  assert (Hvalues := find_duplicates_values hash_algo fs dir is_media Hfs).
  fold idx in Hvalues.
  (* a survivor of the group *)
  assert (∃ q, q ∈ kept_of g) as [q Hq].
  { unfold kept_of. rewrite (proj2 (Nat.ltb_ge _ _) Hlen).
    pose proof (length_odds g) as Hodds.
    destruct (odds g) as [|q ?]; [|exists q; apply list_elem_of_here].
    cbn [length] in Hodds. symmetry in Hodds. apply Nat.div_small_iff in Hodds; lia. }
  assert (Hqg : q ∈ g).
  { rewrite <- (deleted_kept_perm g). apply elem_of_app. by right. }
  assert (Hnotdel : q ∉ concat (deleted_of <$> mm_values idx)).
  { rewrite <- (deleted_kept_concat (mm_values idx)) in Hvalues.
    apply NoDup_app in Hvalues as (_ & Hdisj & _).
    intros Hin. apply (Hdisj q Hin).
    apply elem_of_concat. exists (kept_of g). split; [done|].
    by apply list_elem_of_fmap_2. }
  destruct (find_duplicates_items hash_algo fs dir is_media h g p Hfs Hitem Hpg)
    as (Hhp & Hwalk & p' & sz & small & _ & _ & Hsz & _).
  destruct (find_duplicates_items hash_algo fs dir is_media h g q Hfs Hitem Hqg)
    as (Hhq & _).
  apply size_key_Some in Hsz as [Hfile Hmedia].
  apply get_hash_inr in Hhp as (f & Hf & _ & Hh).
  apply get_hash_inr in Hhq as (fq & Hfq & _ & Hhq).
  split; [done|]. split; [done|].
  exists f, q, fq. split; [congruence|]. split.
  - intros ->. apply Hnotdel. apply elem_of_concat.
    exists (deleted_of g). split; [done|]. by apply list_elem_of_fmap_2.
  - split; [|congruence]. rewrite Hlookup. by rewrite decide_False.
Qed.
End remove_duplicates_more.

Lemma remove_duplicates_effect_witness :
  let idx := find_duplicates id_hash four_copies out_dir any_file [] in
  ∃ st,
    remove_duplicates id_hash deletable any_file out_dir (mkDedup four_copies [] 0)
    = Some (inr true, st)
    ∧ files_by_full_hash st = prod_map id kept_of <$> idx
    ∧ s_removed_duplicates_count st
      = 0 + sum_list ((λ g, if length g <? 2 then 0 else length g - 1)
                        <$> mm_values idx)
    ∧ ∀ p, fs_lookup (tree st) p
           = if decide (p ∈ concat (deleted_of <$> mm_values idx))
             then None else fs_lookup four_copies p.
Proof.
  apply (remove_duplicates_effect id_hash deletable any_file out_dir four_copies 0).
  - apply (bool_decide_unpack _). vm_compute. exact I.
  - done.
Defined.

Lemma remove_duplicates_keeps_a_copy_witness :
  ∃ st,
    remove_duplicates id_hash deletable any_file out_dir (mkDedup four_copies [] 0)
    = Some (inr true, st)
    ∧ (∀ p, fs_lookup (tree st) p = fs_lookup four_copies p
            ∨ fs_lookup (tree st) p = None)
    ∧ ∀ p n,
        fs_lookup four_copies p = Some n → fs_lookup (tree st) p = None →
        p ∈ rglob four_copies out_dir ∧ any_file p = true
        ∧ ∃ f q fq,
            n = File f ∧ q ≠ p
            ∧ fs_lookup (tree st) q = Some (File fq)
            ∧ id_hash (data fq) = id_hash (data f).
Proof.
  apply (remove_duplicates_keeps_a_copy id_hash deletable any_file out_dir
           four_copies 0).
  - apply (bool_decide_unpack _). vm_compute. exact I.
  - done.
Defined.

(** The index is kept between calls and the survivors of a group of four
    are still duplicates: a second call lists them again under their key,
    after themselves, and the loop then deletes a file it has deleted. *)
Example second_remove_duplicates_raises :
  ∃ st st',
    remove_duplicates id_hash deletable any_file out_dir (mkDedup four_copies [] 0)
    = Some (inr true, st)
    ∧ find_duplicates id_hash (tree st) out_dir any_file (files_by_full_hash st)
      = [([x01], [b_jpg; d_jpg; b_jpg; d_jpg])]
    ∧ remove_duplicates id_hash deletable any_file out_dir st
      = Some (inl FileNotFoundError, st')
    ∧ s_removed_duplicates_count st' = 6.
Proof.
  eexists _, _. split; [vm_compute; reflexivity|].
  split; [vm_compute; reflexivity|]. split; vm_compute; reflexivity.
Qed.

(** A file that may not be deleted stops the removal: [unlink] raises,
    nothing catches it, the counter has been raised for the group already
    and no file is gone. *)
Example remove_duplicates_undeletable :
  ∃ st,
    remove_duplicates id_hash (λ p, bool_decide (p ≠ a_jpg)) any_file out_dir
      (mkDedup four_copies [] 0)
    = Some (inl OSError, st)
    ∧ tree st = four_copies
    ∧ s_removed_duplicates_count st = 3.
Proof. eexists. split; [vm_compute; reflexivity|]. split; vm_compute; reflexivity. Qed.

(** ** CollisionSafeNamer: which name is returned *)

(** The loop returns the first free name of those it is still to try. *)
Lemma new_name_loop_first_free (fs : FS) (file : Path) (fuel : nat) :
  ∀ new_name i rename_map p rename_map',
    new_name_loop fuel fs file new_name i rename_map = Some (p, rename_map') →
    is_file fs new_name = true →
    ∃ j, i ≤ j ∧ p = candidate file j
         ∧ ∀ k, i ≤ k < j → is_file fs (candidate file k) = true.
Proof.
  induction fuel as [|fuel IH]; intros new_name i rename_map p rename_map' Hloop Hnew;
    [done|].
  cbn in Hloop. rewrite Hnew in Hloop. cbn in Hloop.
  fold (candidate file i) in Hloop.
  destruct (is_file fs (candidate file i)) eqn:Hcand.
  - apply IH in Hloop as (j & Hj & -> & Hbelow); [|done].
    exists j. split; [lia|]. split; [done|].
    intros k Hk. destruct (decide (k = i)) as [->|Hne]; [done|].
    apply Hbelow. lia.
  - destruct fuel as [|fuel]; [done|]. cbn in Hloop. rewrite Hcand in Hloop.
    cbn in Hloop. simplify_eq. exists i. split; [done|]. split; [done|].
    intros k Hk. lia.
Qed.

(** X8: the counter has no gaps.  When the proposed path is taken,
    [new_name_if_exists] returns [stem(i)suffix] for the least [i >= 1]
    whose name no file has: every lower-numbered name is a file. *)
Theorem new_name_if_exists_least (fs : FS) (file : Path)
    (rename_map : gmap string Path) :
  is_file fs file = true →
  ∃ i rename_map',
    new_name_if_exists (2 + length fs) fs file rename_map
    = Some (candidate file i, rename_map')
    ∧ 1 ≤ i
    ∧ is_file fs (candidate file i) = false
    ∧ ∀ k, 1 ≤ k < i → is_file fs (candidate file k) = true.
Proof.
  intros Hfile. unfold new_name_if_exists.
  destruct (new_name_loop_total fs file file 1 rename_map) as [[p rename_map'] Hloop].
  destruct (new_name_loop_first_free _ _ _ _ _ _ _ _ Hloop Hfile)
    as (i & Hi & -> & Hbelow).
  exists i, rename_map'. split; [done|]. split; [done|]. split; [|done].
  by apply new_name_loop_Some in Hloop as [? _].
Qed.

Lemma new_name_if_exists_least_witness :
  ∃ i rename_map',
    new_name_if_exists (2 + length two_copies) two_copies a_jpg ∅
    = Some (candidate a_jpg i, rename_map')
    ∧ 1 ≤ i
    ∧ is_file two_copies (candidate a_jpg i) = false
    ∧ ∀ k, 1 ≤ k < i → is_file two_copies (candidate a_jpg k) = true.
Proof. apply (new_name_if_exists_least two_copies a_jpg ∅). reflexivity. Defined.

(** ** Copying to the output folder *)

Lemma fs_lookup_app (fs fs' : FS) (p : Path) :
  fs_lookup (fs ++ fs') p
  = match fs_lookup fs p with Some n => Some n | None => fs_lookup fs' p end.
Proof.
  induction fs as [|[q n] fs IH]; cbn; [done|]. by case_decide.
Qed.

(** X9: [copy_to_target] does not overwrite.  For a media file that can be
    read, when none of the names the namer tries in the output folder is a
    directory, the call returns [True], counts one copy, and adds exactly
    one entry to the tree: a new file with the source's content, under the
    source's name or a numbered variant of it that no entry had.  Every
    entry that was there is still there, unchanged. *)
Theorem copy_to_target_adds_one_file (is_media : Path → bool)
    (FIXED_DIR file : Path) (content : list byte) (fs : FS)
    (rename_map : gmap string Path) (copied : nat) :
  let proposed := joinpath FIXED_DIR (name file) in
  is_media file = true →
  open_rb fs file = inr content →
  fs_lookup fs proposed ≠ Some Dir →
  (∀ i, fs_lookup fs (candidate proposed i) ≠ Some Dir) →
  ∃ new_file rename_map',
    copy_to_target (2 + length fs) is_media FIXED_DIR file
      (mkCopy fs rename_map copied)
    = Some (inr true,
            mkCopy (fs ++ [(new_file, File (mkFile true true content))])
                   rename_map' (copied + 1))
    ∧ fs_lookup fs new_file = None
    ∧ (new_file = proposed ∨ ∃ i, 1 ≤ i ∧ new_file = candidate proposed i)
    ∧ ∀ p n, fs_lookup fs p = Some n →
             fs_lookup (fs ++ [(new_file, File (mkFile true true content))]) p
             = Some n.
Proof.
  intros proposed Hmedia Hopen Hprop Hcand.
  unfold copy_to_target. rewrite Hmedia. cbn [c_tree c_rename_map s_copied_files].
  fold proposed. unfold new_name_if_exists.
  destruct (new_name_loop_total fs proposed proposed 1 rename_map)
    as [[new_file rename_map'] Hloop].
  rewrite Hloop. cbn.
  apply new_name_loop_Some in Hloop as (Hfree & Hwhich).
  assert (Hname : new_file = proposed ∨ ∃ i, 1 ≤ i ∧ new_file = candidate proposed i).
  { destruct Hwhich as [[-> _]|(_ & (j & ? & ->) & _)]; [by left|].
    right. by exists j. }
  assert (Hnone : fs_lookup fs new_file = None).
  { unfold is_file in Hfree.
    destruct (fs_lookup fs new_file) as [[|f]|] eqn:Hl; [|done..].
    destruct Hname as [->|(i & _ & ->)]; [done | by destruct (Hcand i)]. }
  exists new_file, rename_map'.
  unfold copy2. rewrite Hnone, Hopen. cbn. rewrite Hnone.
  split; [done|]. split; [done|]. split; [done|].
  intros p n Hp. by rewrite fs_lookup_app, Hp.
Qed.

Lemma copy_to_target_adds_one_file_witness :
  let proposed := joinpath out_dir (name ["in"; "a.jpg"]) in
  let fs := (["in"; "a.jpg"], plain_file [x01]%byte) :: two_copies in
  ∃ new_file rename_map',
    copy_to_target (2 + length fs) any_file out_dir ["in"; "a.jpg"]
      (mkCopy fs ∅ 2)
    = Some (inr true,
            mkCopy (fs ++ [(new_file, File (mkFile true true [x01]%byte))])
                   rename_map' (2 + 1))
    ∧ fs_lookup fs new_file = None
    ∧ (new_file = proposed ∨ ∃ i, 1 ≤ i ∧ new_file = candidate proposed i)
    ∧ ∀ p n, fs_lookup fs p = Some n →
             fs_lookup (fs ++ [(new_file, File (mkFile true true [x01]%byte))]) p
             = Some n.
Proof.
  apply (copy_to_target_adds_one_file any_file out_dir ["in"; "a.jpg"]
           [x01]%byte ((["in"; "a.jpg"], plain_file [x01]%byte) :: two_copies)
           ∅ 2).
  - reflexivity.
  - reflexivity.
  - discriminate.
  - intros i. cbn [fs_lookup two_copies].
    repeat case_decide; discriminate.
Defined.

(** A numbered name is longer than the name it is made from. *)
Lemma length_substring (s : string) :
  ∀ n m, n + m ≤ String.length s → String.length (String.substring n m s) = m.
Proof.
  induction s as [|c s IH]; intros [|n] [|m]; cbn; intros Hlen; try done; try lia.
  - f_equal. apply (IH 0 m). lia.
  - apply (IH n 0). lia.
  - apply (IH n (S m)). lia.
Qed.

Lemma rfind_lt (c : ascii) (s : string) (i : nat) :
  rfind c s = Some i → i < String.length s.
Proof.
  revert i. induction s as [|a s IH]; intros i; cbn; [done|].
  destruct (rfind c s) as [j|].
  - intros [= <-]. specialize (IH j eq_refl). lia.
  - destruct (Ascii.eqb a c); intros [= <-]. lia.
Qed.

Lemma length_stem_suffix (p : Path) :
  String.length (stem p) + String.length (suffix p) = String.length (name p).
Proof.
  unfold stem, suffix. cbv zeta.
  destruct (rfind "." (name p)) as [i|] eqn:Hi; [|cbn [String.length]; lia].
  apply rfind_lt in Hi.
  destruct ((0 <? i) && (i <? String.length (name p) - 1));
    [|cbn [String.length]; lia].
  rewrite !length_substring by lia. lia.
Qed.

Lemma name_snoc (p : Path) (n : string) : name (p ++ [n]) = n.
Proof. unfold name. by rewrite last_snoc. Qed.

Lemma candidate_ne (file : Path) (i : nat) : candidate file i ≠ file.
Proof.
  intros Heq. apply (f_equal name) in Heq.
  unfold candidate, with_name in Heq. rewrite name_snoc in Heq.
  apply (f_equal String.length) in Heq.
  unfold numbered_name in Heq. rewrite !string_length_app in Heq.
  pose proof (length_stem_suffix file). cbn [String.length] in Heq. lia.
Qed.

(** X26: two files of one name.  When two readable media files of the
    same name are copied in turn to an output folder where neither that
    name nor its first numbered variant is taken, the first keeps the
    name, the second gets [stem(1)suffix], each with its own content; the
    counter grows by two, and the rename map gets one entry, keyed by the
    path proposed in the output folder. *)
Theorem copy_to_target_same_name_twice (is_media : Path → bool)
    (FIXED_DIR file1 file2 : Path) (content1 content2 : list byte) (fs : FS)
    (rename_map : gmap string Path) (copied : nat) :
  let proposed := joinpath FIXED_DIR (name file1) in
  let second := candidate proposed 1 in
  let fs1 := fs ++ [(proposed, File (mkFile true true content1))] in
  let fs2 := fs1 ++ [(second, File (mkFile true true content2))] in
  name file2 = name file1 →
  is_media file1 = true → is_media file2 = true →
  open_rb fs file1 = inr content1 → open_rb fs file2 = inr content2 →
  fs_lookup fs proposed = None → fs_lookup fs second = None →
  copy_to_target (2 + length fs) is_media FIXED_DIR file1
    (mkCopy fs rename_map copied)
  = Some (inr true, mkCopy fs1 rename_map (copied + 1))
  ∧ copy_to_target (2 + length fs1) is_media FIXED_DIR file2
      (mkCopy fs1 rename_map (copied + 1))
    = Some (inr true,
            mkCopy fs2 (<[str proposed := second]> rename_map) (copied + 1 + 1))
  ∧ fs_lookup fs2 proposed = Some (File (mkFile true true content1))
  ∧ fs_lookup fs2 second = Some (File (mkFile true true content2)).
Proof.
  intros proposed second fs1 fs2 Hname Hm1 Hm2 Ho1 Ho2 Hp Hs.
  assert (Hne : second ≠ proposed) by apply candidate_ne.
  assert (Hp1 : fs_lookup fs1 proposed = Some (File (mkFile true true content1))).
  { unfold fs1. rewrite fs_lookup_app, Hp. cbn. by rewrite decide_True. }
  assert (Hs1 : fs_lookup fs1 second = None).
  { unfold fs1. rewrite fs_lookup_app, Hs. cbn. by rewrite decide_False. }
  assert (Ho2' : open_rb fs1 file2 = inr content2).
  { unfold open_rb in *. unfold fs1. rewrite fs_lookup_app.
    by destruct (fs_lookup fs file2). }
  split; [|split; [|split]].
  - unfold copy_to_target. rewrite Hm1. cbn [c_tree c_rename_map s_copied_files].
    fold proposed. unfold new_name_if_exists. cbn [Nat.add new_name_loop].
    unfold is_file. rewrite Hp. cbn.
    unfold copy2. rewrite Hp, Ho1. cbn. by rewrite Hp.
  - unfold copy_to_target. rewrite Hm2, Hname.
    cbn [c_tree c_rename_map s_copied_files].
    fold proposed. unfold new_name_if_exists. cbn [Nat.add new_name_loop].
    unfold is_file. rewrite Hp1. cbn [negb].
    fold (candidate proposed 1). fold second. rewrite Hs1. cbn.
    unfold copy2. rewrite Hs1, Ho2'. cbn. by rewrite Hs1.
  - unfold fs2. by rewrite fs_lookup_app, Hp1.
  - unfold fs2. rewrite fs_lookup_app, Hs1. cbn. by rewrite decide_True.
Qed.

Lemma copy_to_target_same_name_twice_witness :
  let file1 := ["in"; "x"; "a.jpg"] in
  let file2 := ["in"; "y"; "a.jpg"] in
  let fs := [(file1, plain_file [x01]%byte); (file2, plain_file [x02]%byte)] in
  let proposed := joinpath out_dir (name file1) in
  let second := candidate proposed 1 in
  let fs1 := fs ++ [(proposed, File (mkFile true true [x01]%byte))] in
  let fs2 := fs1 ++ [(second, File (mkFile true true [x02]%byte))] in
  copy_to_target (2 + length fs) any_file out_dir file1 (mkCopy fs ∅ 0)
  = Some (inr true, mkCopy fs1 ∅ (0 + 1))
  ∧ copy_to_target (2 + length fs1) any_file out_dir file2 (mkCopy fs1 ∅ (0 + 1))
    = Some (inr true, mkCopy fs2 (<[str proposed := second]> ∅) (0 + 1 + 1))
  ∧ fs_lookup fs2 proposed = Some (File (mkFile true true [x01]%byte))
  ∧ fs_lookup fs2 second = Some (File (mkFile true true [x02]%byte)).
Proof.
  apply (copy_to_target_same_name_twice any_file out_dir
           ["in"; "x"; "a.jpg"] ["in"; "y"; "a.jpg"] [x01]%byte [x02]%byte
           [(["in"; "x"; "a.jpg"], plain_file [x01]%byte);
            (["in"; "y"; "a.jpg"], plain_file [x02]%byte)] ∅ 0);
    reflexivity.
Defined.
(** ** GPS: degrees, minutes, seconds *)

(** X10: [degToDmsRational] returns on every finite double: three
    rationals with denominators 1, 1 and 100, the first being the floor of
    the number.  On an infinity it raises [OverflowError], on NaN
    [ValueError]. *)
Theorem degToDmsRational_returns (x : float) :
  match float_value x with
  | Some q =>
      ∃ m s, degToDmsRational x = inr [(Qfloor q, 1); (m, 1); (s, 100)]%Z
  | None =>
      degToDmsRational x
      = inl (match x with S754_nan => ValueError | _ => OverflowError end)
  end.
Proof.
  destruct (float_value x) as [q|] eqn:Hq.
  - by apply degToDmsRational_finite.
  - by destruct x.
Qed.



(** ** The embedded date: reading and writing *)

Lemma date_tags_loop_cases (W : World) (file : Path) (d : exif_dict)
    (tags : list (ifd_name * Z)) (st : State) :
  (∀ tag v, tag ∈ tags → exif_get d tag.1 tag.2 = inr v → ∃ b, v = EBytes b) →
  date_tags_loop W file d tags st
  = match (if utime_ok W file then first_timestamp W d tags else None) with
    | Some timestamp => (inr true, set_mtime <[file := timestamp]> st)
    | None => (inr false, st)
    end.
Proof.
  unfold first_timestamp.
  induction tags as [|tag tags IH]; intros Hbytes.
  - cbn. by destruct (utime_ok W file).
  - assert (Hrest : ∀ tag v, tag ∈ tags → exif_get d tag.1 tag.2 = inr v →
                             ∃ b, v = EBytes b).
    { intros t v Ht. apply Hbytes. by apply list_elem_of_further. }
    specialize (IH Hrest).
    cbn [date_tags_loop omap list_omap]. unfold tag_timestamp at 1. unfold_M.
    destruct (exif_get d tag.1 tag.2) as [e|v] eqn:Hget.
    + assert (e = KeyError) as ->.
      { unfold exif_get in Hget.
        destruct (match tag.1 with IFD_0th => _ | _ => _ end) as [m|];
          [destruct (m !! tag.2)|]; congruence. }
      cbn. exact IH.
    + destruct (Hbytes tag v (list_elem_of_here _ _) Hget) as [b ->]. cbn.
      destruct (utf8_ok W b); cbn; [|exact IH].
      rewrite set_creation_date_from_str_cases.
      destruct (strptime_timestamp W (normalize_datetime b)) as [ts|]; cbn;
        [|exact IH].
      destruct (utime_ok W file) eqn:Hutime; cbn; [done|].
      rewrite IH. done.
Qed.

Lemma exif_step_cases (W : World) (file : Path) (st : State) :
  date_tags_are_bytes st file →
  exif_step W file st
  = match (if utime_ok W file
           then exif_of st !! file ≫= λ d, first_timestamp W d date_tags
           else None) with
    | Some timestamp => (inr true, set_mtime <[file := timestamp]> st)
    | None => (inr false, st)
    end.
Proof.
  intros Hbytes. unfold exif_step, set_creation_date_from_exif, piexif_load.
  unfold_M. destruct (exif_of st !! file) as [d|] eqn:Hd;
    cbn -[date_tags_loop first_timestamp].
  - rewrite date_tags_loop_cases by (intros tag v; by apply Hbytes).
    destruct (utime_ok W file); [|done].
    by destruct (first_timestamp W d date_tags).
  - by destruct (utime_ok W file).
Qed.

(** X12: the embedded date is taken from the first of DateTime (0th),
    DateTimeOriginal and DateTimeDigitized (Exif), in that order, that is
    present, decodes and parses; the file's modification time is set to it
    and the step reports a nice date.  When no tag qualifies, the EXIF
    cannot be loaded or the modification time cannot be set, the step
    reports no nice date and changes nothing. *)
Theorem exif_step_first_usable_tag (W : World) (file : Path) (st : State) :
  date_tags_are_bytes st file →
  exif_step W file st
  = match (if utime_ok W file
           then exif_of st !! file ≫= λ d, first_timestamp W d date_tags
           else None) with
    | Some timestamp => (inr true, set_mtime <[file := timestamp]> st)
    | None => (inr false, st)
    end.
Proof. apply exif_step_cases. Qed.

Lemma dated_exif_tags_are_bytes : date_tags_are_bytes dated_exif a_photo.
Proof.
  intros d tag v Hd Htag Hv. vm_compute in Hd. injection Hd as <-.
  unfold date_tags in Htag.
  repeat (apply elem_of_cons in Htag as [->|Htag]);
    [| |vm_compute in Hv; discriminate|by apply elem_of_nil in Htag].
  - vm_compute in Hv. discriminate.
  - vm_compute in Hv. injection Hv as <-. by eexists.
Qed.

Lemma exif_step_first_usable_tag_witness :
  exif_step bare_world a_photo dated_exif
  = match (if utime_ok bare_world a_photo
           then exif_of dated_exif !! a_photo
                  ≫= λ d, first_timestamp bare_world d date_tags
           else None) with
    | Some timestamp => (inr true, set_mtime <[a_photo := timestamp]> dated_exif)
    | None => (inr false, dated_exif)
    end.
Proof.
  apply (exif_step_first_usable_tag bare_world a_photo dated_exif).
  apply dated_exif_tags_are_bytes.
Defined.

(** The example, run: the second tag is the first usable one, and its
    dashes are read as colons. *)
Example exif_step_dated :
  exif_step bare_world a_photo dated_exif
  = (inr true, set_mtime <[a_photo := 1600000000%Z]> dated_exif).
Proof. vm_compute. reflexivity. Qed.


(** X14: what [set_file_exif_date] writes, the fixer's own reader reads
    back: after an accepted write of a date that decodes and parses, with a
    settable modification time, [exif_step] finds a nice date and sets the
    modification time to that date. *)
Theorem exif_date_round_trip (W : World) (file : Path) (creation_date : string)
    (timestamp : Z) (st : State) :
  insert_ok W file
    (let loaded := default fallback_exif (exif_of st !! file) in
     mkExif (<[TAG_DATE_TIME := EBytes creation_date]> (ifd_0th loaded))
            (<[TAG_DATE_TIME_DIGITIZED := EBytes creation_date]>
               (<[TAG_DATE_TIME_ORIGINAL := EBytes creation_date]>
                  (ifd_Exif loaded)))
            (ifd_GPS loaded)) = true →
  utf8_ok W creation_date = true →
  strptime_timestamp W (normalize_datetime creation_date) = Some timestamp →
  utime_ok W file = true →
  ∃ st',
    (_ ← set_file_exif_date W file creation_date; exif_step W file) st
    = (inr true, st')
    ∧ mtime_of st' !! file = Some timestamp.
Proof.
  cbn zeta. intros Hinsert Hutf Hparse Hutime.
  unfold mbind at 1, M_bind at 1.
  rewrite set_file_exif_date_cases, Hinsert.
  unfold exif_step, set_creation_date_from_exif, piexif_load. unfold_M.
  cbn [exif_of set_exif]. rewrite lookup_insert_eq.
  cbn [date_tags date_tags_loop]. unfold_M.
  rewrite (as_loaded_date_tag _ (IFD_0th, TAG_DATE_TIME) creation_date);
    [|apply list_elem_of_here|unfold exif_get; cbn; by rewrite lookup_insert_eq].
  cbn [mbind exn_bind decode_utf8]. rewrite Hutf.
  rewrite set_creation_date_from_str_cases, Hparse, Hutime.
  eexists. split; [done|]. cbn. by rewrite lookup_insert_eq.
Qed.

Lemma exif_date_round_trip_witness :
  ∃ st',
    (_ ← set_file_exif_date bare_world a_photo "2020:01:01 00:00:00";
     exif_step bare_world a_photo) no_exif
    = (inr true, st')
    ∧ mtime_of st' !! a_photo = Some 1577836800%Z.
Proof.
  apply (exif_date_round_trip bare_world a_photo "2020:01:01 00:00:00"
           1577836800%Z no_exif); reflexivity.
Defined.

(** ** SidecarResolver: the title index and the album metadata *)

Lemma index_json_lookup (folder : Path) (j : json) (st : State) (title : string) :
  _all_jsons_dict (index_json folder j st) !! folder ≫= (.!! title)
  = if decide (json_title j = Some title) then Some j
    else _all_jsons_dict st !! folder ≫= (.!! title).
Proof.
  unfold index_json, json_title.
  destruct (contains "title" j) as [e|[|]]; [done| |done].
  destruct (getitem j "title") as [e|v].
  - rewrite decide_False by done. cbn.
    destruct (_all_jsons_dict st !! folder) as [m|] eqn:Hm; cbn; [by rewrite Hm|].
    by rewrite lookup_insert_eq.
  - assert (Hcreated :
      ∀ st0, st0 = set_all_jsons
                     (λ m, match m !! folder with
                           | Some _ => m
                           | None => <[folder := ∅]> m
                           end) st →
             _all_jsons_dict st0 !! folder ≫= (.!! title)
             = _all_jsons_dict st !! folder ≫= (.!! title)).
    { intros st0 ->. cbn.
      destruct (_all_jsons_dict st !! folder) as [m|] eqn:Hm; cbn; [by rewrite Hm|].
      by rewrite lookup_insert_eq. }
    destruct v as [| | | |t| |]; try (rewrite decide_False by done; by apply Hcreated).
    cbn. rewrite lookup_insert_eq. cbn.
    destruct (decide (t = title)) as [->|Hne].
    + rewrite decide_True by done. by rewrite lookup_insert_eq.
    + rewrite decide_False by congruence. rewrite lookup_insert_ne by done.
      destruct (_all_jsons_dict st !! folder) as [m|] eqn:Hm; cbn.
      * by rewrite Hm.
      * by rewrite lookup_insert_eq.
Qed.

Lemma load_folder_lookup (W : World) (folder : Path) (files : list Path)
    (title : string) :
  ∀ st,
    _all_jsons_dict
      (foldl (λ st json_file,
                match load_json W json_file with
                | Some json_dict => index_json folder json_dict st
                | None => st
                end) st files) !! folder ≫= (.!! title)
    = match last_titled W files title with
      | Some j => Some j
      | None => _all_jsons_dict st !! folder ≫= (.!! title)
      end.
Proof.
  unfold last_titled.
  induction files as [|f files IH]; intros st; [done|].
  cbn [foldl omap list_omap]. rewrite IH.
  destruct (load_json W f) as [j|]; cbn [mbind option_bind].
  - rewrite index_json_lookup.
    destruct (decide (json_title j = Some title)); [|done].
    rewrite last_cons. by destruct (last _).
  - done.
Qed.

(** X15: without a literal [<name>.json], the sidecar of a file is looked
    up by title in its folder: the first lookup in a folder parses every
    [*.json] below it (subfolders included), and the answer is the last of
    them, in walk order, whose "title" is the file's name.  If there is
    none, [FileNotFoundError] is raised and the file is appended to
    [s_no_json_found]. *)
Theorem find_json_for_file_by_title (W : World) (path_obj : Path) (st : State) :
  w_is_file W (with_name path_obj (name path_obj +:+ ".json")) = false →
  _all_jsons_dict st !! parent path_obj = None →
  find_json_for_file W path_obj st
  = match last_titled W (w_rglob_json W (parent path_obj)) (name path_obj) with
    | Some json_dict => (inr json_dict, load_folder W (parent path_obj) st)
    | None =>
        (inl FileNotFoundError,
         set_no_json_found (λ l, l ++ [str path_obj])
           (load_folder W (parent path_obj) st))
    end.
Proof.
  intros Hliteral Hfresh. unfold find_json_for_file. rewrite Hliteral.
  rewrite bool_decide_eq_false_2 by (rewrite Hfresh; by intros [? ?]).
  unfold load_folder at 1. rewrite load_folder_lookup, Hfresh.
  by destruct (last_titled W _ _).
Qed.

Lemma find_json_for_file_by_title_witness :
  find_json_for_file bare_world a_photo no_exif
  = match last_titled bare_world (w_rglob_json bare_world (parent a_photo))
            (name a_photo) with
    | Some json_dict => (inr json_dict, load_folder bare_world (parent a_photo) no_exif)
    | None =>
        (inl FileNotFoundError,
         set_no_json_found (λ l, l ++ [str a_photo])
           (load_folder bare_world (parent a_photo) no_exif))
    end.
Proof.
  apply (find_json_for_file_by_title bare_world a_photo no_exif); reflexivity.
Defined.

Lemma album_meta_scan_first (W : World) (files : list Path) :
  match album_meta_scan W files with
  | Some file =>
      ∃ before after,
        files = before ++ file :: after
        ∧ is_album_meta W file = true
        ∧ ∀ g, g ∈ before → is_album_meta W g = false
  | None => ∀ g, g ∈ files → is_album_meta W g = false
  end.
Proof.
  induction files as [|f files IH]; cbn [album_meta_scan].
  - by intros g ?%elem_of_nil.
  - destruct (is_album_meta W f) eqn:Hf.
    + assert (album_meta_scan W (f :: files) = Some f) as Heq.
      { cbn. unfold is_album_meta in Hf. destruct (load_json W f) as [dict|]; [|done].
        by destruct (contains "albumData" dict) as [|[|]]. }
      cbn in Heq. rewrite Heq. exists [], files. split; [done|]. split; [done|].
      by intros g ?%elem_of_nil.
    + assert (album_meta_scan W (f :: files) = album_meta_scan W files) as Heq.
      { cbn. unfold is_album_meta in Hf. destruct (load_json W f) as [dict|]; [|done].
        by destruct (contains "albumData" dict) as [|[|]]. }
      cbn in Heq. rewrite Heq.
      destruct (album_meta_scan W files) as [file|].
      * destruct IH as (before & after & -> & Hfile & Hbefore).
        exists (f :: before), after. split; [done|]. split; [done|].
        intros g [->|Hg]%elem_of_cons; auto.
      * intros g [->|Hg]%elem_of_cons; auto.
Qed.

(** X16: the album metadata of a folder is the first [*.json] below it, in
    walk order, that parses and has "albumData" in it (as a key of an
    object, but also as an element of a list or inside a string); files
    that do not parse are passed over.  There is none exactly when no such
    file exists, and then the folder gives no date. *)
Theorem find_album_meta_json_file_first (W : World) (dir : Path) :
  match find_album_meta_json_file W dir with
  | Some file =>
      ∃ before after,
        w_rglob_json W dir = before ++ file :: after
        ∧ is_album_meta W file = true
        ∧ ∀ g, g ∈ before → is_album_meta W g = false
  | None =>
      (∀ g, g ∈ w_rglob_json W dir → is_album_meta W g = false)
      ∧ get_date_from_folder_meta W dir = inr None
  end.
Proof.
  pose proof (album_meta_scan_first W (w_rglob_json W dir)) as Hscan.
  unfold get_date_from_folder_meta, find_album_meta_json_file in *.
  by destruct (album_meta_scan W (w_rglob_json W dir)).
Qed.
(** ** MetadataFixer: one file at a time *)

(** X17: a call of [fix_metadata], whether it returns or raises, touches
    only its own file: the EXIF and the modification time of every other
    file are as before, a modification time the file had is not lost, and
    the four lists of [main] keep what they held (entries are only
    appended). *)
Theorem fix_metadata_touches_only_its_file (W : World) (file : Path)
    (st st' : State) (r : exn + bool) :
  fix_metadata W file st = (r, st') → touches_only file st st'.
Proof. apply fix_metadata_frame. Qed.

Lemma fix_metadata_touches_only_its_file_witness :
  touches_only a_photo no_exif
    (fix_metadata bare_world a_photo no_exif).2.
Proof.
  apply (fix_metadata_touches_only_its_file bare_world a_photo no_exif _
           (fix_metadata bare_world a_photo no_exif).1).
  by destruct (fix_metadata bare_world a_photo no_exif).
Defined.

(** ** MetadataFixer: what the chain guarantees *)

Lemma set_creation_date_from_str_sets (W : World) (file : Path) (s : string)
    (st st' : State) (u : unit) :
  set_creation_date_from_str W file s st = (inr u, st') →
  mtime_of st' !! file = strptime_timestamp W (normalize_datetime s)
  ∧ is_Some (mtime_of st' !! file).
Proof.
  rewrite set_creation_date_from_str_cases.
  destruct (strptime_timestamp W _) as [ts|]; [destruct (utime_ok W file)|];
    intros Heq; try discriminate. injection Heq as Heq. subst st'.
  cbn. rewrite lookup_insert_eq. split; [done | by eexists].
Qed.

Lemma date_tags_loop_true (W : World) (file : Path) (d : exif_dict)
    (tags : list (ifd_name * Z)) :
  ∀ st st', date_tags_loop W file d tags st = (inr true, st') →
            is_Some (mtime_of st' !! file).
Proof.
  induction tags as [|tag tags IH]; intros st st'; cbn [date_tags_loop].
  - intros [=].
  - destruct (exif_get d tag.1 tag.2 ≫= decode_utf8 W) as [e|s] eqn:Hx;
      unfold_M.
    + destruct (_ || _); [apply IH | intros [=]].
    + destruct (set_creation_date_from_str W file s st) as [[e|[]] s1] eqn:Hset.
      * destruct (_ || _); [apply IH | intros [=]].
      * intros [= <-]. by apply set_creation_date_from_str_sets in Hset as [_ ?].
Qed.

Lemma exif_step_true (W : World) (file : Path) (st st' : State) :
  exif_step W file st = (inr true, st') → is_Some (mtime_of st' !! file).
Proof.
  unfold exif_step, set_creation_date_from_exif, piexif_load. unfold_M.
  destruct (exif_of st !! file) as [d|]; cbn -[date_tags_loop]; [|intros [=]].
  destruct (date_tags_loop W file d date_tags st) as [[e|[|]] s1] eqn:Hloop;
    cbn -[date_tags_loop].
  - destruct (_ || _); intros [=].
  - intros [= <-]. by apply date_tags_loop_true in Hloop.
  - intros [=].
Qed.

(** X18: [fix_metadata] has one way to return: [True], with the file's
    modification time set.  Whatever source the date came from (embedded
    tags, sidecar, album metadata, the default date), a call that returns
    leaves the file dated; [False] is never returned. *)
Theorem fix_metadata_returns_dated (W : World) (file : Path) (st st' : State)
    (b : bool) :
  fix_metadata W file st = (inr b, st') →
  b = true ∧ is_Some (mtime_of st' !! file).
Proof.
  unfold fix_metadata, mbind, M_bind.
  destruct (exif_step W file st) as [[e|h] st1] eqn:Hexif; [done|].
  destruct (sidecar_step W file st1) as [[e|[b'|]] st2] eqn:Hside; [done| |].
  - unfold mret, M_ret. intros [= <- <-].
    unfold sidecar_step in Hside. unfold_M.
    destruct (find_json_for_file W file st1) as [[e|j] s0].
    { destruct (isinstance e FileNotFoundError); congruence. }
    destruct (get_date_str_from_json W j) as [e|date].
    { destruct (isinstance e FileNotFoundError); congruence. }
    destruct (set_file_geo_data W file j s0) as [[e|[]] s1].
    { destruct (isinstance e FileNotFoundError); congruence. }
    destruct (set_file_exif_date W file date s1) as [[e|[]] s2].
    { destruct (isinstance e FileNotFoundError); congruence. }
    destruct (set_creation_date_from_str W file date s2) as [[e|[]] s3] eqn:Hset.
    { destruct (isinstance e FileNotFoundError); congruence. }
    injection Hside as <- <-. split; [done|].
    by apply set_creation_date_from_str_sets in Hset as [_ ?].
  - intros Hfolder. destruct h.
    + cbn in Hfolder. injection Hfolder as <- <-. split; [done|].
      apply exif_step_true in Hexif.
      apply sidecar_step_frame in Hside as (_ & Hm & _). by apply Hm.
    + unfold folder_step in Hfolder. unfold_M.
      destruct (get_date_from_folder_meta W (parent file)) as [e|[date|]];
        [done| |];
        rewrite set_file_exif_date_cases in Hfolder;
        match type of Hfolder with
        | context [set_creation_date_from_str W file ?s ?x] =>
            destruct (set_creation_date_from_str W file s x) as [[e|[]] s3] eqn:Hset
        end; try done;
        injection Hfolder as <- <-; (split; [done|]); cbn;
        by apply set_creation_date_from_str_sets in Hset as [_ ?].
Qed.

Lemma fix_metadata_returns_dated_witness :
  true = true
  ∧ is_Some (mtime_of (fix_metadata bare_world a_photo no_exif).2 !! a_photo).
Proof.
  apply (fix_metadata_returns_dated bare_world a_photo no_exif
           (fix_metadata bare_world a_photo no_exif).2 true).
  vm_compute. reflexivity.
Defined.

(** ** The sidecar, when there is one *)


Lemma exif_step_lists (W : World) (file : Path) (st : State) :
  date_tags_are_bytes st file →
  ∃ has_nice_date st1,
    exif_step W file st = (inr has_nice_date, st1)
    ∧ exif_of st1 = exif_of st
    ∧ s_cant_insert_exif_files st1 = s_cant_insert_exif_files st
    ∧ s_date_from_folder_files st1 = s_date_from_folder_files st
    ∧ s_no_json_found st1 = s_no_json_found st
    ∧ s_no_date_at_all st1 = s_no_date_at_all st.
Proof.
  intros Hbytes. rewrite exif_step_cases by done.
  destruct (if utime_ok W file then _ else _); by eexists _, _.
Qed.



Lemma getitem_raises (j : json) (key : string) (e : exn) :
  getitem j key = inl e → e = KeyError ∨ e = TypeError.
Proof.
  destruct j as [| | | | | |d]; cbn; try (intros [= <-]; by right).
  destruct (d !! key); intros [= <-]. by left.
Qed.

Lemma str_to_float_raises (num : json) (e : exn) :
  _str_to_float num = inl e → position_error e.
Proof.
  destruct num as [| |z| | | |]; cbn; try (intros [= <-]; set_solver).
  unfold float_of_int. destruct (float_of_Z z); intros [= <-]; set_solver.
Qed.

Lemma read_geo_raises (j : json) (block : string) (e : exn) :
  read_geo j block = inl e → position_error e.
Proof.
  assert (Hget : ∀ j key e, getitem j key = inl e → position_error e).
  { intros j' key e' [-> | ->]%getitem_raises; set_solver. }
  unfold read_geo.
  destruct (getitem j block) as [e0|g] eqn:H1; cbn;
    [intros [= <-]; by eapply Hget|].
  destruct (getitem g "longitude") as [e0|lo] eqn:H2; cbn;
    [intros [= <-]; by eapply Hget|].
  destruct (_str_to_float lo) as [e0|x] eqn:H3; cbn;
    [intros [= <-]; by eapply str_to_float_raises|].
  destruct (getitem g "latitude") as [e0|la] eqn:H4; cbn;
    [intros [= <-]; by eapply Hget|].
  destruct (_str_to_float la) as [e0|y] eqn:H5; cbn;
    [intros [= <-]; by eapply str_to_float_raises|].
  destruct (getitem g "altitude") as [e0|al] eqn:H6; cbn;
    [intros [= <-]; by eapply Hget|].
  destruct (_str_to_float al) as [e0|z] eqn:H7; cbn;
    [intros [= <-]; by eapply str_to_float_raises|].
  done.
Qed.

Lemma select_geo_raises (j : json) (e : exn) :
  select_geo j = inl e → position_error e.
Proof.
  unfold select_geo.
  destruct (read_geo j "geoData") as [e0|[[lo la] al]] eqn:Hgeo; cbn.
  - intros [= <-]. by eapply read_geo_raises.
  - destruct (_ && _); [apply read_geo_raises | done].
Qed.

Lemma float_to_int_raises (conv : Q → Z) (x : float) (e : exn) :
  float_to_int conv x = inl e → position_error e.
Proof.
  unfold float_to_int. destruct (float_value x); [done|].
  destruct x; intros [= <-]; set_solver.
Qed.

Lemma degToDmsRational_raises (x : float) (e : exn) :
  degToDmsRational x = inl e → position_error e.
Proof.
  unfold degToDmsRational, math_floor, py_round.
  repeat match goal with
         | |- context [float_to_int ?c ?y] =>
             let H := fresh in
             destruct (float_to_int c y) eqn:H; cbn;
             [intros [= <-]; by eapply float_to_int_raises|]
         end.
  done.
Qed.

Lemma make_gps_ifd_raises (lo la al : float) (e : exn) :
  make_gps_ifd lo la al = inl e → position_error e.
Proof.
  unfold make_gps_ifd.
  destruct (hemisphere lo "E" "W") as [lo_ref lo'].
  destruct (hemisphere la "N" "S") as [la_ref la'].
  destruct (_ || _); cbn.
  - destruct (degToDmsRational la') eqn:H1; cbn;
      [intros [= <-]; by eapply degToDmsRational_raises|].
    destruct (degToDmsRational lo') eqn:H2; cbn;
      [intros [= <-]; by eapply degToDmsRational_raises|].
    destruct (negb _); [|done].
    destruct (py_round al) eqn:H3; cbn; [|done].
    intros [= <-]. by eapply float_to_int_raises.
  - destruct (negb _); [|done].
    destruct (py_round al) eqn:H3; cbn; [|done].
    intros [= <-]. by eapply float_to_int_raises.
Qed.

Lemma gps_ifd_of_raises (j : json) (e : exn) :
  gps_ifd_of j = inl e → position_error e.
Proof.
  unfold gps_ifd_of.
  destruct (select_geo j) as [e0|[[lo la] al]] eqn:Hgeo; cbn.
  - intros [= <-]. by eapply select_geo_raises.
  - apply make_gps_ifd_raises.
Qed.

(** X20: a sidecar whose position cannot be read or converted stops the
    file.  When the literal [<name>.json] parses and has a date but
    "geoData" (or one of its three fields, or "geoDataExif" when it is
    needed) is missing or is not a number, or a number is too large for a
    float, or a coordinate or altitude that is to be written is infinite or
    NaN, [fix_metadata] raises the error of the read or of the conversion
    ([KeyError], [TypeError], [OverflowError] or [ValueError]): before
    anything is written.  The EXIF is as it was, no list has grown, and the
    sidecar's date has not been applied. *)
Theorem sidecar_without_position_raises (W : World) (file : Path) (st : State)
    (j : json) (date : string) (e : exn) :
  date_tags_are_bytes st file →
  w_is_file W (with_name file (name file +:+ ".json")) = true →
  load_json W (with_name file (name file +:+ ".json")) = Some j →
  get_date_str_from_json W j = inr date →
  gps_ifd_of j = inl e →
  e ∈ [KeyError; TypeError; OverflowError; ValueError]
  ∧ ∃ has_nice_date st',
      fix_metadata W file st = (inl e, st')
      ∧ exif_step W file st = (inr has_nice_date, st')
      ∧ exif_of st' = exif_of st
      ∧ s_cant_insert_exif_files st' = s_cant_insert_exif_files st
      ∧ s_date_from_folder_files st' = s_date_from_folder_files st
      ∧ s_no_json_found st' = s_no_json_found st
      ∧ s_no_date_at_all st' = s_no_date_at_all st.
Proof.
  intros Hbytes Hfile Hload Hdate Hgeo.
  pose proof (gps_ifd_of_raises _ _ Hgeo) as He. split; [done|].
  destruct (exif_step_lists W file st Hbytes) as (h & st1 & Hexif & Hlists).
  exists h, st1. split; [|by split].
  unfold fix_metadata, mbind at 1, M_bind at 1. rewrite Hexif.
  unfold mbind at 1, M_bind at 1.
  unfold sidecar_step, find_json_for_file. unfold_M.
  rewrite Hfile, Hload, Hdate. cbn [mbind exn_bind].
  rewrite set_file_geo_data_cases, Hgeo.
  unfold position_error in He.
  repeat (apply elem_of_cons in He as [->|He]); try done.
  by apply elem_of_nil in He.
Qed.

Lemma sidecar_without_position_raises_witness :
  (∃ has_nice_date st',
     fix_metadata no_geo_world a_photo no_exif = (inl KeyError, st')
     ∧ exif_step no_geo_world a_photo no_exif = (inr has_nice_date, st')
     ∧ exif_of st' = exif_of no_exif)
  ∧ (∃ has_nice_date st',
       fix_metadata high_world a_photo no_exif = (inl OverflowError, st')
       ∧ exif_step high_world a_photo no_exif = (inr has_nice_date, st')
       ∧ exif_of st' = exif_of no_exif).
Proof.
  split.
  - destruct (sidecar_without_position_raises no_geo_world a_photo no_exif
                no_geo_sidecar "2020:01:01 00:00:00" KeyError)
      as (_ & h & st' & Hfix & Hexif & Hsame & _).
    + intros d tag v Hd. vm_compute in Hd. discriminate.
    + reflexivity.
    + reflexivity.
    + reflexivity.
    + reflexivity.
    + by exists h, st'.
  - destruct (sidecar_without_position_raises high_world a_photo no_exif
                high_geo "2020:01:01 00:00:00" OverflowError)
      as (_ & h & st' & Hfix & Hexif & Hsame & _).
    + intros d tag v Hd. vm_compute in Hd. discriminate.
    + reflexivity.
    + reflexivity.
    + reflexivity.
    + reflexivity.
    + by exists h, st'.
Defined.

(** ** The walk over the input tree *)

(** X21: with the default folder function, [for_all_files_recursive] calls
    the file function on the entries of the walk that are files and pass
    the filter, on those only, once each and in walk order; directories
    and other entries are passed over.  (A call that raises ends the walk
    there.) *)
Theorem for_all_files_recursive_visits (W : World) (dir : Path)
    (file_function : Path → M bool) (filter_function : Path → bool) (st : State) :
  for_all_files_recursive W dir file_function (λ _, mret true) filter_function st
  = for_each (λ file, _ ← file_function file; mret ())
      (filter (λ p, w_is_file W p && filter_function p = true) (w_rglob W dir)) st.
Proof.
  unfold for_all_files_recursive. generalize (w_rglob W dir). intros walk.
  revert st. induction walk as [|p walk IH]; intros st; [done|].
  rewrite filter_cons. cbn [for_each]. unfold w_is_file.
  destruct (w_lookup W p) as [[|jl]|]; cbn [andb].
  - rewrite decide_False by done. unfold mbind, M_bind, mret, M_ret. apply IH.
  - destruct (filter_function p).
    + rewrite decide_True by done. cbn [for_each].
      unfold mbind, M_bind, mret, M_ret.
      destruct (file_function p st) as [[e|b] st1]; [done | apply IH].
    + rewrite decide_False by done. unfold mbind, M_bind, mret, M_ret. apply IH.
  - rewrite decide_False by done. unfold mbind, M_bind, mret, M_ret. apply IH.
Qed.

(** X22: the first phase of [main] leaves alone what is not a media file
    of the input tree: whether the run completes or is stopped by an
    exception, the EXIF and the modification time of every path that is
    not a file of the walk passing the media filter are as before. *)
Theorem fix_all_touches_only_media (W : World) (dir : Path)
    (is_media : Path → bool) (st st' : State) (r : exn + unit) (g : Path) :
  fix_all W dir is_media st = (r, st') →
  ¬ (g ∈ w_rglob W dir ∧ w_is_file W g = true ∧ is_media g = true) →
  exif_of st' !! g = exif_of st !! g ∧ mtime_of st' !! g = mtime_of st !! g.
Proof.
  intros Hrun Hg.
  set (R := λ s s' : State, exif_of s' !! g = exif_of s !! g
                            ∧ mtime_of s' !! g = mtime_of s !! g).
  assert (HR : PreOrder R).
  { split; [by intros s | intros s1 s2 s3 [? ?] [? ?]; split; congruence]. }
  enough (preserves R (fix_all W dir is_media)) as Hp by exact (Hp _ _ _ Hrun).
  unfold fix_all, for_all_files_recursive. apply preserves_for_each; [done|].
  intros x Hx. unfold w_is_file in Hg.
  destruct (w_lookup W x) as [[|jl]|] eqn:Hlook.
  - apply preserves_bind; [done | by apply preserves_ret |].
    intros _. by apply preserves_ret.
  - destruct (is_media x) eqn:Hmedia; [|by apply preserves_ret].
    apply preserves_bind; [done | | intros _; by apply preserves_ret].
    intros s r0 s' Hfix. apply fix_metadata_frame in Hfix as (Hother & _).
    apply Hother. intros ->. apply Hg. by rewrite Hlook.
  - by apply preserves_ret.
Qed.

Lemma fix_all_touches_only_media_witness :
  exif_of (fix_all bare_world in_dir any_file dated_exif).2 !! album_dir
  = exif_of dated_exif !! album_dir
  ∧ mtime_of (fix_all bare_world in_dir any_file dated_exif).2 !! album_dir
    = mtime_of dated_exif !! album_dir.
Proof.
  apply (fix_all_touches_only_media bare_world in_dir any_file dated_exif
           (fix_all bare_world in_dir any_file dated_exif).2
           (fix_all bare_world in_dir any_file dated_exif).1 album_dir).
  - by destruct (fix_all bare_world in_dir any_file dated_exif).
  - intros (_ & Hfile & _). vm_compute in Hfile. discriminate.
Defined.

(** ** Dates already in EXIF form *)

Lemma replace_absent (old new s : string) :
  occurs old s = false → replace old new s = s.
Proof.
  unfold replace. induction s as [|c s IH]; [done|].
  cbn [occurs replace_aux]. intros [Hp Ho]%orb_false_iff.
  rewrite Hp. f_equal. by apply IH.
Qed.

Lemma substring_all (n : nat) (s : string) :
  String.length s ≤ n → String.substring 0 n s = s.
Proof.
  revert n. induction s as [|c s IH]; intros [|n]; cbn; try done; try lia.
  intros Hlen. f_equal. apply IH. lia.
Qed.

(** X23: a date that is already in EXIF form passes the normalisation of
    [set_creation_date_from_str] unchanged: a string of at most 19
    characters with no "-", "/", ".", backslash or ": " in it is handed to
    the parser as it is, so the dates the program prints itself (from a
    sidecar or album timestamp, and the default date) are read back as
    printed. *)
Theorem normalize_datetime_canonical (str_datetime : string) :
  occurs "-" str_datetime = false →
  occurs "/" str_datetime = false →
  occurs "." str_datetime = false →
  occurs "\" str_datetime = false →
  occurs ": " str_datetime = false →
  String.length str_datetime ≤ 19 →
  normalize_datetime str_datetime = str_datetime.
Proof.
  intros H1 H2 H3 H4 H5 Hlen. unfold normalize_datetime.
  rewrite (replace_absent "-") by done.
  rewrite (replace_absent "/") by done.
  rewrite (replace_absent ".") by done.
  rewrite (replace_absent "\") by done.
  rewrite (replace_absent ": ") by done.
  by apply substring_all.
Qed.

Lemma normalize_datetime_canonical_witness :
  normalize_datetime DATE_NOT_FOUND_DATE = DATE_NOT_FOUND_DATE.
Proof.
  apply (normalize_datetime_canonical DATE_NOT_FOUND_DATE);
    [reflexivity.. | simpl; lia].
Defined.

(** The case the code's comment gives: separators and a blank in the
    seconds. *)
Example normalize_datetime_blank_second :
  normalize_datetime "2006-11-09 10:54: 1" = "2006:11:09 10:54:01".
Proof. vm_compute. reflexivity. Qed.

(** ** The other sources of the date *)

Lemma index_json_keeps (folder : Path) (j : json) (st : State) :
  only_index_changed st (index_json folder j st).
Proof.
  unfold index_json. destruct (contains "title" j) as [|[|]]; [done| |done].
  by destruct (getitem j "title") as [|[]].
Qed.

Lemma load_folder_keeps (W : World) (folder : Path) (st : State) :
  only_index_changed st (load_folder W folder st).
Proof.
  unfold load_folder. generalize (w_rglob_json W folder). intros files.
  revert st. induction files as [|f files IH]; intros st; [done|].
  cbn [foldl].
  match goal with |- only_index_changed _ (foldl _ ?s _) => specialize (IH s) end.
  assert (only_index_changed st
            match load_json W f with
            | Some json_dict => index_json folder json_dict st
            | None => st
            end) as Hstep.
  { destruct (load_json W f); [apply index_json_keeps | done]. }
  destruct Hstep as (? & ? & ? & ? & ? & ?), IH as (? & ? & ? & ? & ? & ?).
  repeat split; congruence.
Qed.

(** A lookup that raises leaves everything but the title index and the
    list of files without sidecar as it was. *)
Lemma find_json_for_file_missing (W : World) (file : Path) (st st' : State)
    (e : exn) :
  find_json_for_file W file st = (inl e, st') →
  e = FileNotFoundError
  ∧ exif_of st' = exif_of st
  ∧ mtime_of st' = mtime_of st
  ∧ s_cant_insert_exif_files st' = s_cant_insert_exif_files st
  ∧ s_date_from_folder_files st' = s_date_from_folder_files st
  ∧ s_no_date_at_all st' = s_no_date_at_all st.
Proof.
  intros Hfind. split; [by eapply find_json_for_file_raises|].
  unfold find_json_for_file in Hfind.
  destruct (w_is_file W _).
  { destruct (load_json W _); by simplify_eq. }
  destruct (bool_decide _).
  - destruct (_ ≫= _); by simplify_eq.
  - pose proof (load_folder_keeps W (parent file) st) as (? & ? & ? & ? & ? & ?).
    destruct (_ ≫= _); simplify_eq. by cbn.
Qed.

(** X24: a file with a usable embedded date and no sidecar is only
    re-timestamped: [fix_metadata] returns [True] with the modification
    time set to the embedded date, the EXIF is not rewritten, and the file
    is listed neither as dated from the folder nor as undated. *)
Theorem embedded_date_without_sidecar (W : World) (file : Path) (st st1 : State)
    (d : exif_dict) (timestamp : Z) (e : exn) :
  date_tags_are_bytes st file →
  utime_ok W file = true →
  exif_of st !! file = Some d →
  first_timestamp W d date_tags = Some timestamp →
  find_json_for_file W file (set_mtime <[file := timestamp]> st) = (inl e, st1) →
  fix_metadata W file st = (inr true, st1)
  ∧ mtime_of st1 !! file = Some timestamp
  ∧ exif_of st1 = exif_of st
  ∧ s_cant_insert_exif_files st1 = s_cant_insert_exif_files st
  ∧ s_date_from_folder_files st1 = s_date_from_folder_files st
  ∧ s_no_date_at_all st1 = s_no_date_at_all st.
Proof.
  intros Hbytes Hutime Hd Hfirst Hfind.
  destruct (find_json_for_file_missing _ _ _ _ _ Hfind)
    as (-> & He & Hm & Hl1 & Hl2 & Hl3).
  split.
  - unfold fix_metadata, mbind at 1, M_bind at 1.
    rewrite exif_step_cases by done. rewrite Hutime, Hd. cbn [mbind option_bind].
    rewrite Hfirst. unfold mbind at 1, M_bind at 1.
    unfold sidecar_step. unfold_M. by rewrite Hfind.
  - rewrite Hm, He, Hl1, Hl2, Hl3. cbn. by rewrite lookup_insert_eq.
Qed.

Lemma embedded_date_without_sidecar_witness :
  let st1 := set_no_json_found (λ l, l ++ [str a_photo])
               (set_mtime <[a_photo := 1600000000%Z]> dated_exif) in
  fix_metadata bare_world a_photo dated_exif = (inr true, st1)
  ∧ mtime_of st1 !! a_photo = Some 1600000000%Z
  ∧ exif_of st1 = exif_of dated_exif
  ∧ s_cant_insert_exif_files st1 = s_cant_insert_exif_files dated_exif
  ∧ s_date_from_folder_files st1 = s_date_from_folder_files dated_exif
  ∧ s_no_date_at_all st1 = s_no_date_at_all dated_exif.
Proof.
  apply (embedded_date_without_sidecar bare_world a_photo dated_exif _
           (as_loaded
              (mkExif ∅ {[ TAG_DATE_TIME_ORIGINAL := EBytes "2020-09-13 12:26:40" ]}
                      None))
           1600000000%Z FileNotFoundError).
  - apply dated_exif_tags_are_bytes.
  - reflexivity.
  - vm_compute. reflexivity.
  - vm_compute. reflexivity.
  - vm_compute. reflexivity.
Defined.


